(** * Block processor, token API and interoperability commands of the SDK

    A shallow embedding of
    - [Processor] (block processing, fork-status dispatch, genesis),
    - [TokenAPI] (mint, burn, transfer, lock, unlock),
    - [SidechainCCSidechainTerminatedCommand.execute],
    - the liveness-termination command,
    - the certificate utilities ([computeCertificateFromBlockHeader],
      [signCertificate], [verifySingleCertificateSignature],
      [verifyAggregateCertificateSignature]),
    - the utilities of the DPoS module,
    - the react command of the hello module,
    followed by the properties established about them.

    JavaScript [bigint] is [Z]; a [Buffer] is a list of bytes; a store is a
    finite map from byte keys to encoded values; an [async] method that may
    throw is a computation in a state-and-exception monad in which the state
    written before a [throw] is kept, as the mutated stores are. *)

From Stdlib Require Import ZArith List Lia Bool String DecimalString.
From stdpp Require Import base option list gmap sorting.

Local Open Scope Z_scope.

(* ================================================================== *)
(** * State and exceptions *)
(* ================================================================== *)

Module Eff.

Inductive Result (E A : Type) : Type :=
| Ok (a : A)
| Throw (e : E).
Arguments Ok {E A} a.
Arguments Throw {E A} e.

(** A computation over a state [S] that returns a value or throws; the state
    reached at the moment of the throw is part of the outcome. *)
Definition M (E S A : Type) : Type := S -> Result E A * S.

Definition ret {E S A} (a : A) : M E S A := fun s => (Ok a, s).

Definition throw {E S A} (e : E) : M E S A := fun s => (Throw e, s).

Definition bind {E S A B} (c : M E S A) (k : A -> M E S B) : M E S B :=
  fun s =>
    match c s with
    | (Ok a, s') => k a s'
    | (Throw e, s') => (Throw e, s')
    end.

(** [try { c } catch (err) { h err }] *)
Definition tryCatch {E S A} (c : M E S A) (h : E -> M E S A) : M E S A :=
  fun s =>
    match c s with
    | (Ok a, s') => (Ok a, s')
    | (Throw e, s') => h e s'
    end.

Definition gets {E S A} (f : S -> A) : M E S A := fun s => (Ok (f s), s).

Definition modify {E S} (f : S -> S) : M E S unit := fun s => (Ok tt, f s).

(** Lifts the outcome of a call that does not touch the state. *)
Definition lift {E S A} (r : Result E A) : M E S A := fun s => (r, s).

Definition isOk {E A} (r : Result E A) : bool :=
  match r with Ok _ => true | Throw _ => false end.

End Eff.

Import Eff.

Notation "'let*' x ':=' c 'in' k" := (bind c (fun x => k))
  (at level 10, x name, c at level 100, k at level 200).

(* ================================================================== *)
(** * Buffers *)
(* ================================================================== *)

Abbreviation Buffer := (list Byte.byte).

#[global] Instance byte_eq_dec : EqDecision Byte.byte := Byte.byte_eq_dec.

#[global] Instance byte_countable : Countable Byte.byte :=
  inj_countable Byte.to_N Byte.of_N Byte.of_to_N.

(** [Buffer.compare]: bytewise lexicographic order, a proper prefix first. *)
Fixpoint Buffer_compare (a b : Buffer) : comparison :=
  match a, b with
  | [], [] => Eq
  | [], _ :: _ => Lt
  | _ :: _, [] => Gt
  | x :: a', y :: b' =>
      match N.compare (Byte.to_N x) (Byte.to_N y) with
      | Eq => Buffer_compare a' b'
      | c => c
      end
  end.

Definition Buffer_leb (a b : Buffer) : bool :=
  match Buffer_compare a b with Gt => false | _ => true end.

(** [a.equals(b)] *)
Definition Buffer_equals (a b : Buffer) : bool := bool_decide (a = b).

(** [Buffer.alloc(n, fill)] *)
Definition Buffer_alloc (n : nat) (fill : Byte.byte) : Buffer := repeat fill n.

(** [buf.readUInt32BE(0)]: [None] stands for the RangeError raised when fewer
    than four bytes are available. *)
Definition readUInt32BE (b : Buffer) : option Z :=
  match b with
  | b0 :: b1 :: b2 :: b3 :: _ =>
      Some (Z.of_N (Byte.to_N b0) * 16777216 + Z.of_N (Byte.to_N b1) * 65536
            + Z.of_N (Byte.to_N b2) * 256 + Z.of_N (Byte.to_N b3))
  | _ => None
  end.

Definition byte_of_Z (z : Z) : Byte.byte :=
  match Byte.of_N (Z.to_N (z mod 256)) with
  | Some b => b
  | None => Byte.x00
  end.

(** [Buffer.alloc(4).writeUInt32BE(v, 0)]: [None] stands for the RangeError
    raised when [v] is not an unsigned 32-bit value. *)
Definition writeUInt32BE (v : Z) : option Buffer :=
  if (0 <=? v) && (v <=? 4294967295)
  then Some [byte_of_Z (v / 16777216); byte_of_Z (v / 65536);
             byte_of_Z (v / 256); byte_of_Z v]
  else None.

(* ================================================================== *)
(** * Token module: [TokenAPI] *)
(* ================================================================== *)

Module Token.

(** ** Constants *)

(** Modelled from the spec: [./constants] is not among the sources. Chain and
    local identifiers are four bytes each (the unit tests build them so), a
    token identifier is their concatenation, and the alias of the native
    chain is four zero bytes. *)
Definition CHAIN_ID_LENGTH : nat := 4.
Definition LOCAL_ID_LENGTH : nat := 4.
Definition TOKEN_ID_LENGTH : nat := 8.
Definition CHAIN_ID_ALIAS_NATIVE : Buffer := Buffer_alloc CHAIN_ID_LENGTH Byte.x00.
Definition EMPTY_BYTES : Buffer := [].
Definition MAX_UINT64 : Z := 18446744073709551615.

(** ** Store values ([./schemas]) *)

Record LockedBalance : Type := {
  lb_moduleID : Z;
  lb_amount : Z
}.

Record UserStoreData : Type := {
  availableBalance : Z;
  lockedBalances : list LockedBalance
}.

Record SupplyStoreData : Type := { totalSupply : Z }.

Record EscrowStoreData : Type := { escrow_amount : Z }.

Record AvailableLocalIDStoreData : Type := { nextAvailableLocalID : Buffer }.

(** [MinBalance] of [types.ts] *)
Record MinBalance : Type := {
  mb_tokenID : Buffer;
  mb_amount : Z
}.

(** ** The codec *)

(** Modelled from the spec: the schemas ([./schemas]) and the codec are not
    among the sources. A store value is bound to a schema, used to encode it
    when it is written and to decode it when it is read; the amounts of the
    token module are unsigned integer fields, and decoding rejects data that
    does not validate against the schema. [validates v] tells whether the
    value [v] fits its schema: none of its amounts is negative. An amount is
    validated for its sign only; the bound [MAX_UINT64] is the one [mint]
    checks on the supply. *)
Class Schema (V : Type) : Type := validates : V -> bool.

#[global] Instance userStoreSchema : Schema UserStoreData := fun user =>
  (0 <=? availableBalance user)
  && forallb (fun b => 0 <=? lb_amount b) (lockedBalances user).

#[global] Instance supplyStoreSchema : Schema SupplyStoreData := fun supply =>
  0 <=? totalSupply supply.

#[global] Instance escrowStoreSchema : Schema EscrowStoreData := fun escrow =>
  0 <=? escrow_amount escrow.

#[global] Instance availableLocalIDStoreSchema : Schema AvailableLocalIDStoreData :=
  fun _ => true.

(** Modelled from the spec: the bytes [codec.encode(schema, v)] yields,
    named by the value [v] they were encoded from. *)
Record Encoded (V : Type) : Type := encode { written : V }.
Arguments encode {V} _.
Arguments written {V} _.

(** Modelled from the spec: [codec.decode(schema, bytes)]. [None] stands for
    the error thrown on bytes that do not validate against the schema: the
    bytes written from a value with a negative amount do not decode. *)
Definition decode {V} `{Schema V} (bytes : Encoded V) : option V :=
  if validates (written bytes) then Some (written bytes) else None.

(** ** The four substores of the module *)

Record Stores : Type := {
  userStore : gmap Buffer (Encoded UserStoreData);
  supplyStore : gmap Buffer (Encoded SupplyStoreData);
  escrowStore : gmap Buffer (Encoded EscrowStoreData);
  availableLocalIDStore : gmap Buffer (Encoded AvailableLocalIDStoreData)
}.

Definition set_userStore
  (f : gmap Buffer (Encoded UserStoreData) -> gmap Buffer (Encoded UserStoreData))
  (s : Stores) : Stores :=
  {| userStore := f (userStore s); supplyStore := supplyStore s;
     escrowStore := escrowStore s;
     availableLocalIDStore := availableLocalIDStore s |}.

Definition set_supplyStore
  (f : gmap Buffer (Encoded SupplyStoreData) -> gmap Buffer (Encoded SupplyStoreData))
  (s : Stores) : Stores :=
  {| userStore := userStore s; supplyStore := f (supplyStore s);
     escrowStore := escrowStore s;
     availableLocalIDStore := availableLocalIDStore s |}.

Definition set_availableLocalIDStore
  (f : gmap Buffer (Encoded AvailableLocalIDStoreData) ->
       gmap Buffer (Encoded AvailableLocalIDStoreData))
  (s : Stores) : Stores :=
  {| userStore := userStore s; supplyStore := supplyStore s;
     escrowStore := escrowStore s;
     availableLocalIDStore := f (availableLocalIDStore s) |}.

(** ** Errors thrown by the API *)

Inductive Error : Type :=
| NotFoundError
| SchemaValidationError      (* thrown by the codec on bytes that do not decode *)
| RangeError
| OnlyNativeEscrow           (* 'Only native token can have escrow amount.' *)
| TokenAlreadyInitialized    (* 'Token is already initialized.' *)
| OnlyNativeMinted           (* 'Only native token can be minted.' *)
| MintAmountNegative         (* 'Amount must be a positive integer to mint.' *)
| LocalIDNotInitialized      (* 'LocalID ... is not initialized to mint.' *)
| SupplyExceedsMaxUint64     (* 'Supply cannot exceed MAX_UINT64 ...' *)
| MinBalanceNotSet           (* 'Address cannot be initialized because min balance is not set ...' *)
| MinBalanceNotSatisfied     (* 'Amount ... does not satisfy min balance requirement.' *)
| OnlyNativeBurnt            (* 'Only native token can be burnt.' *)
| BurnAmountNegative         (* 'Amount must be a positive integer to burn.' *)
| InsufficientBalance        (* '... balance ... is not sufficient for ...' *)
| LockAmountNegative         (* 'Amount must be a positive integer to lock.' *)
| UnlockAmountNegative       (* 'Amount must be a positive integer to unlock.' *)
| NoBalanceLocked            (* 'No balance is locked for module ID ...' *)
| NotEnoughLocked.           (* 'Not enough amount is locked for module ...' *)

#[global] Instance Error_eq_dec : EqDecision Error.
Proof. solve_decision. Defined.

Abbreviation TM := (M Error Stores).

(** ** Helpers of [./utils] *)

(** Modelled from the spec: [./utils] is not among the sources.
    [splitTokenID] slices a token identifier into its chain and local
    identifier. *)
Definition splitTokenID (tokenID : Buffer) : Buffer * Buffer :=
  (take CHAIN_ID_LENGTH tokenID, drop CHAIN_ID_LENGTH tokenID).

(** Modelled from the spec: [./utils] is not among the sources.
    [getNativeTokenID] replaces the chain identifier by the native alias. *)
Definition getNativeTokenID (tokenID : Buffer) : Buffer :=
  CHAIN_ID_ALIAS_NATIVE ++ drop CHAIN_ID_LENGTH tokenID.

(** Modelled from the spec: [./utils] is not among the sources. Token
    balances are keyed by (address, tokenID): the key is the address followed
    by the token identifier, which is what the range scanned by
    [_accountExist], from [address ++ 00..00] to [address ++ ff..ff], relies
    on. *)
Definition getUserStoreKey (address tokenID : Buffer) : Buffer :=
  address ++ tokenID.

(** ** Substore access *)

(** What reading a key of a store yields: [NotFoundError] on a missing key,
    the error of the codec on bytes that do not decode, the decoded value
    otherwise. *)
Definition readStore {V} `{Schema V} (store : gmap Buffer (Encoded V)) (key : Buffer)
  : Result Error V :=
  match store !! key with
  | None => Throw NotFoundError
  | Some bytes =>
      match decode bytes with
      | Some v => Ok v
      | None => Throw SchemaValidationError
      end
  end.

(** What a read wrapped in a [catch] of [NotFoundError] yields: the default
    value on a missing key. *)
Definition readStoreOr {V} `{Schema V} (store : gmap Buffer (Encoded V)) (key : Buffer)
  (dflt : V) : Result Error V :=
  match store !! key with
  | None => Ok dflt
  | Some _ => readStore store key
  end.

(** [store.getWithSchema(key, schema)] *)
Definition getWithSchema {V} `{Schema V} (sel : Stores -> gmap Buffer (Encoded V))
  (key : Buffer) : TM V :=
  fun s => (readStore (sel s) key, s).

(** [store.has(key)] *)
Definition has {V} (sel : Stores -> gmap Buffer V) (key : Buffer) : TM bool :=
  gets (fun s => bool_decide (is_Some (sel s !! key))).

(** [store.iterate({start, end})]: the entries whose key lies in the closed
    range, in key order up to the order of [map_to_list]. *)
Definition iterate {V} (m : gmap Buffer V) (start end_ : Buffer) : list (Buffer * V) :=
  filter (fun kv => Is_true (Buffer_leb start (fst kv) && Buffer_leb (fst kv) end_))
         (map_to_list m).

(** ** The API object: its configuration and its dependency *)

Record TokenAPI : Type := {
  _minBalances : list MinBalance;
  (** [_interoperabilityAPI.getOwnChainAccount(apiContext).id] *)
  ownChainID : Buffer
}.

Section API.

Variable this : TokenAPI.

Definition getCanonicalTokenID (tokenID : Buffer) : TM Buffer :=
  let chainID := fst (splitTokenID tokenID) in
  if Buffer_equals chainID CHAIN_ID_ALIAS_NATIVE then ret tokenID
  else
    let id := ownChainID this in
    if Buffer_equals chainID id then ret (getNativeTokenID tokenID)
    else ret tokenID.

(** The identifier [getCanonicalTokenID] resolves to; it reads no store. *)
Definition canonicalOf (tokenID : Buffer) : Buffer :=
  let chainID := fst (splitTokenID tokenID) in
  if Buffer_equals chainID CHAIN_ID_ALIAS_NATIVE then tokenID
  else if Buffer_equals chainID (ownChainID this) then getNativeTokenID tokenID
  else tokenID.

Definition isNative (tokenID : Buffer) : TM bool :=
  let* canonicalTokenID := getCanonicalTokenID tokenID in
  let chainID := fst (splitTokenID canonicalTokenID) in
  ret (Buffer_equals chainID CHAIN_ID_ALIAS_NATIVE).

(** [_minBalances.find(mb => mb.tokenID.equals(tokenID))?.amount] *)
Definition _getMinBalance (tokenID : Buffer) : option Z :=
  mb_amount <$> List.find (fun mb => Buffer_equals (mb_tokenID mb) tokenID)
                          (_minBalances this).

(** [!minBalance] for [minBalance : bigint | undefined]: true for
    [undefined] and for [0n]. *)
Definition falsy (minBalance : option Z) : bool :=
  match minBalance with
  | None => true
  | Some v => v =? 0
  end.

Definition minBalance_value (minBalance : option Z) : Z :=
  match minBalance with Some v => v | None => 0 end.

Definition _accountExist (userStore : gmap Buffer (Encoded UserStoreData))
  (address : Buffer) : bool :=
  let allUserData :=
    iterate userStore
      (address ++ Buffer_alloc TOKEN_ID_LENGTH Byte.x00)
      (address ++ Buffer_alloc TOKEN_ID_LENGTH Byte.xff) in
  negb (Nat.eqb (length allUserData) 0).

Definition accountExists (address : Buffer) : TM bool :=
  gets (fun s => _accountExist (userStore s) address).

(** The [catch] clause shared by the readers and writers below: a
    [NotFoundError] is replaced by [dflt], anything else is thrown again. *)
Definition orIfNotFound {A} (c : TM A) (dflt : A) : TM A :=
  tryCatch c (fun error =>
    if bool_decide (error = NotFoundError) then ret dflt else throw error).

Definition getAvailableBalance (address tokenID : Buffer) : TM Z :=
  let* canonicalTokenID := getCanonicalTokenID tokenID in
  orIfNotFound
    (let* user := getWithSchema userStore (getUserStoreKey address canonicalTokenID) in
     ret (availableBalance user))
    0.

Definition getLockedAmount (address tokenID : Buffer) (moduleID : Z) : TM Z :=
  let* canonicalTokenID := getCanonicalTokenID tokenID in
  orIfNotFound
    (let* user := getWithSchema userStore (getUserStoreKey address canonicalTokenID) in
     ret (match List.find (fun lb => lb_moduleID lb =? moduleID) (lockedBalances user) with
          | Some lb => lb_amount lb
          | None => 0
          end))
    0.

Definition getEscrowedAmount (escrowChainID tokenID : Buffer) : TM Z :=
  let* canonicalTokenID := getCanonicalTokenID tokenID in
  let* native := isNative canonicalTokenID in
  if negb native then throw OnlyNativeEscrow
  else
    let localID := snd (splitTokenID tokenID) in
    orIfNotFound
      (let* e := getWithSchema escrowStore (escrowChainID ++ localID) in
       ret (escrow_amount e))
      0.

Definition getNextAvailableLocalID : TM Buffer :=
  let* d := getWithSchema availableLocalIDStore EMPTY_BYTES in
  ret (nextAvailableLocalID d).

(** [store.setWithSchema(key, value, schema)] on each substore: the encoded
    value is written under the key. *)
Definition setUser (key : Buffer) (v : UserStoreData) : TM unit :=
  modify (set_userStore (insert key (encode v))).

Definition setSupply (key : Buffer) (v : SupplyStoreData) : TM unit :=
  modify (set_supplyStore (insert key (encode v))).

Definition setAvailableLocalID (key : Buffer) (v : AvailableLocalIDStoreData) : TM unit :=
  modify (set_availableLocalIDStore (insert key (encode v))).

Definition liftRange {A} (o : option A) : TM A :=
  match o with Some a => ret a | None => throw RangeError end.

Definition initializeToken (localID : Buffer) : TM unit :=
  let* supplyExist := has supplyStore localID in
  if supplyExist then throw TokenAlreadyInitialized
  else
    let* _ := setSupply localID {| totalSupply := 0 |} in
    let* d := getWithSchema availableLocalIDStore EMPTY_BYTES in
    match Buffer_compare localID (nextAvailableLocalID d) with
    | Lt => ret tt
    | _ =>
        let* v := liftRange (readUInt32BE localID) in
        let* newAvailableLocalID := liftRange (writeUInt32BE (v + 1)) in
        setAvailableLocalID EMPTY_BYTES
          {| nextAvailableLocalID := newAvailableLocalID |}
    end.

(** The user record used when the key is not in the store. *)
Definition emptyUser : UserStoreData :=
  {| availableBalance := 0; lockedBalances := [] |}.

Definition credit (u : UserStoreData) (v : Z) : UserStoreData :=
  {| availableBalance := availableBalance u + v;
     lockedBalances := lockedBalances u |}.

Definition debit (u : UserStoreData) (v : Z) : UserStoreData :=
  {| availableBalance := availableBalance u - v;
     lockedBalances := lockedBalances u |}.

Definition mint (address tokenID : Buffer) (amount : Z) : TM unit :=
  let* canonicalTokenID := getCanonicalTokenID tokenID in
  let* native := isNative canonicalTokenID in
  if negb native then throw OnlyNativeMinted
  else if amount <? 0 then throw MintAmountNegative
  else
    let localID := snd (splitTokenID canonicalTokenID) in
    let* supplyExist := has supplyStore localID in
    if negb supplyExist then throw LocalIDNotInitialized
    else
      let* supply := getWithSchema supplyStore localID in
      if totalSupply supply >? MAX_UINT64 - amount then throw SupplyExceedsMaxUint64
      else
        let* recipientExist := accountExists address in
        let minBalance := _getMinBalance canonicalTokenID in
        let* receivedAmount :=
          (if negb recipientExist then
             if falsy minBalance then throw MinBalanceNotSet
             else if minBalance_value minBalance >? amount
             then throw MinBalanceNotSatisfied
             else ret (amount - minBalance_value minBalance)
           else ret amount) in
        let* recipient :=
          orIfNotFound
            (getWithSchema userStore (getUserStoreKey address canonicalTokenID))
            emptyUser in
        let* _ := setUser (getUserStoreKey address canonicalTokenID)
                          (credit recipient receivedAmount) in
        setSupply localID {| totalSupply := totalSupply supply + receivedAmount |}.

Definition burn (address tokenID : Buffer) (amount : Z) : TM unit :=
  let* canonicalTokenID := getCanonicalTokenID tokenID in
  let* native := isNative canonicalTokenID in
  if negb native then throw OnlyNativeBurnt
  else if amount <? 0 then throw BurnAmountNegative
  else
    let* sender := getWithSchema userStore (getUserStoreKey address canonicalTokenID) in
    if availableBalance sender <? amount then throw InsufficientBalance
    else
      let* _ := setUser (getUserStoreKey address canonicalTokenID)
                        (debit sender amount) in
      let localID := snd (splitTokenID canonicalTokenID) in
      let* supply := getWithSchema supplyStore localID in
      setSupply localID {| totalSupply := totalSupply supply - amount |}.

Definition transfer (senderAddress recipientAddress tokenID : Buffer) (amount : Z)
  : TM unit :=
  let* canonicalTokenID := getCanonicalTokenID tokenID in
  let* sender :=
    getWithSchema userStore (getUserStoreKey senderAddress canonicalTokenID) in
  if availableBalance sender <? amount then throw InsufficientBalance
  else
    let* _ := setUser (getUserStoreKey senderAddress canonicalTokenID)
                      (debit sender amount) in
    let* recipientExist := accountExists recipientAddress in
    let minBalance := _getMinBalance canonicalTokenID in
    let* receivedAmount :=
      (if negb recipientExist then
         if falsy minBalance then throw MinBalanceNotSet
         else if minBalance_value minBalance >? amount
         then throw MinBalanceNotSatisfied
         else
           let chainID := fst (splitTokenID canonicalTokenID) in
           let* _ :=
             (if Buffer_equals chainID CHAIN_ID_ALIAS_NATIVE then
                let localID := snd (splitTokenID canonicalTokenID) in
                let* supply := getWithSchema supplyStore localID in
                setSupply localID
                  {| totalSupply := totalSupply supply - minBalance_value minBalance |}
              else ret tt) in
           ret (amount - minBalance_value minBalance)
       else ret amount) in
    let* recipient :=
      orIfNotFound
        (getWithSchema userStore (getUserStoreKey recipientAddress canonicalTokenID))
        emptyUser in
    setUser (getUserStoreKey recipientAddress canonicalTokenID)
            (credit recipient receivedAmount).

(** [lockedBalances.sort((a, b) => a.moduleID - b.moduleID)]: a stable sort
    by module identifier. *)
Fixpoint insertByModuleID (x : LockedBalance) (l : list LockedBalance)
  : list LockedBalance :=
  match l with
  | [] => [x]
  | y :: l' =>
      if lb_moduleID x <=? lb_moduleID y then x :: l
      else y :: insertByModuleID x l'
  end.

Definition sortByModuleID (l : list LockedBalance) : list LockedBalance :=
  foldr insertByModuleID [] l.

Definition lock (address : Buffer) (moduleID : Z) (tokenID : Buffer) (amount : Z)
  : TM unit :=
  let* canonicalTokenID := getCanonicalTokenID tokenID in
  if amount <? 0 then throw LockAmountNegative
  else
    let* user := getWithSchema userStore (getUserStoreKey address canonicalTokenID) in
    if availableBalance user <? amount then throw InsufficientBalance
    else
      let locked :=
        (* [findIndex(b => b.moduleID === moduleID)] and the entry found *)
        match list_find (fun b => lb_moduleID b = moduleID) (lockedBalances user) with
        | Some (existingIndex, b) =>
            <[existingIndex :=
                {| lb_moduleID := moduleID; lb_amount := lb_amount b + amount |}]>
              (lockedBalances user)
        | None =>
            lockedBalances user ++ [{| lb_moduleID := moduleID; lb_amount := amount |}]
        end in
      setUser (getUserStoreKey address canonicalTokenID)
        {| availableBalance := availableBalance user - amount;
           lockedBalances := sortByModuleID locked |}.

Definition unlock (address : Buffer) (moduleID : Z) (tokenID : Buffer) (amount : Z)
  : TM unit :=
  let* canonicalTokenID := getCanonicalTokenID tokenID in
  if amount <? 0 then throw UnlockAmountNegative
  else
    let* user := getWithSchema userStore (getUserStoreKey address canonicalTokenID) in
    match list_find (fun b => lb_moduleID b = moduleID) (lockedBalances user) with
    | None => throw NoBalanceLocked
    | Some (lockedIndex, lockedObj) =>
        if lb_amount lockedObj <? amount then throw NotEnoughLocked
        else
          let lockedObj' :=
            {| lb_moduleID := lb_moduleID lockedObj;
               lb_amount := lb_amount lockedObj - amount |} in
          let locked :=
            if negb (lb_amount lockedObj' =? 0)
            then <[lockedIndex := lockedObj']> (lockedBalances user)
            else delete lockedIndex (lockedBalances user) in
          setUser (getUserStoreKey address canonicalTokenID)
            {| availableBalance := availableBalance user + amount;
               lockedBalances := locked |}
    end.

End API.

(** ** Totals per token

    The balance of a user record is what is available plus what is locked;
    the token of a user-store key is its trailing [TOKEN_ID_LENGTH] bytes;
    escrow entries are kept per (chain, local identifier) for native tokens
    only. An entry that does not decode holds no balance. *)


Definition lockedTotal (l : list LockedBalance) : Z :=
  foldr (fun b acc => lb_amount b + acc) 0 l.

Definition balance (u : UserStoreData) : Z :=
  availableBalance u + lockedTotal (lockedBalances u).


Definition balanceOf (bytes : Encoded UserStoreData) : Z :=
  from_option balance 0 (decode bytes).





(** The stored available balance of an address for a canonical token, as
    read from its record; there is none when the address has no record for
    the token or the record does not decode. *)
Definition storedBalance (s : Stores) (address canonicalTokenID : Buffer) : option Z :=
  availableBalance <$>
    (userStore s !! getUserStoreKey address canonicalTokenID ≫= decode).

(** The stored supply of a local identifier, as read from its entry. *)
Definition storedSupply (s : Stores) (localID : Buffer) : option Z :=
  totalSupply <$> (supplyStore s !! localID ≫= decode).

(** ** The methods of the API as one family *)

Inductive Op : Type :=
| OpGetAvailableBalance (address tokenID : Buffer)
| OpGetLockedAmount (address tokenID : Buffer) (moduleID : Z)
| OpGetEscrowedAmount (escrowChainID tokenID : Buffer)
| OpAccountExists (address : Buffer)
| OpGetNextAvailableLocalID
| OpIsNative (tokenID : Buffer)
| OpGetCanonicalTokenID (tokenID : Buffer)
| OpInitializeToken (localID : Buffer)
| OpMint (address tokenID : Buffer) (amount : Z)
| OpBurn (address tokenID : Buffer) (amount : Z)
| OpTransfer (senderAddress recipientAddress tokenID : Buffer) (amount : Z)
| OpLock (address : Buffer) (moduleID : Z) (tokenID : Buffer) (amount : Z)
| OpUnlock (address : Buffer) (moduleID : Z) (tokenID : Buffer) (amount : Z).

Definition discard {A} (c : TM A) : TM unit := let* _ := c in ret tt.

Definition call (this : TokenAPI) (op : Op) : TM unit :=
  match op with
  | OpGetAvailableBalance a t => discard (getAvailableBalance this a t)
  | OpGetLockedAmount a t m => discard (getLockedAmount this a t m)
  | OpGetEscrowedAmount c t => discard (getEscrowedAmount this c t)
  | OpAccountExists a => discard (accountExists a)
  | OpGetNextAvailableLocalID => discard getNextAvailableLocalID
  | OpIsNative t => discard (isNative this t)
  | OpGetCanonicalTokenID t => discard (getCanonicalTokenID this t)
  | OpInitializeToken l => initializeToken l
  | OpMint a t v => mint this a t v
  | OpBurn a t v => burn this a t v
  | OpTransfer f r t v => transfer this f r t v
  | OpLock a m t v => lock this a m t v
  | OpUnlock a m t v => unlock this a m t v
  end.






(** ** Notions used to state the properties *)

(** [key] lies in the range [_accountExist] scans for [address]. *)
Definition inRange (address key : Buffer) : Prop :=
  Is_true (Buffer_leb (address ++ Buffer_alloc TOKEN_ID_LENGTH Byte.x00) key
           && Buffer_leb key (address ++ Buffer_alloc TOKEN_ID_LENGTH Byte.xff)).

(** The chain part of a canonical identifier is the native alias. *)
Definition nativeToken (canonicalTokenID : Buffer) : bool :=
  Buffer_equals (fst (splitTokenID canonicalTokenID)) CHAIN_ID_ALIAS_NATIVE.


(** ** A scenario: two addresses, a native and a foreign token, both with a
    min balance of 5, and a sender holding 100 *)

Definition T_native : Buffer :=
  [Byte.x00; Byte.x00; Byte.x00; Byte.x00; Byte.x00; Byte.x00; Byte.x00; Byte.x01].
Definition T_foreign : Buffer :=
  [Byte.x00; Byte.x00; Byte.x00; Byte.x02; Byte.x00; Byte.x00; Byte.x00; Byte.x01].
Definition T_other : Buffer :=
  [Byte.x00; Byte.x00; Byte.x00; Byte.x00; Byte.x00; Byte.x00; Byte.x00; Byte.x07].
Definition localOne : Buffer := [Byte.x00; Byte.x00; Byte.x00; Byte.x01].
Definition alice : Buffer := repeat Byte.x01 20.
Definition bob : Buffer := repeat Byte.x02 20.

Definition demoAPI : TokenAPI :=
  {| _minBalances := [ {| mb_tokenID := T_native; mb_amount := 5 |};
                       {| mb_tokenID := T_foreign; mb_amount := 5 |} ];
     ownChainID := [Byte.x00; Byte.x00; Byte.x00; Byte.x09] |}.

(** Only the sender holds an account, for token [T]. *)
Definition st0 (T : Buffer) : Stores :=
  {| userStore :=
       {[ getUserStoreKey alice T :=
            encode {| availableBalance := 100; lockedBalances := [] |} ]};
     supplyStore := {[ drop CHAIN_ID_LENGTH T := encode {| totalSupply := 1000 |} ]};
     escrowStore := ∅;
     availableLocalIDStore := ∅ |}.

(** As [st0], and the recipient holds an account for another token. *)
Definition st1 (T : Buffer) : Stores :=
  set_userStore
    (insert (getUserStoreKey bob T_other)
            (encode {| availableBalance := 1; lockedBalances := [] |}))
    (st0 T).

End Token.

(* ================================================================== *)
(** * Block processor: [Processor] *)
(* ================================================================== *)

Module Processor.

(** [ForkStatus] of the BFT package: six numeric members, pairwise distinct
    as the members of an enum are. Their literal values are not fixed here. *)
Class ForkStatusEnum : Type := {
  IDENTICAL_BLOCK : Z;
  VALID_BLOCK : Z;
  DOUBLE_FORGING : Z;
  TIE_BREAK : Z;
  DIFFERENT_CHAIN : Z;
  DISCARD : Z;
  ForkStatus_distinct :
    NoDup [IDENTICAL_BLOCK; VALID_BLOCK; DOUBLE_FORGING; TIE_BREAK;
           DIFFERENT_CHAIN; DISCARD]
}.

(** ** Versions

    The version of a block, and of a block processor, is a number. The
    versions modelled are the safe integers ([Number.isSafeInteger]): the
    integers a number holds exactly, each of which has its decimal digits as
    property key. *)
Definition MAX_SAFE_INTEGER : Z := 9007199254740991.

Definition isSafeInteger (v : Z) : bool :=
  (- MAX_SAFE_INTEGER <=? v) && (v <=? MAX_SAFE_INTEGER).

Definition Version : Type := { v : Z | Is_true (isSafeInteger v) }.

Record BlockInstance : Type := {
  id : string;
  height : Z;
  version : Version;
  previousBlockId : string;
  generatorPublicKey : string;
  payloadHash : string
}.

#[global] Instance BlockInstance_eq_dec : EqDecision BlockInstance.
Proof. solve_decision. Defined.

Inductive Error : Type :=
| UnknownForkStatus            (* 'Unknown fork status' *)
| VersionNotRegistered         (* 'Block processing version is not registered' *)
| NoMatchingProcessor          (* 'No matching block processor found' *)
| GenesisNotPersisted          (* 'Genesis block is not persisted but skipping to save' *)
| PipelineError (msg : string) (* thrown by a pipeline of a block processor *)
| ChainError (msg : string).   (* thrown by the chain module *)

(** The calls [process] and its helpers make on their collaborators, in the
    order they are made. *)
Inductive Call : Type :=
| CNewStateStore (offset : nat)
| CForkStatus (block lastBlock : BlockInstance)
| CSerialize (block : BlockInstance)
| CValidate (block lastBlock : BlockInstance)
| CVerify (block lastBlock : BlockInstance)
| CApply (block lastBlock : BlockInstance)
| CUndo (block : BlockInstance)
| CApplyGenesis (block : BlockInstance)
| CExists (block : BlockInstance)
| CSave (block : BlockInstance) (saveOnlyState removeFromTempTable : bool)
| CRemove (block : BlockInstance) (saveTempBlock : bool).

Section Model.

Context `{ForkStatusEnum}.

(** [S] is the committed state of the modules, [BlockJSON] the serialized
    form of a block. *)
Variables (S BlockJSON : Type).

Definition forkStatusList : list Z :=
  [IDENTICAL_BLOCK; VALID_BLOCK; DOUBLE_FORGING; TIE_BREAK; DIFFERENT_CHAIN; DISCARD].

(** ** The chain module *)

(** Modelled from the spec: the [Chain] class of the chain package is not
    among the sources. The chain has exactly one tip ([lastBlock]), the
    blocks it stores, and the committed state of the modules. *)
Record Chain : Type := {
  lastBlock : BlockInstance;
  persisted : list BlockInstance;       (* stored blocks, newest first *)
  committed : S
}.

(** Modelled from the spec: a state store is an overlay opened over the
    committed state; [baseline] is the part of the chain it is positioned
    on. *)
Record StateStore : Type := {
  view : S;
  baseline : list BlockInstance
}.

Record Notification : Type := {
  n_event : string;
  n_block : BlockJSON;
  n_peerId : option string
}.

Record World : Type := {
  chain : Chain;
  published : list Notification;        (* [channel.publish], oldest first *)
  calls : list Call                     (* oldest first *)
}.

Abbreviation PM := (M Error World).

Definition record (c : Call) : PM unit :=
  modify (fun w => {| chain := chain w; published := published w;
                      calls := calls w ++ [c] |}).

Definition setChain (c : Chain) : PM unit :=
  modify (fun w => {| chain := c; published := published w; calls := calls w |}).

(** [channel.publish(name, { block, peerId })] *)
Definition publish (name : string) (block : BlockJSON) (peerId : option string)
  : PM unit :=
  modify (fun w =>
    {| chain := chain w;
       published := published w ++
         [{| n_event := name; n_block := block; n_peerId := peerId |}];
       calls := calls w |}).

(** [chainModule.lastBlock] *)
Definition chain_lastBlock : PM BlockInstance := gets (fun w => lastBlock (chain w)).

(** Modelled from the spec: [chainModule.newStateStore(offset)] opens an
    overlay over the committed state, positioned [offset] blocks below the
    tip. *)
Definition chain_newStateStore (offset : nat) : PM StateStore :=
  let* _ := record (CNewStateStore offset) in
  gets (fun w => {| view := committed (chain w);
                    baseline := drop offset (persisted (chain w)) |}).

(** Modelled from the spec: [chainModule.exists(block)] tells whether the
    block is persisted. *)
Definition chain_exists (block : BlockInstance) : PM bool :=
  let* _ := record (CExists block) in
  gets (fun w => bool_decide (id block ∈ id <$> persisted (chain w))).

(** Modelled from the spec: [chainModule.save(block, stateStore, options)]
    commits the overlay and advances the tip to the block; the block itself
    is stored unless only the state is to be saved. *)
Definition chain_save (block : BlockInstance) (stateStore : StateStore)
  (saveOnlyState removeFromTempTable : bool) : PM unit :=
  let* _ := record (CSave block saveOnlyState removeFromTempTable) in
  let* c := gets chain in
  setChain {| lastBlock := block;
              persisted := if saveOnlyState then persisted c
                           else block :: persisted c;
              committed := view stateStore |}.

(** Modelled from the spec: [chainModule.remove(block, stateStore, options)]
    commits the overlay of the undo, deletes the block and moves the tip to
    the block the removed one was built on; it fails when that block is not
    stored. *)
Definition chain_remove (block : BlockInstance) (stateStore : StateStore)
  (saveTempBlock : bool) : PM unit :=
  let* _ := record (CRemove block saveTempBlock) in
  let* c := gets chain in
  match List.find (fun b => String.eqb (id b) (previousBlockId block)) (persisted c) with
  | None => throw (ChainError "PreviousBlock is null")
  | Some secondLastBlock =>
      setChain {| lastBlock := secondLastBlock;
                  persisted :=
                    List.filter (fun b => negb (String.eqb (id b) (id block)))
                                (persisted c);
                  committed := view stateStore |}
  end.

(** ** Block processors ([BaseBlockProcessor]) and their pipelines

    Each pipeline is run on the arguments [process] hands it; a pipeline that
    receives the state store returns the store with what it staged. *)

Record BaseBlockProcessor : Type := {
  bp_version : Version;
  forkStatus_run : BlockInstance -> BlockInstance -> Result Error Z;
  validate_run : BlockInstance -> BlockInstance -> StateStore -> Result Error unit;
  verify_run : BlockInstance -> BlockInstance -> option bool -> StateStore ->
               Result Error StateStore;
  apply_run : BlockInstance -> BlockInstance -> option bool -> StateStore ->
              Result Error StateStore;
  undo_run : BlockInstance -> StateStore -> Result Error StateStore;
  applyGenesis_run : BlockInstance -> StateStore -> Result Error StateStore;
  serialize_run : BlockInstance -> Result Error BlockJSON
}.

Definition Matcher : Type := BlockInstance -> bool.

(** The [processors] and [matchers] objects: [register] writes both under the
    same key, so one map holds the pair. A version is a number by its type,
    so the check of [register] on it never fails. *)
Record Processor : Type := {
  registry : gmap Version (BaseBlockProcessor * Matcher)
}.

Definition register (this : Processor) (processor : BaseBlockProcessor)
  (matcher : option Matcher) : Processor :=
  {| registry :=
       <[bp_version processor :=
           (processor, match matcher with Some m => m | None => fun _ => true end)]>
         (registry this) |}.

(** The property key of a version, as [Object.keys] yields it: the decimal
    digits of the integer, after a minus sign when it is negative. *)
Definition versionKey (v : Version) : string :=
  DecimalString.NilZero.string_of_int (Z.to_int (`v)).

Fixpoint insertKey (x : Version) (l : list Version) : list Version :=
  match l with
  | [] => [x]
  | y :: l' =>
      match String.compare (versionKey x) (versionKey y) with
      | Gt => y :: insertKey x l'
      | _ => x :: l
      end
  end.

(** [Object.keys(this.matchers).sort((a, b) => a.localeCompare(b, 'en'))] *)
Definition matcherVersions (this : Processor) : list Version :=
  foldr insertKey [] (fst <$> map_to_list (registry this)).

Definition _getBlockProcessor (this : Processor) (block : BlockInstance)
  : Result Error BaseBlockProcessor :=
  match registry this !! version block with
  | None => Throw VersionNotRegistered
  | Some _ =>
      match List.find
              (fun v => match registry this !! v with
                        | Some (_, matcher) => matcher block
                        | None => false
                        end)
              (matcherVersions this) with
      | Some v =>
          match registry this !! v with
          | Some (processor, _) => Ok processor
          | None => Throw NoMatchingProcessor
          end
      | None => Throw NoMatchingProcessor
      end
  end.

Section Methods.

Variable this : Processor.

Definition serialize (blockInstance : BlockInstance) : PM BlockJSON :=
  let* blockProcessor := lift (_getBlockProcessor this blockInstance) in
  let* _ := record (CSerialize blockInstance) in
  lift (serialize_run blockProcessor blockInstance).

Definition _processValidated (block lastBlock : BlockInstance)
  (processor : BaseBlockProcessor)
  (saveOnlyState skipBroadcast : option bool) (removeFromTempTable : bool)
  : PM BlockInstance :=
  let* stateStore := chain_newStateStore 0 in
  let* _ := record (CVerify block lastBlock) in
  let* stateStore := lift (verify_run processor block lastBlock saveOnlyState stateStore) in
  let* blockJSON := serialize block in
  let* _ := (if negb (default false skipBroadcast)
             then publish "app:block:broadcast" blockJSON None
             else ret tt) in
  let* _ := record (CApply block lastBlock) in
  let* stateStore := lift (apply_run processor block lastBlock saveOnlyState stateStore) in
  let* _ := chain_save block stateStore (default false saveOnlyState) removeFromTempTable in
  ret block.

Definition _processGenesis (block : BlockInstance) (processor : BaseBlockProcessor)
  (saveOnlyState : bool) : PM BlockInstance :=
  let* stateStore := chain_newStateStore 0 in
  let* isPersisted := chain_exists block in
  if saveOnlyState && negb isPersisted then throw GenesisNotPersisted
  else if isPersisted && negb saveOnlyState then ret block
  else
    let* _ := record (CApplyGenesis block) in
    let* stateStore := lift (applyGenesis_run processor block stateStore) in
    let* _ := chain_save block stateStore saveOnlyState false in
    ret block.

Definition _deleteBlock (block : BlockInstance) (processor : BaseBlockProcessor)
  (saveTempBlock : bool) : PM unit :=
  let* stateStore := chain_newStateStore 1 in
  let* _ := record (CUndo block) in
  let* stateStore := lift (undo_run processor block stateStore) in
  chain_remove block stateStore saveTempBlock.

(** [process(block, { peerId })]; the sequence runs one job at a time, so the
    job is the computation itself. *)
Definition process (block : BlockInstance) (peerId : option string) : PM unit :=
  let* blockProcessor := lift (_getBlockProcessor this block) in
  let* lastBlock := chain_lastBlock in
  let* stateStore := chain_newStateStore 0 in
  let* _ := record (CForkStatus block lastBlock) in
  let* forkStatus := lift (forkStatus_run blockProcessor block lastBlock) in
  if negb (bool_decide (forkStatus ∈ forkStatusList)) then throw UnknownForkStatus
  else if forkStatus =? DISCARD then
    let* blockJSON := serialize block in
    publish "app:chain:fork" blockJSON None
  else if forkStatus =? IDENTICAL_BLOCK then ret tt
  else if forkStatus =? DOUBLE_FORGING then
    let* blockJSON := serialize block in
    publish "app:chain:fork" blockJSON None
  else if forkStatus =? DIFFERENT_CHAIN then
    let* blockJSON := serialize block in
    let* _ := publish "app:chain:sync" blockJSON peerId in
    publish "app:chain:fork" blockJSON None
  else if forkStatus =? TIE_BREAK then
    let* blockJSON := serialize block in
    let* _ := publish "app:chain:fork" blockJSON None in
    let* _ := record (CValidate block lastBlock) in
    let* _ := lift (validate_run blockProcessor block lastBlock stateStore) in
    let previousLastBlock := lastBlock in
    let* _ := _deleteBlock lastBlock blockProcessor false in
    let* newLastBlock := chain_lastBlock in
    let* _ :=
      tryCatch
        (_processValidated block newLastBlock blockProcessor None None false)
        (fun err =>
           _processValidated previousLastBlock newLastBlock blockProcessor
             None (Some true) false) in
    ret tt
  else
    let* _ := record (CValidate block lastBlock) in
    let* _ := lift (validate_run blockProcessor block lastBlock stateStore) in
    let* _ := _processValidated block lastBlock blockProcessor None None false in
    ret tt.

Definition processValidated (block : BlockInstance) (removeFromTempTable : bool)
  : PM BlockInstance :=
  let* lastBlock := chain_lastBlock in
  let* blockProcessor := lift (_getBlockProcessor this block) in
  _processValidated block lastBlock blockProcessor None (Some true) removeFromTempTable.

Definition apply (block : BlockInstance) : PM BlockInstance :=
  let* lastBlock := chain_lastBlock in
  let* blockProcessor := lift (_getBlockProcessor this block) in
  _processValidated block lastBlock blockProcessor (Some true) (Some true) false.

Definition deleteLastBlock (saveTempBlock : bool) : PM BlockInstance :=
  let* lastBlock := chain_lastBlock in
  let* blockProcessor := lift (_getBlockProcessor this lastBlock) in
  let* _ := _deleteBlock lastBlock blockProcessor saveTempBlock in
  chain_lastBlock.

Definition applyGenesisBlock (block : BlockInstance) : PM BlockInstance :=
  let* blockProcessor := lift (_getBlockProcessor this block) in
  _processGenesis block blockProcessor true.

End Methods.

End Model.

Arguments lastBlock {S} c.
Arguments persisted {S} c.
Arguments committed {S} c.
Arguments Build_Chain {S} lastBlock persisted committed.
Arguments view {S} s.
Arguments baseline {S} s.
Arguments Build_StateStore {S} view baseline.
Arguments n_event {BlockJSON} n.
Arguments n_block {BlockJSON} n.
Arguments n_peerId {BlockJSON} n.
Arguments Build_Notification {BlockJSON} n_event n_block n_peerId.
Arguments chain {S BlockJSON} w.
Arguments published {S BlockJSON} w.
Arguments calls {S BlockJSON} w.
Arguments Build_World {S BlockJSON} chain published calls.
Arguments bp_version {S BlockJSON} b.
Arguments forkStatus_run {S BlockJSON} b block lastBlock.
Arguments validate_run {S BlockJSON} b block lastBlock stateStore.
Arguments verify_run {S BlockJSON} b block lastBlock skipExistingCheck stateStore.
Arguments apply_run {S BlockJSON} b block lastBlock skipExistingCheck stateStore.
Arguments undo_run {S BlockJSON} b block stateStore.
Arguments applyGenesis_run {S BlockJSON} b block stateStore.
Arguments serialize_run {S BlockJSON} b block.
Arguments Build_BaseBlockProcessor {S BlockJSON}.
Arguments registry {S BlockJSON} p.
Arguments Build_Processor {S BlockJSON} registry.
Arguments record {S BlockJSON} c.
Arguments setChain {S BlockJSON} c.
Arguments publish {S BlockJSON} name block peerId.
Arguments chain_lastBlock {S BlockJSON}.
Arguments chain_newStateStore {S BlockJSON} offset.
Arguments chain_exists {S BlockJSON} block.
Arguments chain_save {S BlockJSON} block stateStore saveOnlyState removeFromTempTable.
Arguments chain_remove {S BlockJSON} block stateStore saveTempBlock.
Arguments register {S BlockJSON} this processor matcher.
Arguments matcherVersions {S BlockJSON} this.
Arguments _getBlockProcessor {S BlockJSON} this block.
Arguments serialize {S BlockJSON} this blockInstance.
Arguments _processValidated {S BlockJSON} this block lastBlock processor
  saveOnlyState skipBroadcast removeFromTempTable.
Arguments _processGenesis {S BlockJSON} block processor saveOnlyState.
Arguments _deleteBlock {S BlockJSON} block processor saveTempBlock.
Arguments process {_ S BlockJSON} this block peerId.
Arguments processValidated {S BlockJSON} this block removeFromTempTable.
Arguments apply {S BlockJSON} this block.
Arguments deleteLastBlock {S BlockJSON} this saveTempBlock.
Arguments applyGenesisBlock {S BlockJSON} this block.

(** ** Notions used to state the properties *)

Section Helpers.
Context {S BlockJSON : Type}.

Definition withCalls (w : World S BlockJSON) (l : list Call) : World S BlockJSON :=
  {| chain := chain w; published := published w; calls := calls w ++ l |}.

Definition withPublished (w : World S BlockJSON) (l : list (Notification BlockJSON))
  : World S BlockJSON :=
  {| chain := chain w; published := published w ++ l; calls := calls w |}.

Definition forkNotification (json : BlockJSON) : Notification BlockJSON :=
  {| n_event := "app:chain:fork"; n_block := json; n_peerId := None |}.

Definition syncNotification (json : BlockJSON) (peerId : option string)
  : Notification BlockJSON :=
  {| n_event := "app:chain:sync"; n_block := json; n_peerId := peerId |}.

Definition broadcastNotification (json : BlockJSON) : Notification BlockJSON :=
  {| n_event := "app:block:broadcast"; n_block := json; n_peerId := None |}.

(** The state store [newStateStore(offset)] opens on a chain. *)
Definition storeAt (offset : nat) (c : Chain S) : StateStore S :=
  {| view := committed c; baseline := drop offset (persisted c) |}.

(** The chain after [save] of a block with the staged store. *)
Definition saved (block : BlockInstance) (st : StateStore S) (saveOnlyState : bool)
  (c : Chain S) : Chain S :=
  {| lastBlock := block;
     persisted := if saveOnlyState then persisted c else block :: persisted c;
     committed := view st |}.

(** The chain after [remove] of a block whose parent is [parent]. *)
Definition removed (block parent : BlockInstance) (st : StateStore S) (c : Chain S)
  : Chain S :=
  {| lastBlock := parent;
     persisted := List.filter (fun b => negb (String.eqb (id b) (id block))) (persisted c);
     committed := view st |}.

End Helpers.

Definition outcome {A} (r : Result Error A) : Result Error unit :=
  match r with Ok _ => Ok tt | Throw e => Throw e end.

(** The calls that validate, apply, revert or persist a block. *)
Definition touchesChain (c : Call) : bool :=
  match c with
  | CValidate _ _ | CVerify _ _ | CApply _ _ | CUndo _ | CApplyGenesis _
  | CSave _ _ _ | CRemove _ _ => true
  | _ => false
  end.

(** ** A scenario: a genesis block, a tip, a competing block of the same
    height and a block extending the tip *)

Definition version2 : Version := 2 ↾ I.

Definition mkBlock (i : string) (h : Z) (prev gen : string) : BlockInstance :=
  {| id := i; height := h; version := version2; previousBlockId := prev;
     generatorPublicKey := gen; payloadHash := "" |}.

Definition genesisBlock : BlockInstance := mkBlock "G" 0 "" "".
Definition tipBlock : BlockInstance := mkBlock "T" 1 "G" "gen1".
Definition candidate : BlockInstance := mkBlock "C" 1 "G" "gen2".
Definition nextBlock : BlockInstance := mkBlock "N" 2 "T" "gen2".

(** A block processor that classifies every block as [status], stages the
    identifier of the block it applies, and rejects the blocks listed. *)
Definition demoProcessor (status : Z) (rejected : list string)
  : BaseBlockProcessor (list string) string :=
  {| bp_version := version2;
     forkStatus_run := fun _ _ => Ok status;
     validate_run := fun _ _ _ => Ok tt;
     verify_run := fun _ _ _ st => Ok st;
     apply_run := fun b _ _ st =>
       if bool_decide (id b ∈ rejected) then Throw (PipelineError "apply")
       else Ok {| view := id b :: view st; baseline := baseline st |};
     undo_run := fun _ st => Ok {| view := tail (view st); baseline := baseline st |};
     applyGenesis_run := fun b st => Ok {| view := [id b]; baseline := baseline st |};
     serialize_run := fun b => Ok (id b) |}.

Definition demo (status : Z) (rejected : list string) : Processor (list string) string :=
  register {| registry := ∅ |} (demoProcessor status rejected) None.

(** As [demoProcessor], with a validation that rejects the blocks listed. *)
Definition validatingProcessor (status : Z) (invalid : list string)
  : BaseBlockProcessor (list string) string :=
  {| bp_version := version2;
     forkStatus_run := fun _ _ => Ok status;
     validate_run := fun b _ _ =>
       if bool_decide (id b ∈ invalid) then Throw (PipelineError "validate")
       else Ok tt;
     verify_run := fun _ _ _ st => Ok st;
     apply_run := fun b _ _ st =>
       Ok {| view := id b :: view st; baseline := baseline st |};
     undo_run := fun _ st => Ok {| view := tail (view st); baseline := baseline st |};
     applyGenesis_run := fun b st => Ok {| view := [id b]; baseline := baseline st |};
     serialize_run := fun b => Ok (id b) |}.

Definition demoValidating (status : Z) (invalid : list string)
  : Processor (list string) string :=
  register {| registry := ∅ |} (validatingProcessor status invalid) None.

Definition world0 : World (list string) string :=
  {| chain := {| lastBlock := tipBlock; persisted := [tipBlock; genesisBlock];
                 committed := ["T"; "G"]%string |};
     published := []; calls := [] |}.

Definition emptyWorld : World (list string) string :=
  {| chain := {| lastBlock := genesisBlock; persisted := []; committed := [] |};
     published := []; calls := [] |}.

(** The members of the enum numbered from one in the order of declaration. *)
Definition bftForkStatus : ForkStatusEnum :=
  {| IDENTICAL_BLOCK := 1; VALID_BLOCK := 2; DOUBLE_FORGING := 3;
     TIE_BREAK := 4; DIFFERENT_CHAIN := 5; DISCARD := 6;
     ForkStatus_distinct := bool_decide_unpack (NoDup [1; 2; 3; 4; 5; 6]) I |}.

End Processor.

(* ================================================================== *)
(** * Interoperability: chain termination *)
(* ================================================================== *)

Module Interop.

Inductive ChainStatus : Type := REGISTERED | ACTIVE | TERMINATED.

#[global] Instance ChainStatus_eq_dec : EqDecision ChainStatus.
Proof. solve_decision. Defined.

Record LastCertificate : Type := {
  lc_height : Z;
  lc_stateRoot : Buffer;
  lc_timestamp : Z;
  lc_validatorsHash : Buffer
}.

Record ChainAccount : Type := {
  ca_name : string;
  lastCertificate : LastCertificate;
  status : ChainStatus
}.

Record TerminatedStateAccount : Type := {
  ts_stateRoot : Buffer;
  ts_initialized : bool
}.

Record ChannelData : Type := {
  ch_inboxRoot : Buffer;
  ch_outboxRoot : Buffer
}.

(** The calls made on the internal method object, oldest first. *)
Inductive InternalCall : Type :=
| CreateTerminatedStateAccount (chainID stateRoot : Buffer)
| TerminateChainInternal (chainID : Buffer).

Record Stores : Type := {
  chainAccounts : gmap Buffer ChainAccount;        (* [ChainAccountStore] *)
  terminatedStates : gmap Buffer TerminatedStateAccount; (* [TerminatedStateStore] *)
  channels : gmap Buffer ChannelData;              (* [ChannelDataStore] *)
  internalCalls : list InternalCall
}.

Inductive Error : Type :=
| NotFoundError
| MissingCCM        (* 'CCM to execute sidechain terminated cross chain command is missing.' *)
| DecodeError       (* thrown by [codec.decode] *)
| ChainAccountDoesNotExist     (* 'Chain account does not exist' *)
| SidechainAlreadyTerminated   (* 'Sidechain is already terminated' *)
| LivenessNotViolated.         (* 'Sidechain did not violate the liveness condition' *)

#[global] Instance Error_eq_dec : EqDecision Error.
Proof. solve_decision. Defined.

Abbreviation IM := (M Error Stores).

Record CCMsg : Type := {
  ccm_module : string;
  ccm_crossChainCommand : string;
  ccm_nonce : Z;
  ccm_fee : Z;
  ccm_status : Z;
  sendingChainID : Buffer;
  receivingChainID : Buffer;
  params : Buffer
}.

Record CCCommandExecuteContext : Type := {
  ccm : option CCMsg;
  ctx_chainID : Buffer;
  ctx_feeAddress : Buffer
}.

Record CCMSidechainTerminatedParams : Type := {
  p_chainID : Buffer;
  p_stateRoot : Buffer
}.

(** ** The keyed store contract *)

(** Modelled from the spec: the store classes are not among the sources.
    [get(key)] yields the value or fails with [NotFoundError], which the
    caller must handle (the sources catch it around [get] and
    [getWithSchema]). *)
Definition store_get {V} (sel : Stores -> gmap Buffer V) (key : Buffer) : IM V :=
  fun s =>
    match sel s !! key with
    | Some v => (Ok v, s)
    | None => (Throw NotFoundError, s)
    end.

(** Modelled from the spec: [has(key)] yields a boolean. *)
Definition store_has {V} (sel : Stores -> gmap Buffer V) (key : Buffer) : IM bool :=
  gets (fun s => bool_decide (is_Some (sel s !! key))).

(** The truth value of an object in a condition: every object is truthy. *)
Definition truthy {A} (_ : A) : bool := true.

Definition recordCall (c : InternalCall) : IM unit :=
  modify (fun s =>
    {| chainAccounts := chainAccounts s; terminatedStates := terminatedStates s;
       channels := channels s; internalCalls := internalCalls s ++ [c] |}).

(** ** The internal method object *)

(** Modelled from the spec: the internal methods are not among the sources.
    [createTerminatedStateAccount] creates the terminated-state account of
    the chain, recording the given state root. *)
Definition createTerminatedStateAccount (chainID stateRoot : Buffer) : IM unit :=
  let* _ := recordCall (CreateTerminatedStateAccount chainID stateRoot) in
  modify (fun s =>
    {| chainAccounts := chainAccounts s;
       terminatedStates :=
         <[chainID := {| ts_stateRoot := stateRoot; ts_initialized := true |}]>
           (terminatedStates s);
       channels := channels s; internalCalls := internalCalls s |}).

Definition terminate (a : ChainAccount) : ChainAccount :=
  {| ca_name := ca_name a; lastCertificate := lastCertificate a;
     status := TERMINATED |}.

(** Modelled from the spec: the internal methods are not among the sources.
    [terminateChainInternal] marks the chain account [TERMINATED] and severs
    its channel. *)
Definition terminateChainInternal (chainID : Buffer) : IM unit :=
  let* _ := recordCall (TerminateChainInternal chainID) in
  modify (fun s =>
    {| chainAccounts := alter terminate chainID (chainAccounts s);
       terminatedStates := terminatedStates s;
       channels := delete chainID (channels s);
       internalCalls := internalCalls s |}).

(** ** [SidechainCCSidechainTerminatedCommand] *)

Section SidechainTerminated.

(** [getIDAsKeyForStore(MAINCHAIN_ID)] and the decoder of
    [sidechainTerminatedCCMParamsSchema], both outside the sources. *)
Variable mainchainKey : Buffer.
Variable decode : Buffer -> Result Error CCMSidechainTerminatedParams.

Definition execute (context : CCCommandExecuteContext) : IM unit :=
  match ccm context with
  | None => throw MissingCCM
  | Some ccm =>
      let* ccmSidechainTerminatedParams := lift (decode (params ccm)) in
      if Buffer_equals (sendingChainID ccm) mainchainKey then
        let* isTerminated :=
          store_get terminatedStates (p_chainID ccmSidechainTerminatedParams) in
        if truthy isTerminated then ret tt
        else
          createTerminatedStateAccount
            (p_chainID ccmSidechainTerminatedParams)
            (p_stateRoot ccmSidechainTerminatedParams)
      else terminateChainInternal (sendingChainID ccm)
  end.

End SidechainTerminated.

(** ** [TerminateSidechainForLivenessCommand] *)

Inductive VerifyStatus : Type := VerifyOK | VerifyFAIL.

Record VerificationResult : Type := { vr_status : VerifyStatus }.

Record CommandContext : Type := {
  cmd_chainID : Buffer;         (* [params.chainID] *)
  cmd_timestamp : Z             (* [header.timestamp] *)
}.

Section Liveness.

(** The liveness threshold is a configuration input. *)
Variable LIVENESS_LIMIT : Z.

(** Modelled from the spec: the internal method [isLive] is not among the
    sources. A chain is live while its last certificate is within the
    liveness threshold, and eligible for termination once the certificate is
    older than that. *)
Definition isLive (chainID : Buffer) (timestamp : Z) : IM bool :=
  let* account := store_get chainAccounts chainID in
  ret (timestamp - lc_timestamp (lastCertificate account) <=? LIVENESS_LIMIT).

(** Modelled from the spec: the command is not among the sources, only its
    unit tests are. [verify] rejects when the chain account does not exist,
    when it is already [TERMINATED], and when the chain is still live, in that
    order (the order the tests fix), and returns OK otherwise. *)
Definition verify (context : CommandContext) : IM VerificationResult :=
  let* exists_ := store_has chainAccounts (cmd_chainID context) in
  if negb exists_ then throw ChainAccountDoesNotExist
  else
    let* account := store_get chainAccounts (cmd_chainID context) in
    if bool_decide (status account = TERMINATED) then throw SidechainAlreadyTerminated
    else
      let* live := isLive (cmd_chainID context) (cmd_timestamp context) in
      if live then throw LivenessNotViolated
      else ret {| vr_status := VerifyOK |}.

(** Modelled from the spec: [execute] calls the internal terminate-chain
    routine for the chain of the parameters, whatever the state. *)
Definition executeLiveness (context : CommandContext) : IM unit :=
  terminateChainInternal (cmd_chainID context).

End Liveness.

(** ** A scenario: a terminated-sidechain message for chain 3, and a chain
    account certified at a given time *)

Definition mainKey : Buffer := [Byte.x00; Byte.x00; Byte.x00; Byte.x01].
Definition sidechain3 : Buffer := [Byte.x00; Byte.x00; Byte.x00; Byte.x03].
Definition finalRoot : Buffer := repeat Byte.xaa 32.

Definition demoDecode (b : Buffer) : Result Error CCMSidechainTerminatedParams :=
  if Nat.eqb (length b) 36
  then Ok {| p_chainID := take 4 b; p_stateRoot := drop 4 b |}
  else Throw DecodeError.

Definition ccmFrom (sender : Buffer) : CCMsg :=
  {| ccm_module := "interoperability"; ccm_crossChainCommand := "sidechainTerminated";
     ccm_nonce := 0; ccm_fee := 0; ccm_status := 0;
     sendingChainID := sender; receivingChainID := [Byte.x00; Byte.x00; Byte.x00; Byte.x02];
     params := sidechain3 ++ finalRoot |}.

Definition contextFrom (sender : Buffer) : CCCommandExecuteContext :=
  {| ccm := Some (ccmFrom sender); ctx_chainID := [Byte.x00; Byte.x00; Byte.x00; Byte.x02];
     ctx_feeAddress := repeat Byte.x00 20 |}.

Definition noStores : Stores :=
  {| chainAccounts := ∅; terminatedStates := ∅; channels := ∅; internalCalls := [] |}.

Definition staleAccount (st : ChainStatus) (certified : Z) : ChainAccount :=
  {| ca_name := "staleSidechain";
     lastCertificate := {| lc_height := 10; lc_stateRoot := finalRoot;
                           lc_timestamp := certified; lc_validatorsHash := finalRoot |};
     status := st |}.

Definition storesWith (a : ChainAccount) : Stores :=
  {| chainAccounts := {[ sidechain3 := a ]}; terminatedStates := ∅;
     channels := {[ sidechain3 := {| ch_inboxRoot := []; ch_outboxRoot := [] |} ]};
     internalCalls := [] |}.

End Interop.

(* ================================================================== *)
(** * Certificate generation utilities *)
(* ================================================================== *)

Module CertificateUtils.

Record Certificate : Type := {
  blockID : Buffer;
  cert_height : Z;
  cert_timestamp : Z;
  stateRoot : Buffer;
  validatorsHash : Buffer;
  aggregationBits : option Buffer;
  signature : option Buffer
}.

Definition verifySingleCertificateSignature
  (_pk _signature _networkIdentifier : Buffer) (_certificate : Certificate) : bool :=
  true.

End CertificateUtils.

(* ================================================================== *)
(** * Token module: readings of the user store *)
(* ================================================================== *)

Module TokenNotions.

Import Token.

(** The record the user store holds for an address and a canonical token,
    as [getWithSchema] reads it. *)
Definition account (s : Stores) (address canonicalTokenID : Buffer)
  : option UserStoreData :=
  userStore s !! getUserStoreKey address canonicalTokenID ≫= decode.

(** [lockedBalances.find(lb => lb.moduleID === moduleID)?.amount ?? BigInt(0)],
    the expression [getLockedAmount] evaluates on a user record. *)
Definition lockedAmountOf (moduleID : Z) (l : list LockedBalance) : Z :=
  match List.find (fun lb => lb_moduleID lb =? moduleID) l with
  | Some lb => lb_amount lb
  | None => 0
  end.

(** The module identifiers of a list of locked balances increase strictly:
    the list is in the order [lock] sorts it into and holds one entry per
    module. *)
Definition sortedByModule (l : list LockedBalance) : Prop :=
  StronglySorted (fun a b => lb_moduleID a < lb_moduleID b) l.

(** The methods that only read. *)
Definition readOnly (op : Op) : bool :=
  match op with
  | OpGetAvailableBalance _ _ | OpGetLockedAmount _ _ _ | OpGetEscrowedAmount _ _
  | OpAccountExists _ | OpGetNextAvailableLocalID | OpIsNative _
  | OpGetCanonicalTokenID _ => true
  | _ => false
  end.

(** The methods that check everything before they write. *)
Definition checksBeforeWriting (op : Op) : bool :=
  match op with
  | OpMint _ _ _ | OpLock _ _ _ _ | OpUnlock _ _ _ _ => true
  | _ => readOnly op
  end.

(** ** A scenario: an account with 100 available and 40 locked by module 5,
    and an initialised token *)

Definition st2 : Stores :=
  {| userStore :=
       {[ getUserStoreKey alice T_native :=
            encode {| availableBalance := 100;
                      lockedBalances := [ {| lb_moduleID := 5; lb_amount := 40 |} ] |} ]};
     supplyStore := {[ localOne := encode {| totalSupply := 1000 |} ]};
     escrowStore := ∅;
     availableLocalIDStore :=
       {[ EMPTY_BYTES := encode {| nextAvailableLocalID := localOne |} ]} |}.

End TokenNotions.

(* ================================================================== *)
(** * Block processor: registered versions *)
(* ================================================================== *)

Module ProcessorNotions.

Import Processor.

(** The order of the keys of [matchers] after the sort of
    [_getBlockProcessor]: the order of their decimal strings. *)
Definition keyLeq (v1 v2 : Version) : Prop :=
  String.compare (versionKey v1) (versionKey v2) ≠ Gt.

(** A call that saves a block together with its state. *)
Definition savesBlock (c : Call) : bool :=
  match c with
  | CSave _ saveOnlyState _ => negb saveOnlyState
  | _ => false
  end.

(** ** A scenario: processors registered for versions 2 and 10, both with
    the default matcher *)

Definition versionProcessor (v : Version) : BaseBlockProcessor (list string) string :=
  {| bp_version := v;
     forkStatus_run := fun _ _ => Ok 2;
     validate_run := fun _ _ _ => Ok tt;
     verify_run := fun _ _ _ st => Ok st;
     apply_run := fun b _ _ st => Ok st;
     undo_run := fun _ st => Ok st;
     applyGenesis_run := fun b st => Ok st;
     serialize_run := fun b => Ok (id b) |}.

Definition version10 : Version := 10 ↾ I.

Definition twoVersions : Processor (list string) string :=
  register (register {| registry := ∅ |} (versionProcessor version2) None)
    (versionProcessor version10) None.

(** A processor whose [undo] pipeline throws. *)
Definition noUndoProcessor : BaseBlockProcessor (list string) string :=
  {| bp_version := version2;
     forkStatus_run := fun _ _ => Ok 2;
     validate_run := fun _ _ _ => Ok tt;
     verify_run := fun _ _ _ st => Ok st;
     apply_run := fun b _ _ st => Ok st;
     undo_run := fun _ _ => Throw (PipelineError "undo");
     applyGenesis_run := fun b st => Ok st;
     serialize_run := fun b => Ok (id b) |}.

Definition noUndo : Processor (list string) string :=
  register {| registry := ∅ |} noUndoProcessor None.

End ProcessorNotions.

(* ================================================================== *)
(** * Certificate generation: computing, signing, verifying *)
(* ================================================================== *)

Module CertificateGeneration.

Import CertificateUtils.

(** The fields of a [BlockHeader] that [computeCertificateFromBlockHeader]
    reads; the state root and the validators hash may be undefined. *)
Record BlockHeader : Type := {
  bh_id : Buffer;
  bh_height : Z;
  bh_timestamp : Z;
  bh_stateRoot : option Buffer;
  bh_validatorsHash : option Buffer
}.

Inductive Error : Type :=
| StateRootNotDefined         (* "'stateRoot' is not defined." *)
| ValidatorsHashNotDefined.   (* "'validatorsHash' is not defined." *)

(** A buffer is an object, hence truthy even when empty: the two tests fail
    on [undefined] only. *)
Definition computeCertificateFromBlockHeader (blockHeader : BlockHeader)
  : Result Error Certificate :=
  match bh_stateRoot blockHeader with
  | None => Throw StateRootNotDefined
  | Some headerStateRoot =>
      match bh_validatorsHash blockHeader with
      | None => Throw ValidatorsHashNotDefined
      | Some headerValidatorsHash =>
          Ok {| blockID := bh_id blockHeader;
                cert_height := bh_height blockHeader;
                stateRoot := headerStateRoot;
                cert_timestamp := bh_timestamp blockHeader;
                validatorsHash := headerValidatorsHash;
                aggregationBits := None;
                signature := None |}
      end
  end.

Section Signatures.

(** [MESSAGE_TAG_CERTIFICATE], [codec.encode(certificateSchema, _)] and the
    BLS functions of the cryptography package. *)
Variable MESSAGE_TAG_CERTIFICATE : string.
Variable encode : Certificate -> Buffer.
Variable signBLS : string -> Buffer -> Buffer -> Buffer -> Buffer.
Variable verifyWeightedAggSig :
  list Buffer -> Buffer -> Buffer -> string -> Buffer -> Buffer -> list Z -> Z -> bool.

Definition signCertificate (sk networkIdentifier : Buffer) (certificate : Certificate)
  : Buffer :=
  let certificateWithoutAggregationBits :=
    {| blockID := blockID certificate;
       cert_height := cert_height certificate;
       cert_timestamp := cert_timestamp certificate;
       stateRoot := stateRoot certificate;
       validatorsHash := validatorsHash certificate;
       aggregationBits := None;
       signature := signature certificate |} in
  signBLS MESSAGE_TAG_CERTIFICATE networkIdentifier
    (encode certificateWithoutAggregationBits) sk.

Definition verifyAggregateCertificateSignature (keysList : list Buffer)
  (weights : list Z) (threshold : Z) (networkIdentifier : Buffer)
  (certificate : Certificate) : bool :=
  match aggregationBits certificate, signature certificate with
  | Some certificateAggregationBits, Some certificateSignature =>
      let message :=
        encode {| blockID := blockID certificate;
                  cert_height := cert_height certificate;
                  cert_timestamp := cert_timestamp certificate;
                  stateRoot := stateRoot certificate;
                  validatorsHash := validatorsHash certificate;
                  aggregationBits := None;
                  signature := None |} in
      verifyWeightedAggSig keysList certificateAggregationBits certificateSignature
        MESSAGE_TAG_CERTIFICATE networkIdentifier message weights threshold
  | _, _ => false
  end.

End Signatures.

(** ** A scenario: a block header with both roots *)

Definition header10 : BlockHeader :=
  {| bh_id := repeat Byte.x11 32; bh_height := 10; bh_timestamp := 1000;
     bh_stateRoot := Some (repeat Byte.x22 32);
     bh_validatorsHash := Some (repeat Byte.x33 32) |}.

End CertificateGeneration.

(* ================================================================== *)
(** * DPoS module: utilities ([dpos_v2/utils.ts]) *)
(* ================================================================== *)

Module DposUtils.

(** [a.compare(b)]: -1, 0 or 1. *)
Definition Buffer_compareZ (a b : Buffer) : Z :=
  match Buffer_compare a b with Lt => -1 | Eq => 0 | Gt => 1 end.

(** [array.sort(compareFn)]: the sort is stable; an element moves in front of
    another one only when the comparator puts it strictly before. For a
    comparator that is a total preorder, as the ones below are, the result
    of a stable sort is determined, and it is the one of this insertion
    sort. *)
Fixpoint Array_insert {A} (compareFn : A -> A -> Z) (x : A) (l : list A) : list A :=
  match l with
  | [] => [x]
  | y :: l' =>
      if compareFn x y <=? 0 then x :: l else y :: Array_insert compareFn x l'
  end.

Definition Array_sort {A} (compareFn : A -> A -> Z) (l : list A) : list A :=
  foldr (Array_insert compareFn) [] l.

(** [buf.readBigUInt64BE()]: [None] stands for the RangeError raised when
    fewer than eight bytes are available. *)
Definition readBigUInt64BE (b : Buffer) : option Z :=
  if (length b <? 8)%nat then None
  else Some (foldl (fun acc x => acc * 256 + Z.of_N (Byte.to_N x)) 0 (take 8 b)).

(** [array.splice(start, 1)]: the elements removed and the array left. A
    negative [start] counts from the end; a [start] beyond the end removes
    nothing. *)
Definition splice1 {A} (start : Z) (l : list A) : list A * list A :=
  let len := Z.of_nat (length l) in
  let actualStart :=
    Z.to_nat (if start <? 0 then Z.max (len + start) 0 else Z.min start len) in
  (take 1 (drop actualStart l), take actualStart l ++ drop (S actualStart) l).

Inductive Error : Type :=
| OutOfRange        (* RangeError: attempt to read outside the buffer bounds *)
| DivisionByZero    (* RangeError: Division by zero *)
| TypeError.        (* property read on [undefined] *)

(** ** [sortUnlocking] *)

(** The fields of [UnlockingObject] that the utilities read. Heights are
    JavaScript numbers holding integers. *)
Record UnlockingObject : Type := {
  delegateAddress : Buffer;
  amount : Z;
  unvoteHeight : Z
}.

(** The comparator of [sortUnlocking]: by delegate address, then by
    decreasing unvote height, then by decreasing amount. *)
Definition compareUnlocking (a b : UnlockingObject) : Z :=
  if negb (Buffer_equals (delegateAddress a) (delegateAddress b))
  then Buffer_compareZ (delegateAddress a) (delegateAddress b)
  else if negb (unvoteHeight a =? unvoteHeight b)
  then unvoteHeight b - unvoteHeight a
  else
    let diff := amount b - amount a in
    if diff >? 0 then 1
    else if diff <? 0 then -1
    else 0.

(** [sortUnlocking] sorts the array in place; the result is the content of
    the array afterwards. *)
Definition sortUnlocking (unlocks : list UnlockingObject) : list UnlockingObject :=
  Array_sort compareUnlocking unlocks.

(** ** Standby delegates *)

Record DelegateWeight : Type := {
  dw_delegateAddress : Buffer;
  delegateWeight : Z
}.

(** The loop of [pickStandByDelegate], from index [i] on. *)
Fixpoint pickLoop (delegateWeights : list DelegateWeight) (i threshold : Z) : Z :=
  match delegateWeights with
  | [] => -1
  | d :: rest =>
      let voteWeight := delegateWeight d in
      if voteWeight >? threshold then i
      else pickLoop rest (i + 1) (threshold - voteWeight)
  end.

(** [delegateWeights.reduce((prev, current) => prev + current.delegateWeight, 0)] *)
Definition totalVoteWeight (delegateWeights : list DelegateWeight) : Z :=
  foldl (fun prev current => prev + delegateWeight current) 0 delegateWeights.

Definition pickStandByDelegate (delegateWeights : list DelegateWeight)
  (randomSeed : Buffer) : Result Error Z :=
  match readBigUInt64BE randomSeed with
  | None => Throw OutOfRange
  | Some seedNumber =>
      if totalVoteWeight delegateWeights =? 0 then Throw DivisionByZero
      else Ok (pickLoop delegateWeights 0
                 (Z.rem seedNumber (totalVoteWeight delegateWeights)))
  end.

(** [selectStandbyDelegates] removes the delegates it selects from the array
    it is given: the array is the state of the computation. *)
Definition takeAt (index : Z) : M Error (list DelegateWeight) DelegateWeight :=
  fun delegateWeights =>
    match splice1 index delegateWeights with
    | (selected :: _, rest) => (Ok selected, rest)
    | ([], rest) => (Throw TypeError, rest)
    end.

Definition pick (randomSeed : Buffer) : M Error (list DelegateWeight) Z :=
  fun delegateWeights =>
    (pickStandByDelegate delegateWeights randomSeed, delegateWeights).

Definition selectStandbyDelegates (randomSeed1 : Buffer) (randomSeed2 : option Buffer)
  : M Error (list DelegateWeight) (list Buffer) :=
  let numberOfCandidates :=
    (1 + match randomSeed2 with Some _ => 1 | None => 0 end)%nat in
  let* delegateWeights := gets (fun l => l) in
  if (length delegateWeights <=? numberOfCandidates)%nat
  then ret (dw_delegateAddress <$> delegateWeights)
  else
    let* index := pick randomSeed1 in
    let* selected := takeAt index in
    match randomSeed2 with
    | None => ret [dw_delegateAddress selected]
    | Some randomSeed2 =>
        let* secondIndex := pick randomSeed2 in
        let* secondStandby := takeAt secondIndex in
        ret [dw_delegateAddress selected; dw_delegateAddress secondStandby]
    end.

(** ** [shuffleDelegateList] *)

Section Shuffle.

(** [hash] of the cryptography package. *)
Variable hash : Buffer -> Buffer.

Record RoundDelegate : Type := {
  rd_address : Buffer;
  roundHash : Buffer
}.

Definition compareRoundDelegates (delegate1 delegate2 : RoundDelegate) : Z :=
  let diff := Buffer_compareZ (roundHash delegate1) (roundHash delegate2) in
  if negb (diff =? 0) then diff
  else Buffer_compareZ (rd_address delegate1) (rd_address delegate2).

Definition shuffleDelegateList (previousRoundSeed1 : Buffer) (addresses : list Buffer)
  : list Buffer :=
  let delegateList :=
    (fun delegate =>
       {| rd_address := delegate;
          roundHash := hash (previousRoundSeed1 ++ delegate) |}) <$> addresses in
  rd_address <$> Array_sort compareRoundDelegates delegateList.

End Shuffle.

(** ** [validtorsEqual] *)

Section Validators.

(** A [Validator] of the consensus types, through the two fields the
    comparison reads. *)
Variable Validator : Type.
Variable address : Validator -> Buffer.
Variable bftWeight : Validator -> Z.

(** The loop over the indices of [v1], both arrays having the same
    length. *)
Fixpoint validtorsEqual_loop (v1 v2 : list Validator) : bool :=
  match v1, v2 with
  | x :: v1', y :: v2' =>
      if negb (Buffer_equals (address x) (address y)) then false
      else if negb (bftWeight x =? bftWeight y) then false
      else validtorsEqual_loop v1' v2'
  | _, _ => true
  end.

Definition validtorsEqual (v1 v2 : list Validator) : bool :=
  if negb (Nat.eqb (length v1) (length v2)) then false
  else validtorsEqual_loop v1 v2.

End Validators.

(** ** Punishment and waiting times *)

Section Punishment.

(** The periods of [./constants], which is not among the sources. *)
Variables PUNISHMENT_PERIOD VOTER_PUNISH_TIME WAIT_TIME_SELF_VOTE WAIT_TIME_VOTE : Z.

Definition isCurrentlyPunished (height : Z) (pomHeights : list Z) : bool :=
  match pomHeights with
  | [] => false
  | h :: rest =>
      let lastPomHeight := foldl Z.max h rest in   (* [Math.max(...pomHeights)] *)
      if height - lastPomHeight <? PUNISHMENT_PERIOD then true else false
  end.

Definition hasWaited (unlockingObject : UnlockingObject) (senderAddress : Buffer)
  (height : Z) : bool :=
  let delayedAvailability :=
    if Buffer_equals (delegateAddress unlockingObject) senderAddress
    then WAIT_TIME_SELF_VOTE else WAIT_TIME_VOTE in
  negb (height - unvoteHeight unlockingObject <? delayedAvailability).

Definition isPunished (unlockingObject : UnlockingObject) (pomHeights : list Z)
  (senderAddress : Buffer) (height : Z) : bool :=
  match last pomHeights with
  | None => false
  | Some lastPomHeight =>
      if Buffer_equals (delegateAddress unlockingObject) senderAddress
      then (height - lastPomHeight <? PUNISHMENT_PERIOD)
           && (lastPomHeight <? unvoteHeight unlockingObject + WAIT_TIME_SELF_VOTE)
      else (height - lastPomHeight <? VOTER_PUNISH_TIME)
           && (lastPomHeight <? unvoteHeight unlockingObject + WAIT_TIME_VOTE)
  end.

End Punishment.

(** ** Notions used to state the properties *)

(** The order [sortUnlocking] sorts into: by increasing delegate address,
    then by decreasing unvote height, then by decreasing amount. *)
Definition unlockingOrder (a b : UnlockingObject) : Prop :=
  Buffer_compare (delegateAddress a) (delegateAddress b) = Lt \/
  (delegateAddress a = delegateAddress b /\
   (unvoteHeight b < unvoteHeight a \/
    (unvoteHeight a = unvoteHeight b /\ amount b <= amount a))).

(** ** A scenario: three standby candidates *)

Definition candidates : list DelegateWeight :=
  [ {| dw_delegateAddress := repeat Byte.x0a 20; delegateWeight := 10 |};
    {| dw_delegateAddress := repeat Byte.x0b 20; delegateWeight := 0 |};
    {| dw_delegateAddress := repeat Byte.x0c 20; delegateWeight := 30 |} ].

(** As [candidates], the second one with a weight of 5. *)
Definition positiveCandidates : list DelegateWeight :=
  <[1%nat := {| dw_delegateAddress := repeat Byte.x0b 20; delegateWeight := 5 |}]>
    candidates.

(** The seed whose first eight bytes read 25. *)
Definition seed25 : Buffer :=
  [Byte.x00; Byte.x00; Byte.x00; Byte.x00; Byte.x00; Byte.x00; Byte.x00; Byte.x19].

(** The seed whose first eight bytes read 3. *)
Definition seed3 : Buffer :=
  [Byte.x00; Byte.x00; Byte.x00; Byte.x00; Byte.x00; Byte.x00; Byte.x00; Byte.x03].

End DposUtils.

(* ================================================================== *)
(** * DPoS module: delegate names ([isUsername]) *)
(* ================================================================== *)

Module DposNames.

(** A JavaScript string is a sequence of UTF-16 code units. *)
Abbreviation JSString := (list N).

Definition codeUnits (s : string) : JSString :=
  Ascii.N_of_ascii <$> list_ascii_of_string s.

Fixpoint startsWith (pattern s : JSString) : bool :=
  match pattern, s with
  | [], _ => true
  | p :: pattern', c :: s' => (p =? c)%N && startsWith pattern' s'
  | _ :: _, [] => false
  end.

(** Whether [pattern] occurs in [s]. *)
Fixpoint includes (pattern s : JSString) : bool :=
  startsWith pattern s ||
  match s with
  | [] => false
  | _ :: s' => includes pattern s'
  end.

(** [/\\0|\\u0000|\\x00/.test(input)]: in the regular expression each
    alternative starts with an escaped backslash, so what is searched for is
    a backslash followed by [0], by [u0000] or by [x00]. *)
Definition isNullCharacterIncluded (input : JSString) : bool :=
  includes (codeUnits "\0") input || includes (codeUnits "\u0000") input
  || includes (codeUnits "\x00") input.

(** The class [[a-z0-9!@$&_.]] *)
Definition usernameChar (c : N) : bool :=
  ((97 <=? c) && (c <=? 122) || (48 <=? c) && (c <=? 57)
   || bool_decide (c ∈ [33; 64; 36; 38; 95; 46]))%N.

(** [/^[a-z0-9!@$&_.]+$/g.test(username)] on a fresh regular expression *)
Definition matchesUsernamePattern (username : JSString) : bool :=
  match username with
  | [] => false
  | _ => forallb usernameChar username
  end.

Section IsUsername.

(** [String.prototype.trim] and [String.prototype.toLowerCase] *)
Variables trim toLowerCase : JSString -> JSString.

Definition isUsername (username : JSString) : bool :=
  if isNullCharacterIncluded username then false
  else if negb (bool_decide (username = toLowerCase (trim username))) then false
  else matchesUsernamePattern username.

End IsUsername.

(** ** A scenario: the two string functions on ASCII *)

Definition isSpace (c : N) : bool := ((c =? 32) || (9 <=? c) && (c <=? 13))%N.

Fixpoint trimStart (s : JSString) : JSString :=
  match s with
  | c :: s' => if isSpace c then trimStart s' else s
  | [] => []
  end.

Definition asciiTrim (s : JSString) : JSString :=
  rev (trimStart (rev (trimStart s))).

Definition asciiToLowerCase (s : JSString) : JSString :=
  (fun c => if ((65 <=? c) && (c <=? 90))%N then (c + 32)%N else c) <$> s.

End DposNames.

(* ================================================================== *)
(** * Hello module of the sidechain example: the react command *)
(* ================================================================== *)

Module Hello.

(** [ReactionStoreData]: the addresses that liked a message. *)
Record ReactionStoreData : Type := {
  like : list Buffer
}.

(** The fields of the decoded CCM parameters that [execute] reads. *)
Record CCReactMessageParams : Type := {
  reactionType : Z;
  helloMessageID : string;
  senderAddress : Buffer
}.

Record CCMsg : Type := {
  ccm_status : Z;
  ccm_params : Buffer
}.

Inductive Error : Type :=
| NotFoundError
| InvalidCCMStatus     (* 'Invalid CCM status code.' *)
| DecodeError          (* thrown by [codec.decode] *)
| InvalidAddress.      (* thrown by [getAddressFromLisk32Address] *)

#[global] Instance Error_eq_dec : EqDecision Error.
Proof. solve_decision. Defined.

(** The state is the reaction store, keyed by the address of the creator of
    the message. *)
Abbreviation HM := (M Error (gmap Buffer ReactionStoreData)).

Definition reaction_has (key : Buffer) : HM bool :=
  gets (fun store => bool_decide (is_Some (store !! key))).

Definition reaction_get (key : Buffer) : HM ReactionStoreData :=
  fun store =>
    match store !! key with
    | Some v => (Ok v, store)
    | None => (Throw NotFoundError, store)
    end.

Definition reaction_set (key : Buffer) (value : ReactionStoreData) : HM unit :=
  modify (insert key value).

Section ReactCCCommand.

(** [MAX_RESERVED_ERROR_STATUS] of [../constants], the decoder of
    [crossChainReactMessageSchema] and
    [cryptography.address.getAddressFromLisk32Address]. *)
Variable MAX_RESERVED_ERROR_STATUS : Z.
Variable decode : Buffer -> Result Error CCReactMessageParams.
Variable getAddressFromLisk32Address : string -> Result Error Buffer.

Definition verify (ccm : CCMsg) : HM unit :=
  if ccm_status ccm >? MAX_RESERVED_ERROR_STATUS then throw InvalidCCMStatus
  else ret tt.

(** [execute]; the [return] inside the [catch] clause leaves the method, which
    is the [None] below. *)
Definition execute (ccm : CCMsg) : HM unit :=
  let* params := lift (decode (ccm_params ccm)) in
  let* messageCreatorAddress :=
    lift (getAddressFromLisk32Address (helloMessageID params)) in
  let* reactionsExist := reaction_has messageCreatorAddress in
  let* found :=
    (if reactionsExist then
       tryCatch
         (let* msgReactions := reaction_get messageCreatorAddress in
          ret (Some msgReactions))
         (fun error =>
            if negb (bool_decide (error = NotFoundError)) then throw error
            else ret None)
     else ret (Some {| like := [] |})) in
  match found with
  | None => ret tt
  | Some msgReactions =>
      let msgReactions :=
        if reactionType params =? 0
        then {| like := like msgReactions ++ [senderAddress params] |}
        else msgReactions in
      reaction_set messageCreatorAddress msgReactions
  end.

End ReactCCCommand.

(** ** A scenario: a message whose parameters are the reaction type followed
    by the address of the reacting account, and one message creator *)

Definition creator : Buffer := repeat Byte.x0c 20.

Definition demoParams (b : Buffer) : Result Error CCReactMessageParams :=
  match b with
  | t :: sender =>
      Ok {| reactionType := Z.of_N (Byte.to_N t); helloMessageID := "lskcreator";
            senderAddress := sender |}
  | [] => Throw DecodeError
  end.

Definition demoAddress (s : string) : Result Error Buffer :=
  if String.eqb s "lskcreator" then Ok creator else Throw InvalidAddress.

Definition likeFrom (sender : Buffer) : CCMsg :=
  {| ccm_status := 0; ccm_params := Byte.x00 :: sender |}.

End Hello.

(* ================================================================== *)
(** * Properties *)
(* ================================================================== *)

Set Warnings "-clear-no-such-hyp".

Module TokenFacts.

Import Token.

(** ** The order on buffers and the range scanned by [_accountExist] *)

Lemma Buffer_compare_app (a x y : Buffer) :
  Buffer_compare (a ++ x) (a ++ y) = Buffer_compare x y.
Proof.
  induction a as [|b a IH]; cbn [Buffer_compare app]; [done|].
  by rewrite N.compare_refl.
Qed.

Lemma Buffer_leb_zeros (y : Buffer) :
  Buffer_leb (Buffer_alloc (length y) Byte.x00) y = true.
Proof.
  unfold Buffer_leb, Buffer_alloc.
  induction y as [|b y IH]; cbn [Buffer_compare repeat length]; [done|].
  change (Byte.to_N Byte.x00) with 0%N.
  destruct (N.compare_spec 0 (Byte.to_N b)) as [E|L|G]; [exact IH|done|lia].
Qed.

Lemma Buffer_leb_ones (y : Buffer) :
  Buffer_leb y (Buffer_alloc (length y) Byte.xff) = true.
Proof.
  unfold Buffer_leb, Buffer_alloc.
  induction y as [|b y IH]; cbn [Buffer_compare repeat length]; [done|].
  change (Byte.to_N Byte.xff) with 255%N.
  pose proof (Byte.to_N_bounded b).
  destruct (N.compare_spec (Byte.to_N b) 255) as [E|L|G]; [exact IH|done|lia].
Qed.

Lemma Buffer_leb_app (a x y : Buffer) :
  Buffer_leb (a ++ x) (a ++ y) = Buffer_leb x y.
Proof. unfold Buffer_leb. by rewrite Buffer_compare_app. Qed.

Lemma length_filter_pos {A} (P : A -> Prop) `{!forall x, Decision (P x)} (l : list A) :
  negb (Nat.eqb (length (filter P l)) 0) = true <-> exists x, x ∈ l /\ P x.
Proof.
  split.
  - intros Hn. destruct (filter P l) as [|x l'] eqn:E; [done|].
    exists x. apply and_comm, (list_elem_of_filter P). rewrite E. left.
  - intros (x & Hin & HP).
    assert (Hx : x ∈ filter P l) by (apply list_elem_of_filter; done).
    destruct (filter P l); [by apply not_elem_of_nil in Hx|done].
Qed.

Lemma accountExist_true (m : gmap Buffer (Encoded UserStoreData)) (address : Buffer) :
  _accountExist m address = true <->
  exists key, is_Some (m !! key) /\ inRange address key.
Proof.
  unfold _accountExist, iterate. rewrite length_filter_pos. split.
  - intros ([k v] & Hin & HP). exists k. split; [|exact HP].
    apply elem_of_map_to_list in Hin. by exists v.
  - intros (k & [v Hv] & HP). exists (k, v). split; [|exact HP].
    by apply elem_of_map_to_list.
Qed.

Lemma inRange_key (address tokenID : Buffer) :
  length tokenID = TOKEN_ID_LENGTH -> inRange address (getUserStoreKey address tokenID).
Proof.
  intros Hl. unfold inRange, getUserStoreKey.
  rewrite !Buffer_leb_app, <- Hl, Buffer_leb_zeros, Buffer_leb_ones. done.
Qed.

Lemma accountExist_insert_present (m : gmap Buffer (Encoded UserStoreData)) key v address :
  is_Some (m !! key) -> _accountExist (<[key := v]> m) address = _accountExist m address.
Proof.
  intros Hk. apply eq_true_iff_eq. rewrite !accountExist_true.
  split; intros (k & Hs & HR); exists k; (split; [|done]).
  - destruct (decide (key = k)) as [->|Hne]; [done|]. by rewrite lookup_insert_ne in Hs.
  - destruct (decide (key = k)) as [->|Hne]; [rewrite lookup_insert_eq; eauto|].
    by rewrite lookup_insert_ne.
Qed.

Lemma accountExist_false_lookup (m : gmap Buffer (Encoded UserStoreData)) address tokenID :
  length tokenID = TOKEN_ID_LENGTH ->
  _accountExist m address = false -> m !! getUserStoreKey address tokenID = None.
Proof.
  intros Hl Hf. destruct (m !! getUserStoreKey address tokenID) eqn:E; [|done].
  assert (_accountExist m address = true); [|congruence].
  apply accountExist_true. exists (getUserStoreKey address tokenID).
  split; [eauto|by apply inRange_key].
Qed.

(** ** The codec *)

Lemma decode_encode {V} `{Schema V} (v : V) :
  validates v = true -> decode (encode v) = Some v.
Proof. unfold decode. cbn. by intros ->. Qed.


Lemma decode_Some {V} `{Schema V} (bytes : Encoded V) (v : V) :
  decode bytes = Some v <-> bytes = encode v /\ validates v = true.
Proof.
  unfold decode. destruct bytes as [w]. cbn. split.
  - destruct (validates w) eqn:E; [|done]. by intros [= ->].
  - intros [[= ->] ->]. done.
Qed.

Lemma readStore_Ok {V} `{Schema V} (store : gmap Buffer (Encoded V)) key v :
  readStore store key = Ok v <-> store !! key = Some (encode v) /\ validates v = true.
Proof.
  unfold readStore. destruct (store !! key) as [bytes|]; [|naive_solver].
  destruct (decode bytes) as [w|] eqn:E.
  - apply decode_Some in E as [-> Hw]. naive_solver.
  - split; [done|]. intros [[= ->] Hv]. by rewrite decode_encode in E.
Qed.

Lemma readStore_lookup {V} `{Schema V} (store : gmap Buffer (Encoded V)) key v :
  store !! key ≫= decode = Some v <-> readStore store key = Ok v.
Proof.
  unfold readStore. destruct (store !! key) as [bytes|]; cbn; [|done].
  destruct (decode bytes); naive_solver.
Qed.

Lemma readStore_insert_eq {V} `{Schema V} (store : gmap Buffer (Encoded V)) key v :
  readStore (<[key := encode v]> store) key =
  if validates v then Ok v else Throw SchemaValidationError.
Proof.
  unfold readStore. rewrite lookup_insert_eq. unfold decode. cbn.
  by destruct (validates v).
Qed.

Lemma readStore_insert_ne {V} `{Schema V} (store : gmap Buffer (Encoded V)) k k' bytes :
  k ≠ k' -> readStore (<[k := bytes]> store) k' = readStore store k'.
Proof. intros Hne. unfold readStore. by rewrite lookup_insert_ne. Qed.

Lemma readStoreOr_Ok {V} `{Schema V} (store : gmap Buffer (Encoded V)) key dflt v :
  readStoreOr store key dflt = Ok v <->
  readStore store key = Ok v \/ (store !! key = None /\ v = dflt).
Proof.
  unfold readStoreOr. destruct (store !! key) as [bytes|] eqn:E.
  - naive_solver.
  - split; [naive_solver|]. intros [Hr|[_ ->]]; [|done].
    apply readStore_Ok in Hr as [Hr _]. congruence.
Qed.

Lemma validates_user (u : UserStoreData) :
  validates u = true <->
  0 <= availableBalance u /\ Forall (fun b => 0 <= lb_amount b) (lockedBalances u).
Proof.
  unfold validates, userStoreSchema. rewrite andb_true_iff, forallb_forall, Forall_forall.
  rewrite Z.leb_le. split; intros [Ha Hl]; (split; [done|]); intros b Hb.
  - apply Z.leb_le, Hl. by apply list_elem_of_In.
  - apply Z.leb_le, Hl. by apply list_elem_of_In.
Qed.

Lemma validates_credit u v :
  validates u = true -> 0 <= availableBalance u + v -> validates (credit u v) = true.
Proof. rewrite !validates_user. cbn. naive_solver. Qed.

Lemma validates_debit u v :
  validates u = true -> v <= availableBalance u -> validates (debit u v) = true.
Proof. rewrite !validates_user. cbn. intros [? ?] ?. split; [lia|done]. Qed.

(** ** Sums over a store *)


(** ** Running the methods *)

Ltac munfold :=
  unfold setUser, setSupply, setAvailableLocalID, accountExists, orIfNotFound,
    liftRange, discard, getWithSchema, has in *;
  unfold bind, ret, throw, gets, modify, lift, tryCatch in *.

Lemma getCanonicalTokenID_run this t s :
  getCanonicalTokenID this t s = (Ok (canonicalOf this t), s).
Proof. unfold getCanonicalTokenID, canonicalOf. munfold. by repeat case_match. Qed.

Ltac mcases :=
  repeat case_match; simplify_eq;
  cbn [userStore supplyStore escrowStore availableLocalIDStore
       set_userStore set_supplyStore set_availableLocalIDStore fst snd] in *;
  try match goal with
      | H : negb ?x = _, H' : ?x = _ |- _ => rewrite H' in H; discriminate H
      end.

Lemma isNative_run this t s :
  isNative this t s =
  (Ok (Buffer_equals (fst (splitTokenID (canonicalOf this t)))
         CHAIN_ID_ALIAS_NATIVE), s).
Proof. unfold isNative. unfold bind. rewrite getCanonicalTokenID_run. done. Qed.

Lemma length_canonicalOf this t :
  length t = TOKEN_ID_LENGTH -> length (canonicalOf this t) = TOKEN_ID_LENGTH.
Proof.
  intros Hl. unfold canonicalOf, getNativeTokenID. repeat case_match; try done.
  rewrite length_app, length_drop, Hl. done.
Qed.

Lemma canonicalOf_native this c :
  nativeToken c = true -> canonicalOf this c = c.
Proof. unfold nativeToken, canonicalOf. by intros ->. Qed.

Lemma nativeToken_getNativeTokenID t : nativeToken (getNativeTokenID t) = true.
Proof.
  unfold nativeToken, getNativeTokenID, splitTokenID. cbn [fst].
  change CHAIN_ID_LENGTH with (length CHAIN_ID_ALIAS_NATIVE) at 1.
  rewrite take_app_length. unfold Buffer_equals. by rewrite bool_decide_eq_true_2.
Qed.

Lemma canonicalOf_idem this t : canonicalOf this (canonicalOf this t) = canonicalOf this t.
Proof.
  unfold canonicalOf at 2 3.
  destruct (Buffer_equals (fst (splitTokenID t)) CHAIN_ID_ALIAS_NATIVE) eqn:E1.
  - by apply canonicalOf_native.
  - destruct (Buffer_equals (fst (splitTokenID t)) (ownChainID this)) eqn:E2.
    + apply canonicalOf_native, nativeToken_getNativeTokenID.
    + unfold canonicalOf. by rewrite E1, E2.
Qed.


Lemma orIfNotFound_run {V} `{Schema V} (sel : Stores -> gmap Buffer (Encoded V))
  key dflt s :
  orIfNotFound (getWithSchema sel key) dflt s = (readStoreOr (sel s) key dflt, s).
Proof.
  unfold orIfNotFound, tryCatch, getWithSchema, readStoreOr, readStore.
  destruct (sel s !! key) as [bytes|]; [|by rewrite bool_decide_eq_true_2].
  destruct (decode bytes); [done|]. by rewrite bool_decide_eq_false_2.
Qed.

(** The record [lock] writes. *)
Lemma lock_run this a m t v s :
  let k := getUserStoreKey a (canonicalOf this t) in
  lock this a m t v s =
  if v <? 0 then (Throw LockAmountNegative, s)
  else match readStore (userStore s) k with
       | Throw e => (Throw e, s)
       | Ok user =>
           if availableBalance user <? v then (Throw InsufficientBalance, s)
           else
             (Ok tt,
              set_userStore
                (insert k
                   (encode
                      {| availableBalance := availableBalance user - v;
                         lockedBalances :=
                           sortByModuleID
                             match list_find (fun b => lb_moduleID b = m)
                                     (lockedBalances user) with
                             | Some (i, b) =>
                                 <[i := {| lb_moduleID := m;
                                           lb_amount := lb_amount b + v |}]>
                                   (lockedBalances user)
                             | None =>
                                 lockedBalances user ++
                                 [{| lb_moduleID := m; lb_amount := v |}]
                             end |})) s)
       end.
Proof.
  intros k. unfold lock. unfold bind at 1. rewrite getCanonicalTokenID_run.
  fold k. munfold.
  destruct (v <? 0); [done|].
  destruct (readStore (userStore s) k) as [user|]; [|done].
  by destruct (availableBalance user <? v).
Qed.

Lemma unlock_run this a m t v s :
  let k := getUserStoreKey a (canonicalOf this t) in
  unlock this a m t v s =
  if v <? 0 then (Throw UnlockAmountNegative, s)
  else match readStore (userStore s) k with
       | Throw e => (Throw e, s)
       | Ok user =>
           match list_find (fun b => lb_moduleID b = m) (lockedBalances user) with
           | None => (Throw NoBalanceLocked, s)
           | Some (i, b) =>
               if lb_amount b <? v then (Throw NotEnoughLocked, s)
               else
                 (Ok tt,
                  set_userStore
                    (insert k
                       (encode
                          {| availableBalance := availableBalance user + v;
                             lockedBalances :=
                               if negb (lb_amount b - v =? 0)
                               then <[i := {| lb_moduleID := lb_moduleID b;
                                              lb_amount := lb_amount b - v |}]>
                                      (lockedBalances user)
                               else delete i (lockedBalances user) |})) s)
           end
       end.
Proof.
  intros k. unfold unlock. unfold bind at 1. rewrite getCanonicalTokenID_run.
  fold k. munfold.
  destruct (v <? 0); [done|].
  destruct (readStore (userStore s) k) as [user|]; [|done].
  destruct (list_find _ _) as [[i b]|]; [|done].
  by destruct (lb_amount b <? v).
Qed.

Lemma mint_run this a t v s :
  let c := canonicalOf this t in
  let localID := snd (splitTokenID c) in
  let k := getUserStoreKey a c in
  let credited supply r :=
    match readStoreOr (userStore s) k emptyUser with
    | Throw e => (Throw e, s)
    | Ok recipient =>
        (Ok tt,
         set_supplyStore
           (insert localID (encode {| totalSupply := totalSupply supply + r |}))
           (set_userStore (insert k (encode (credit recipient r))) s))
    end in
  mint this a t v s =
  if negb (nativeToken c) then (Throw OnlyNativeMinted, s)
  else if v <? 0 then (Throw MintAmountNegative, s)
  else match supplyStore s !! localID with
       | None => (Throw LocalIDNotInitialized, s)
       | Some _ =>
           match readStore (supplyStore s) localID with
           | Throw e => (Throw e, s)
           | Ok supply =>
               if totalSupply supply >? MAX_UINT64 - v
               then (Throw SupplyExceedsMaxUint64, s)
               else if _accountExist (userStore s) a then credited supply v
               else if falsy (_getMinBalance this c) then (Throw MinBalanceNotSet, s)
               else if minBalance_value (_getMinBalance this c) >? v
               then (Throw MinBalanceNotSatisfied, s)
               else credited supply (v - minBalance_value (_getMinBalance this c))
           end
       end.
Proof.
  intros c localID k credited. subst credited.
  unfold mint. unfold bind at 1. rewrite getCanonicalTokenID_run.
  unfold bind at 1. rewrite isNative_run, canonicalOf_idem. fold c.
  fold (nativeToken c). fold localID k.
  destruct (nativeToken c); cbn [negb]; [|done].
  destruct (v <? 0); [done|].
  unfold bind at 1, has at 1, gets at 1.
  destruct (supplyStore s !! localID) as [bytes|] eqn:Hsup.
  2:{ rewrite bool_decide_eq_false_2 by (by intros [? ?]). done. }
  rewrite bool_decide_eq_true_2 by eauto. cbn [negb].
  unfold bind at 1, getWithSchema at 1.
  destruct (readStore (supplyStore s) localID) as [supply|e]; [|done].
  destruct (totalSupply supply >? MAX_UINT64 - v); [done|].
  unfold bind at 1, accountExists at 1, gets at 1.
  destruct (_accountExist (userStore s) a); cbn [negb].
  - unfold bind at 1, ret at 1. unfold bind at 1. rewrite orIfNotFound_run.
    destruct (readStoreOr _ _ _); [|done].
    unfold bind, setUser, setSupply, modify. cbn. done.
  - destruct (falsy _); [done|]. destruct (_ >? v); [done|].
    unfold bind at 1, ret at 1. unfold bind at 1. rewrite orIfNotFound_run.
    destruct (readStoreOr _ _ _); [|done].
    unfold bind, setUser, setSupply, modify. cbn. done.
Qed.


Lemma transfer_run this f r t v s :
  let c := canonicalOf this t in
  let localID := snd (splitTokenID c) in
  let kf := getUserStoreKey f c in
  let kr := getUserStoreKey r c in
  let minBalance := minBalance_value (_getMinBalance this c) in
  transfer this f r t v s =
  match readStore (userStore s) kf with
  | Throw e => (Throw e, s)
  | Ok sender =>
      if availableBalance sender <? v then (Throw InsufficientBalance, s)
      else
        let s1 := set_userStore (insert kf (encode (debit sender v))) s in
        let received amount s2 :=
          match readStoreOr (userStore s1) kr emptyUser with
          | Throw e => (Throw e, s2)
          | Ok recipient =>
              (Ok tt, set_userStore (insert kr (encode (credit recipient amount))) s2)
          end in
        if _accountExist (userStore s1) r then received v s1
        else if falsy (_getMinBalance this c) then (Throw MinBalanceNotSet, s1)
        else if minBalance >? v then (Throw MinBalanceNotSatisfied, s1)
        else if nativeToken c then
          match readStore (supplyStore s) localID with
          | Throw e => (Throw e, s1)
          | Ok supply =>
              received (v - minBalance)
                (set_supplyStore
                   (insert localID
                      (encode {| totalSupply := totalSupply supply - minBalance |}))
                   s1)
          end
        else received (v - minBalance) s1
  end.
Proof.
  intros c localID kf kr minBalance.
  unfold transfer. unfold bind at 1. rewrite getCanonicalTokenID_run. fold c.
  fold kf kr localID. fold (nativeToken c).
  unfold bind at 1, getWithSchema at 1.
  destruct (readStore (userStore s) kf) as [sender|]; [|done].
  destruct (availableBalance sender <? v); [done|].
  unfold bind at 1, setUser at 1, modify at 1.
  unfold bind at 1, accountExists at 1, gets at 1. cbn zeta.
  destruct (_accountExist _ r); cbn [negb].
  - unfold bind at 1, ret at 1. unfold bind at 1. rewrite orIfNotFound_run.
    destruct (readStoreOr _ _ _); [|done]. unfold setUser, modify. done.
  - unfold bind at 1. destruct (falsy _); [done|]. fold minBalance.
    destruct (minBalance >? v); [done|].
    unfold bind at 1. destruct (nativeToken c).
    + unfold bind at 1, getWithSchema at 1. cbn [supplyStore set_userStore].
      destruct (readStore (supplyStore s) localID); [|done].
      unfold setSupply, modify, ret. unfold bind at 1. rewrite orIfNotFound_run.
      cbn [userStore set_supplyStore set_userStore].
      destruct (readStoreOr _ _ _); [|done]. unfold setUser, modify. done.
    + unfold ret at 1 2. unfold bind at 1.
      rewrite orIfNotFound_run. destruct (readStoreOr _ _ _); [|done].
      unfold setUser, modify. done.
Qed.

(** ** Totals *)

Lemma balanceOf_encode u : validates u = true -> balanceOf (encode u) = balance u.
Proof. intros Hu. unfold balanceOf. by rewrite decode_encode. Qed.


Lemma balanceOf_read (m : gmap Buffer (Encoded UserStoreData)) k u :
  readStore m k = Ok u ->
  from_option balanceOf 0 (m !! k) = balance u /\ validates u = true.
Proof.
  intros [Hk Hu]%readStore_Ok. rewrite Hk. cbn. by rewrite balanceOf_encode.
Qed.

Lemma balanceOf_readOr (m : gmap Buffer (Encoded UserStoreData)) k u :
  readStoreOr m k emptyUser = Ok u ->
  from_option balanceOf 0 (m !! k) = balance u /\ validates u = true.
Proof.
  intros [Hr|[Hk ->]]%readStoreOr_Ok; [by apply balanceOf_read|].
  rewrite Hk. done.
Qed.


Lemma readStore_readStoreOr {V} `{Schema V} (m : gmap Buffer (Encoded V)) k dflt u :
  readStore m k = Ok u -> readStoreOr m k dflt = Ok u.
Proof. intros Hr. apply readStoreOr_Ok. by left. Qed.

(** ** Locked balances *)

Lemma lockedTotal_app l x : lockedTotal (l ++ [x]) = lockedTotal l + lb_amount x.
Proof. induction l as [|y l IH]; simpl; lia. Qed.

Lemma lockedTotal_insert l i b x :
  l !! i = Some b ->
  lockedTotal (<[i:=x]> l) = lockedTotal l - lb_amount b + lb_amount x.
Proof.
  revert i. induction l as [|y l IH]; intros [|i] Hi; simplify_eq/=; [lia|].
  rewrite (IH i Hi). lia.
Qed.

Lemma lockedTotal_delete l i b :
  l !! i = Some b -> lockedTotal (delete i l) = lockedTotal l - lb_amount b.
Proof.
  revert i. induction l as [|y l IH]; intros [|i] Hi; simplify_eq/=; [lia|].
  rewrite (IH i Hi). lia.
Qed.

Lemma lockedTotal_insertByModuleID x l :
  lockedTotal (insertByModuleID x l) = lb_amount x + lockedTotal l.
Proof. induction l as [|y l IH]; simpl; [done|]. case_match; simpl; lia. Qed.

Lemma lockedTotal_sort l : lockedTotal (sortByModuleID l) = lockedTotal l.
Proof.
  unfold sortByModuleID. induction l as [|y l IH]; simpl; [done|].
  rewrite lockedTotal_insertByModuleID. lia.
Qed.

Lemma insertByModuleID_perm x l : insertByModuleID x l ≡ₚ x :: l.
Proof.
  induction l as [|y l IH]; cbn [insertByModuleID]; [done|].
  destruct (lb_moduleID x <=? lb_moduleID y); [done|].
  by rewrite IH, Permutation_swap.
Qed.

Lemma sortByModuleID_perm l : sortByModuleID l ≡ₚ l.
Proof.
  unfold sortByModuleID. induction l as [|x l IH]; [done|].
  cbn [foldr]. by rewrite insertByModuleID_perm, IH.
Qed.

(** The record [lock] writes validates and holds the balance of the record
    it was made from. *)
Lemma lock_record user m v :
  validates user = true -> 0 <= v <= availableBalance user ->
  let user' :=
    {| availableBalance := availableBalance user - v;
       lockedBalances :=
         sortByModuleID
           match list_find (fun b => lb_moduleID b = m) (lockedBalances user) with
           | Some (i, b) =>
               <[i := {| lb_moduleID := m; lb_amount := lb_amount b + v |}]>
                 (lockedBalances user)
           | None => lockedBalances user ++ [{| lb_moduleID := m; lb_amount := v |}]
           end |} in
  validates user' = true /\ balance user' = balance user.
Proof.
  intros [Ha Hl]%validates_user Hv user'. split.
  - apply validates_user. cbn. split; [lia|].
    rewrite sortByModuleID_perm.
    destruct (list_find _ _) as [[i b]|] eqn:Hf.
    + apply list_find_Some in Hf as (Hi & _ & _).
      apply Forall_insert; [done|]. cbn.
      rewrite Forall_lookup in Hl. specialize (Hl i b Hi). cbn in Hl. lia.
    + apply Forall_app. split; [done|]. constructor; [cbn; lia|constructor].
  - unfold balance, user'. cbn [availableBalance lockedBalances].
    rewrite lockedTotal_sort.
    destruct (list_find _ _) as [[i b]|] eqn:Hf.
    + apply list_find_Some in Hf as (Hi & _ & _).
      rewrite (lockedTotal_insert _ _ _ _ Hi). simpl. lia.
    + rewrite lockedTotal_app. simpl. lia.
Qed.

(** The record [unlock] writes validates and holds the balance of the record
    it was made from. *)
Lemma unlock_record user m v i b :
  validates user = true ->
  list_find (fun b => lb_moduleID b = m) (lockedBalances user) = Some (i, b) ->
  0 <= v <= lb_amount b ->
  let user' :=
    {| availableBalance := availableBalance user + v;
       lockedBalances :=
         if negb (lb_amount b - v =? 0)
         then <[i := {| lb_moduleID := lb_moduleID b; lb_amount := lb_amount b - v |}]>
                (lockedBalances user)
         else delete i (lockedBalances user) |} in
  validates user' = true /\ balance user' = balance user.
Proof.
  intros [Ha Hl]%validates_user (Hi & _ & _)%list_find_Some Hv user'. split.
  - apply validates_user. cbn. split; [lia|].
    destruct (negb _).
    + apply Forall_insert; [done|]. cbn. lia.
    + by apply Forall_delete.
  - unfold balance, user'. cbn [availableBalance lockedBalances].
    destruct (lb_amount b - v =? 0) eqn:Hz; cbn [negb].
    + rewrite (lockedTotal_delete _ _ _ Hi). lia.
    + rewrite (lockedTotal_insert _ _ _ _ Hi). simpl. lia.
Qed.

Ltac mrun :=
  repeat (unfold bind at 1; rewrite ?getCanonicalTokenID_run, ?isNative_run;
          cbn [fst snd]);
  munfold; cbn zeta; rewrite ?getCanonicalTokenID_run, ?isNative_run; mcases;
  repeat match goal with
         | H : getCanonicalTokenID _ _ _ = _ |- _ =>
             rewrite getCanonicalTokenID_run in H; simplify_eq
         | H : isNative _ _ _ = _ |- _ =>
             rewrite isNative_run in H; simplify_eq
         end.






(** ** What each writer does to the total of the user balances *)









Lemma storedBalance_Some s a c b :
  storedBalance s a c = Some b <->
  exists u, readStore (userStore s) (getUserStoreKey a c) = Ok u /\ availableBalance u = b.
Proof.
  unfold storedBalance. rewrite fmap_Some. split.
  - intros (u & Hu & ->). exists u. split; [|done]. by apply readStore_lookup.
  - intros (u & Hu & <-). exists u. split; [|done]. by apply readStore_lookup.
Qed.

Lemma storedSupply_Some s l v :
  storedSupply s l = Some v <->
  exists d, readStore (supplyStore s) l = Ok d /\ totalSupply d = v.
Proof.
  unfold storedSupply. rewrite fmap_Some. split.
  - intros (u & Hu & ->). exists u. split; [|done]. by apply readStore_lookup.
  - intros (u & Hu & <-). exists u. split; [|done]. by apply readStore_lookup.
Qed.

Lemma transfer_insufficient this f r t v s sender :
  readStore (userStore s) (getUserStoreKey f (canonicalOf this t)) = Ok sender ->
  availableBalance sender < v ->
  transfer this f r t v s = (Throw InsufficientBalance, s).
Proof.
  intros Hs Hlt. rewrite transfer_run. cbn zeta. rewrite Hs.
  destruct (availableBalance sender <? v) eqn:E; [done|lia].
Qed.

(** Every user store [transfer] can leave behind, whatever the outcome. *)
Lemma transfer_userStore this f r t v s sender :
  let c := canonicalOf this t in
  let kf := getUserStoreKey f c in
  let kr := getUserStoreKey r c in
  readStore (userStore s) kf = Ok sender ->
  v <= availableBalance sender ->
  let us1 := <[kf := encode (debit sender v)]> (userStore s) in
  let us' := userStore (snd (transfer this f r t v s)) in
  us' = us1 \/
  exists recipient recv,
    readStoreOr us1 kr emptyUser = Ok recipient /\
    us' = <[kr := encode (credit recipient recv)]> us1 /\
    (recv = v /\ _accountExist us1 r = true \/ 0 <= recv).
Proof.
  intros c kf kr Hs Hle us1 us'. subst us'.
  rewrite transfer_run. cbn zeta. fold c kf kr. rewrite Hs.
  destruct (availableBalance sender <? v) eqn:E; [lia|].
  cbn [userStore set_userStore set_supplyStore]. fold us1.
  destruct (_accountExist us1 r) eqn:He.
  - destruct (readStoreOr us1 kr emptyUser) as [recipient|e] eqn:Hr;
      cbn [snd userStore set_userStore]; [|by left].
    right. exists recipient, v. fold us1. auto.
  - destruct (falsy _); [by left|].
    destruct (_ >? v) eqn:Hm; [by left|].
    destruct (nativeToken c).
    + destruct (readStore (supplyStore s) _) as [supply|e]; [|by left].
      destruct (readStoreOr us1 kr emptyUser) as [recipient|e] eqn:Hr;
        cbn [snd userStore set_userStore set_supplyStore]; [|by left].
      right. eexists recipient, _. fold us1. repeat split. right. lia.
    + destruct (readStoreOr us1 kr emptyUser) as [recipient|e] eqn:Hr;
        cbn [snd userStore set_userStore set_supplyStore]; [|by left].
      right. eexists recipient, _. fold us1. repeat split. right. lia.
Qed.

(** C5. When the stored available balance of the sender for the (canonical)
    token is below the amount, [transfer] throws and leaves every store as it
    was, so nothing is debited; the same holds when the sender has no record
    and when its record does not decode. Hence a sender whose stored
    available balance is non-negative still has a non-negative stored
    available balance after [transfer], whatever the outcome of the call. *)
Theorem transfer_never_overdraws this f r t v s :
  let c := canonicalOf this t in
  (userStore s !! getUserStoreKey f c = None ->
   transfer this f r t v s = (Throw NotFoundError, s)) /\
  (forall bytes,
     userStore s !! getUserStoreKey f c = Some bytes -> decode bytes = None ->
     transfer this f r t v s = (Throw SchemaValidationError, s)) /\
  (forall b, storedBalance s f c = Some b ->
     (b < v -> transfer this f r t v s = (Throw InsufficientBalance, s)) /\
     (0 <= b ->
      exists b',
        storedBalance (snd (transfer this f r t v s)) f c = Some b' /\ 0 <= b')).
Proof.
  intros c. split; [|split].
  - intros Hb. rewrite transfer_run. cbn zeta. fold c.
    unfold readStore. by rewrite Hb.
  - intros bytes Hb Hd. rewrite transfer_run. cbn zeta. fold c.
    unfold readStore. by rewrite Hb, Hd.
  - intros b (sender & Hs & <-)%storedBalance_Some. split.
    + intros Hlt. by apply (transfer_insufficient _ _ _ _ _ _ sender).
    + intros Hnn. destruct (Z_lt_le_dec (availableBalance sender) v) as [Hlt|Hle].
      * rewrite (transfer_insufficient _ _ _ _ _ _ sender Hs Hlt). cbn [snd].
        exists (availableBalance sender). split; [|done].
        apply storedBalance_Some. eauto.
      * pose proof (balanceOf_read _ _ _ Hs) as [_ Hval].
        assert (Hvd : validates (debit sender v) = true) by by apply validates_debit.
        destruct (transfer_userStore this f r t v s sender Hs Hle)
          as [Hus|(recipient & recv & Hr & Hus & Hrecv)]; fold c in Hus.
        -- exists (availableBalance sender - v). split; [|lia].
           apply storedBalance_Some. exists (debit sender v). split; [|done].
           rewrite Hus, readStore_insert_eq. by rewrite Hvd.
        -- destruct (decide (getUserStoreKey r c = getUserStoreKey f c))
             as [Heq|Hne].
           ++ assert (recipient = debit sender v) as ->.
              { fold c in Hr. rewrite Heq in Hr. unfold readStoreOr in Hr.
                rewrite lookup_insert_eq, readStore_insert_eq, Hvd in Hr.
                by simplify_eq. }
              exists (availableBalance sender - v + recv). split.
              ** apply storedBalance_Some. exists (credit (debit sender v) recv).
                 split; [|done]. rewrite Hus, Heq, readStore_insert_eq.
                 rewrite validates_credit; [done|done|].
                 cbn. destruct Hrecv as [[-> _]|Hrecv]; lia.
              ** destruct Hrecv as [[-> _]|Hrecv]; lia.
           ++ exists (availableBalance sender - v). split; [|lia].
              apply storedBalance_Some. exists (debit sender v). split; [|done].
              rewrite Hus, readStore_insert_ne by done.
              rewrite readStore_insert_eq. by rewrite Hvd.
Qed.

(** The theorem at a transfer of 130 from a balance of 100. *)
Lemma transfer_never_overdraws_witness :
  transfer demoAPI alice bob T_native 130 (st0 T_native) =
  (Throw InsufficientBalance, st0 T_native).
Proof.
  destruct (transfer_never_overdraws demoAPI alice bob T_native 130 (st0 T_native))
    as (_ & _ & Hsome).
  destruct (Hsome 100) as [Hthrow _]; [vm_compute; reflexivity|].
  apply Hthrow. lia.
Defined.

(** C4 (as amended). A sender holding 100 of a token transfers 30 to a
    recipient address that has no account for any token, the min balance of
    the token being 5: the call succeeds, the sender holds 70 and the
    recipient 25. When the token is native, the supply entry is overwritten
    with the supply less 5: the total supply goes down by exactly 5 when it
    is at least 5, and the entry no longer decodes when it is less. The
    supply store is untouched when the token is not native. *)
Theorem transfer_to_new_address this s sender recipient T :
  let c := canonicalOf this T in
  let localID := snd (splitTokenID c) in
  length T = TOKEN_ID_LENGTH ->
  storedBalance s sender c = Some 100 ->
  _accountExist (userStore s) recipient = false ->
  _getMinBalance this c = Some 5 ->
  (nativeToken c = true -> is_Some (storedSupply s localID)) ->
  exists s',
    transfer this sender recipient T 30 s = (Ok tt, s') /\
    storedBalance s' sender c = Some 70 /\
    storedBalance s' recipient c = Some 25 /\
    (if nativeToken c
     then forall supply, storedSupply s localID = Some supply ->
            supplyStore s' !! localID = Some (encode {| totalSupply := supply - 5 |}) /\
            storedSupply s' localID = if 5 <=? supply then Some (supply - 5) else None
     else supplyStore s' = supplyStore s).
Proof.
  intros c localID Hl (u & Hs & Hb)%storedBalance_Some Hne Hmin Hsup.
  pose proof (length_canonicalOf this T Hl) as Hc. fold c in Hc.
  pose proof (balanceOf_read _ _ _ Hs) as [_ Hval].
  assert (Hvd : validates (debit u 30) = true) by (apply validates_debit; [done|lia]).
  assert (Hr : userStore s !! getUserStoreKey recipient c = None)
    by by apply accountExist_false_lookup.
  assert (Hk : getUserStoreKey sender c ≠ getUserStoreKey recipient c).
  { intros E. rewrite E in Hs. apply readStore_Ok in Hs as [Hs _]. congruence. }
  assert (Hex : _accountExist
                  (<[getUserStoreKey sender c := encode (debit u 30)]> (userStore s))
                  recipient = false).
  { rewrite accountExist_insert_present; [done|].
    apply readStore_Ok in Hs as [-> _]. eauto. }
  rewrite transfer_run. cbn zeta. fold c localID. rewrite Hs, Hb.
  change (100 <? 30) with false. cbn [userStore set_userStore set_supplyStore].
  rewrite Hex, Hmin. cbn [falsy minBalance_value].
  change (5 =? 0) with false. change (5 >? 30) with false. change (30 - 5) with 25.
  assert (Hro : readStoreOr
                  (<[getUserStoreKey sender c := encode (debit u 30)]> (userStore s))
                  (getUserStoreKey recipient c) emptyUser = Ok emptyUser).
  { unfold readStoreOr. by rewrite lookup_insert_ne, Hr. }
  rewrite Hro.
  assert (Hsender : forall s2,
            storedBalance
              (set_userStore
                 (insert (getUserStoreKey recipient c) (encode (credit emptyUser 25)))
                 (set_userStore
                    (insert (getUserStoreKey sender c) (encode (debit u 30))) s2))
              sender c = Some 70).
  { intros s2. apply storedBalance_Some. exists (debit u 30).
    cbn [userStore set_userStore].
    rewrite readStore_insert_ne, readStore_insert_eq, Hvd by done.
    split; [done|]. cbn. lia. }
  assert (Hrecipient : forall s2,
            storedBalance
              (set_userStore
                 (insert (getUserStoreKey recipient c) (encode (credit emptyUser 25)))
                 s2) recipient c = Some 25).
  { intros s2. apply storedBalance_Some. exists (credit emptyUser 25).
    cbn [userStore set_userStore]. by rewrite readStore_insert_eq. }
  destruct (nativeToken c) eqn:Hn.
  - destruct (Hsup eq_refl) as [sup (d & Hd & Hsupply)%storedSupply_Some].
    rewrite Hd. eexists. split; [reflexivity|].
    split; [apply (Hsender (set_supplyStore _ s))|].
    split; [apply (Hrecipient (set_supplyStore _ _))|].
    intros supply (d' & Hd' & <-)%storedSupply_Some.
    rewrite Hd in Hd'. injection Hd' as <-.
    cbn [supplyStore set_userStore set_supplyStore].
    split; [by rewrite lookup_insert_eq|].
    unfold storedSupply. cbn [supplyStore set_userStore set_supplyStore].
    rewrite lookup_insert_eq. cbn. unfold decode. cbn.
    unfold validates, supplyStoreSchema. cbn.
    destruct (5 <=? totalSupply d) eqn:E5, (0 <=? totalSupply d - 5) eqn:E0;
      try done; lia.
  - eexists. split; [reflexivity|].
    split; [apply (Hsender s)|]. split; [apply (Hrecipient _)|]. done.
Qed.

(** The theorem at the scenario: native token, recipient without account. *)
Lemma transfer_to_new_address_witness :
  exists s',
    transfer demoAPI alice bob T_native 30 (st0 T_native) = (Ok tt, s') /\
    storedBalance s' alice T_native = Some 70 /\
    storedBalance s' bob T_native = Some 25 /\
    storedSupply s' localOne = Some 995.
Proof.
  destruct (transfer_to_new_address demoAPI (st0 T_native) alice bob T_native)
    as (s' & Hrun & Ha & Hb & Hsupply).
  - reflexivity.
  - vm_compute. reflexivity.
  - vm_compute. reflexivity.
  - vm_compute. reflexivity.
  - intros _. vm_compute. eauto.
  - exists s'. split; [exact Hrun|]. split; [exact Ha|]. split; [exact Hb|].
    destruct (Hsupply 1000) as [_ Hs]; [vm_compute; reflexivity|]. exact Hs.
Defined.

(** C4 as stated fails: the recipient has no account for the token but holds
    another token, so its address exists; nothing is withheld, it receives 30
    and the supply stays as it was. *)
Lemma transfer_scenario_counterexample :
  storedBalance (st1 T_native) alice T_native = Some 100 /\
  userStore (st1 T_native) !! getUserStoreKey bob T_native = None /\
  _getMinBalance demoAPI T_native = Some 5 /\
  fst (transfer demoAPI alice bob T_native 30 (st1 T_native)) = Ok tt /\
  storedBalance (snd (transfer demoAPI alice bob T_native 30 (st1 T_native)))
    alice T_native = Some 70 /\
  storedBalance (snd (transfer demoAPI alice bob T_native 30 (st1 T_native)))
    bob T_native = Some 30 /\
  storedSupply (snd (transfer demoAPI alice bob T_native 30 (st1 T_native)))
    localOne = storedSupply (st1 T_native) localOne.
Proof. vm_compute. repeat split. Qed.

End TokenFacts.

Module ProcessorFacts.

Import Processor.

Ltac punfold :=
  unfold serialize, chain_lastBlock, chain_newStateStore, chain_exists, chain_save,
    chain_remove, publish, record, setChain in *;
  unfold bind, ret, throw, gets, modify, lift, tryCatch in *.

Section ProcessorProofs.
Context `{ForkStatusEnum} {S BlockJSON : Type}.
Implicit Types (this : Processor S BlockJSON) (bp : BaseBlockProcessor S BlockJSON)
  (w : World S BlockJSON) (block : BlockInstance).

Lemma ForkStatus_neq :
  IDENTICAL_BLOCK ≠ VALID_BLOCK /\ IDENTICAL_BLOCK ≠ DOUBLE_FORGING /\
  IDENTICAL_BLOCK ≠ TIE_BREAK /\ IDENTICAL_BLOCK ≠ DIFFERENT_CHAIN /\
  IDENTICAL_BLOCK ≠ DISCARD /\ VALID_BLOCK ≠ DOUBLE_FORGING /\
  VALID_BLOCK ≠ TIE_BREAK /\ VALID_BLOCK ≠ DIFFERENT_CHAIN /\
  VALID_BLOCK ≠ DISCARD /\ DOUBLE_FORGING ≠ TIE_BREAK /\
  DOUBLE_FORGING ≠ DIFFERENT_CHAIN /\ DOUBLE_FORGING ≠ DISCARD /\
  TIE_BREAK ≠ DIFFERENT_CHAIN /\ TIE_BREAK ≠ DISCARD /\
  DIFFERENT_CHAIN ≠ DISCARD.
Proof.
  pose proof ForkStatus_distinct as Hd.
  repeat match goal with
         | Hd : NoDup (_ :: _) |- _ => apply NoDup_cons in Hd as [? Hd]
         end.
  set_solver.
Qed.

Lemma serialize_eq this block bp w :
  _getBlockProcessor this block = Ok bp ->
  serialize this block w =
  (serialize_run bp block, withCalls w [CSerialize block]).
Proof. intros Hbp. punfold. rewrite Hbp. by destruct (serialize_run bp block). Qed.

Lemma in_forkStatusList (fs : Z) :
  fs ∈ forkStatusList <->
  fs = IDENTICAL_BLOCK \/ fs = VALID_BLOCK \/ fs = DOUBLE_FORGING \/
  fs = TIE_BREAK \/ fs = DIFFERENT_CHAIN \/ fs = DISCARD.
Proof. unfold forkStatusList. set_solver. Qed.

Ltac world_eq :=
  unfold withCalls, withPublished; cbn;
  rewrite <- ?app_assoc; reflexivity.

(** Decides the comparisons of a known fork status with the members of the
    enum. *)
Ltac fs_decide :=
  pose proof ForkStatus_neq as Hneq; destruct_and! ;
  repeat match goal with
         | |- context [?a =? ?b] =>
             first [ rewrite (Z.eqb_refl a)
                   | rewrite (proj2 (Z.eqb_neq a b)) by congruence ]
         end.

(** Runs [process] up to the dispatch on a known fork status. *)
Ltac process_prefix Hbp Hfs Hin :=
  unfold process; unfold bind at 1; unfold lift at 1; rewrite Hbp;
  unfold bind at 1; unfold chain_lastBlock at 1, gets at 1;
  unfold bind at 1; unfold chain_newStateStore at 1;
  unfold bind at 1, record at 1, modify at 1, gets at 1;
  unfold bind at 1, record at 1, modify at 1; cbn [chain];
  unfold bind at 1, lift at 1; rewrite Hfs;
  rewrite (bool_decide_eq_true_2 _ Hin); cbn [negb]; fs_decide.

Lemma processValidated_tip this block lb bp so sb rt w b w' :
  _processValidated this block lb bp so sb rt w = (Ok b, w') ->
  b = block /\ lastBlock (chain w') = block.
Proof.
  unfold _processValidated. punfold. intros Hrun.
  repeat case_match; simplify_eq; done.
Qed.

Lemma processValidated_throw this block lb bp so sb rt w e w' :
  _processValidated this block lb bp so sb rt w = (Throw e, w') ->
  chain w' = chain w.
Proof.
  unfold _processValidated. punfold. intros Hrun.
  repeat case_match; simplify_eq; done.
Qed.

Lemma processValidated_success this block lb bp bp' so sb rt w st1 json st2 :
  _getBlockProcessor this block = Ok bp' ->
  verify_run bp block lb so (storeAt 0 (chain w)) = Ok st1 ->
  serialize_run bp' block = Ok json ->
  apply_run bp block lb so st1 = Ok st2 ->
  _processValidated this block lb bp so sb rt w =
  (Ok block,
   {| chain := saved block st2 (default false so) (chain w);
      published := published w ++
        (if negb (default false sb) then [broadcastNotification json] else []);
      calls := calls w ++
        [CNewStateStore 0; CVerify block lb; CSerialize block; CApply block lb;
         CSave block (default false so) rt] |}).
Proof.
  intros Hbp Hv Hs Ha. unfold _processValidated.
  unfold bind at 1. unfold chain_newStateStore, bind, record, modify, gets.
  cbn [chain]. unfold lift at 1. fold (storeAt 0 (chain w)). rewrite Hv.
  rewrite (serialize_eq _ _ bp') by done. rewrite Hs.
  destruct (negb (default false sb)); punfold; cbn; rewrite Ha;
    unfold saved; cbn; rewrite <- ?app_assoc, ?app_nil_r; reflexivity.
Qed.

Section Dispatch.

Variables (this : Processor S BlockJSON) (block : BlockInstance)
  (peerId : option string) (w : World S BlockJSON)
  (bp : BaseBlockProcessor S BlockJSON) (fs : Z).

Hypothesis Hbp : _getBlockProcessor this block = Ok bp.
Hypothesis Hfs : forkStatus_run bp block (lastBlock (chain w)) = Ok fs.

Let T := lastBlock (chain w).
Let prefix : list Call := [CNewStateStore 0; CForkStatus block T].

Lemma process_unknown :
  fs ∉ forkStatusList ->
  process this block peerId w = (Throw UnknownForkStatus, withCalls w prefix).
Proof.
  intros Hn. unfold process. punfold. rewrite Hbp. cbn. rewrite Hfs.
  rewrite bool_decide_eq_false_2 by done. world_eq.
Qed.

Lemma process_publishing (extra : BlockJSON -> list (Notification BlockJSON)) :
  (fs = DISCARD /\ extra = (fun _ => [])) \/
  (fs = DOUBLE_FORGING /\ extra = (fun _ => [])) \/
  (fs = DIFFERENT_CHAIN /\ extra = (fun json => [syncNotification json peerId])) ->
  process this block peerId w =
  match serialize_run bp block with
  | Ok json =>
      (Ok tt, withPublished (withCalls w (prefix ++ [CSerialize block]))
                (extra json ++ [forkNotification json]))
  | Throw e => (Throw e, withCalls w (prefix ++ [CSerialize block]))
  end.
Proof.
  intros Hcase.
  assert (Hin : fs ∈ forkStatusList) by (apply in_forkStatusList; naive_solver).
  destruct Hcase as [[-> ->]|[[-> ->]|[-> ->]]]; process_prefix Hbp Hfs Hin;
    unfold bind at 1; rewrite (serialize_eq _ _ bp) by done;
    destruct (serialize_run bp block); punfold; world_eq.
Qed.

Lemma process_identical :
  fs = IDENTICAL_BLOCK ->
  process this block peerId w = (Ok tt, withCalls w prefix).
Proof.
  intros ->.
  assert (Hin : IDENTICAL_BLOCK ∈ forkStatusList) by (apply in_forkStatusList; naive_solver).
  unfold process. punfold. rewrite Hbp. cbn. rewrite Hfs.
  rewrite (bool_decide_eq_true_2 _ Hin). cbn [negb]. fs_decide. world_eq.
Qed.

Lemma process_valid :
  fs = VALID_BLOCK ->
  process this block peerId w =
  match validate_run bp block T (storeAt 0 (chain w)) with
  | Throw e => (Throw e, withCalls w (prefix ++ [CValidate block T]))
  | Ok _ =>
      let (r, w') :=
        _processValidated this block T bp None None false
          (withCalls w (prefix ++ [CValidate block T])) in
      (outcome r, w')
  end.
Proof.
  intros ->.
  assert (Hin : VALID_BLOCK ∈ forkStatusList) by (apply in_forkStatusList; naive_solver).
  process_prefix Hbp Hfs Hin.
  unfold bind at 1, record at 1, modify at 1. cbn [chain published calls].
  unfold bind at 1, lift at 1. fold T. fold (storeAt 0 (chain w)).
  destruct (validate_run bp block T (storeAt 0 (chain w))) as [[]|e].
  - unfold bind at 1. unfold withCalls, prefix. cbn [app].
    rewrite <- !app_assoc. cbn [app].
    destruct (_processValidated _ _ _ _ _ _ _ _) as [[b|e] w']; reflexivity.
  - unfold withCalls, prefix. rewrite <- !app_assoc. reflexivity.
Qed.

Lemma process_tie_break :
  fs = TIE_BREAK ->
  process this block peerId w =
  match serialize_run bp block with
  | Throw e => (Throw e, withCalls w (prefix ++ [CSerialize block]))
  | Ok json =>
      let w0 :=
        withPublished (withCalls w (prefix ++ [CSerialize block; CValidate block T]))
          [forkNotification json] in
      match validate_run bp block T (storeAt 0 (chain w)) with
      | Throw e => (Throw e, w0)
      | Ok _ =>
          match undo_run bp T (storeAt 1 (chain w)) with
          | Throw e => (Throw e, withCalls w0 [CNewStateStore 1; CUndo T])
          | Ok stU =>
              let w0' := withCalls w0 [CNewStateStore 1; CUndo T; CRemove T false] in
              match List.find (fun b => String.eqb (id b) (previousBlockId T))
                      (persisted (chain w)) with
              | None => (Throw (ChainError "PreviousBlock is null"), w0')
              | Some P =>
                  let w1 :=
                    {| chain := removed T P stU (chain w);
                       published := published w0'; calls := calls w0' |} in
                  match _processValidated this block P bp None None false w1 with
                  | (Ok _, w2) => (Ok tt, w2)
                  | (Throw _, w2) =>
                      let (r, w3) :=
                        _processValidated this T P bp None (Some true) false w2 in
                      (outcome r, w3)
                  end
              end
          end
      end
  end.
Proof.
  intros ->.
  assert (Hin : TIE_BREAK ∈ forkStatusList) by (apply in_forkStatusList; naive_solver).
  process_prefix Hbp Hfs Hin.
  unfold bind at 1. rewrite (serialize_eq _ _ bp) by done.
  destruct (serialize_run bp block) as [json|e]; [|world_eq].
  unfold bind at 1, publish at 1, modify at 1.
  unfold bind at 1, record at 1, modify at 1.
  unfold bind at 1, lift at 1. cbn [chain published calls withCalls].
  fold T. fold (storeAt 0 (chain w)).
  destruct (validate_run bp block T (storeAt 0 (chain w))) as [[]|e]; [|world_eq].
  unfold bind at 1. unfold _deleteBlock.
  unfold bind at 1. unfold chain_newStateStore at 1.
  unfold bind at 1, record at 1, modify at 1, gets at 1.
  unfold bind at 1, record at 1, modify at 1. cbn [chain published calls].
  unfold bind at 1, lift at 1. fold (storeAt 1 (chain w)).
  destruct (undo_run bp T (storeAt 1 (chain w))) as [stU|e]; [|world_eq].
  unfold chain_remove at 1.
  unfold bind at 1, record at 1, modify at 1.
  unfold bind at 1, gets at 1. cbn [chain published calls].
  destruct (List.find _ (persisted (chain w))) as [P|]; [|unfold throw; world_eq].
  unfold setChain at 1, modify at 1.
  unfold bind at 1, chain_lastBlock at 1, gets at 1. cbn [chain lastBlock].
  unfold bind at 1, tryCatch.
  fold (removed T P stU (chain w)).
  cbn zeta.
  match goal with
  | |- context [_processValidated this block P bp None None false ?x] =>
      set (wl := x)
  end.
  match goal with
  | |- context [_processValidated this block P bp None None false ?y] =>
      lazymatch y with wl => fail | _ => set (wr := y) end
  end.
  assert (wl = wr) as ->.
  { subst wl wr. unfold withCalls, withPublished, prefix. cbn. f_equal.
    rewrite <- !app_assoc. reflexivity. }
  destruct (_processValidated this block P bp None None false _) as [[b|e] w2].
  - reflexivity.
  - destruct (_processValidated this T P bp None (Some true) false w2) as [[b|e'] w3];
      reflexivity.
Qed.

End Dispatch.

Section Genesis.

Variables (block : BlockInstance) (bp : BaseBlockProcessor S BlockJSON).

Let probe : list Call := [CNewStateStore 0; CExists block].

Lemma processGenesis_persisted w :
  id block ∈ id <$> persisted (chain w) ->
  _processGenesis block bp false w = (Ok block, withCalls w probe).
Proof.
  intros Hp. unfold _processGenesis. punfold. cbn.
  rewrite bool_decide_eq_true_2 by done. cbn. world_eq.
Qed.

Lemma processGenesis_missing w :
  id block ∉ id <$> persisted (chain w) ->
  _processGenesis block bp true w = (Throw GenesisNotPersisted, withCalls w probe).
Proof.
  intros Hp. unfold _processGenesis. punfold. cbn.
  rewrite bool_decide_eq_false_2 by done. cbn. world_eq.
Qed.

Lemma processGenesis_applies w (saveOnlyState : bool) :
  (id block ∈ id <$> persisted (chain w) <-> saveOnlyState = true) ->
  _processGenesis block bp saveOnlyState w =
  match applyGenesis_run bp block (storeAt 0 (chain w)) with
  | Ok stateStore =>
      (Ok block,
       {| chain := saved block stateStore saveOnlyState (chain w);
          published := published w;
          calls := calls w ++ probe ++
            [CApplyGenesis block; CSave block saveOnlyState false] |})
  | Throw e => (Throw e, withCalls w (probe ++ [CApplyGenesis block]))
  end.
Proof.
  intros Hp. unfold _processGenesis. punfold. cbn.
  fold (storeAt 0 (chain w)).
  destruct saveOnlyState.
  - rewrite bool_decide_eq_true_2 by (by apply Hp). cbn.
    destruct (applyGenesis_run bp block _); unfold saved, withCalls; cbn;
      rewrite <- ?app_assoc; reflexivity.
  - rewrite bool_decide_eq_false_2 by (intros Hin; apply Hp in Hin; done). cbn.
    destruct (applyGenesis_run bp block _); unfold saved, withCalls; cbn;
      rewrite <- ?app_assoc; reflexivity.
Qed.

Lemma processGenesis_idempotent w b w1 :
  _processGenesis block bp false w = (Ok b, w1) ->
  _processGenesis block bp false w1 =
  (Ok block, withCalls w1 [CNewStateStore 0; CExists block]).
Proof.
  intros Hrun. apply processGenesis_persisted.
  destruct (decide (id block ∈ id <$> persisted (chain w))) as [Hin|Hnin].
  - rewrite processGenesis_persisted in Hrun by done. by simplify_eq.
  - rewrite (processGenesis_applies _ false) in Hrun by (split; [done|discriminate]).
    destruct (applyGenesis_run bp block _); simplify_eq. cbn. set_solver.
Qed.

End Genesis.

Lemma elem_of_withCalls w (l : list Call) (c : Call) :
  c ∈ calls (withCalls w l) -> touchesChain c = true ->
  (forall c', c' ∈ l -> touchesChain c' = false) -> c ∈ calls w.
Proof.
  unfold withCalls. cbn. rewrite elem_of_app. intros [Hc|Hc] Ht Hl; [done|].
  rewrite (Hl c Hc) in Ht. discriminate.
Qed.

(** C1 (as amended). Given the fork status [fs] computed for a candidate:
    for DISCARD and DOUBLE_FORGING [process] serializes the block, publishes
    'app:chain:fork' and returns; for IDENTICAL_BLOCK it returns and publishes
    nothing; for DIFFERENT_CHAIN it publishes 'app:chain:sync' and then
    'app:chain:fork' and returns; for VALID_BLOCK it validates the block and
    then applies it on the tip, and the tip is the block when it returns.
    For every status other than VALID_BLOCK and TIE_BREAK the chain is left as
    it was and no call validates, verifies, applies, reverts or saves a
    block: the candidate is validated and applied for VALID_BLOCK and for
    TIE_BREAK only. *)
Theorem process_dispatch this block (peerId : option string) w bp (fs : Z) :
  _getBlockProcessor this block = Ok bp ->
  forkStatus_run bp block (lastBlock (chain w)) = Ok fs ->
  let T := lastBlock (chain w) in
  let prefix := [CNewStateStore 0; CForkStatus block T] in
  let result := process this block peerId w in
  (fs = DISCARD \/ fs = DOUBLE_FORGING ->
   result =
   match serialize_run bp block with
   | Ok json =>
       (Ok tt, withPublished (withCalls w (prefix ++ [CSerialize block]))
                 [forkNotification json])
   | Throw e => (Throw e, withCalls w (prefix ++ [CSerialize block]))
   end) /\
  (fs = IDENTICAL_BLOCK -> result = (Ok tt, withCalls w prefix)) /\
  (fs = DIFFERENT_CHAIN ->
   result =
   match serialize_run bp block with
   | Ok json =>
       (Ok tt, withPublished (withCalls w (prefix ++ [CSerialize block]))
                 [syncNotification json peerId; forkNotification json])
   | Throw e => (Throw e, withCalls w (prefix ++ [CSerialize block]))
   end) /\
  (fs = VALID_BLOCK ->
   result =
   match validate_run bp block T (storeAt 0 (chain w)) with
   | Throw e => (Throw e, withCalls w (prefix ++ [CValidate block T]))
   | Ok _ =>
       let (r, w') :=
         _processValidated this block T bp None None false
           (withCalls w (prefix ++ [CValidate block T])) in
       (outcome r, w')
   end) /\
  (fs = VALID_BLOCK -> fst result = Ok tt -> lastBlock (chain (snd result)) = block) /\
  (fs <> VALID_BLOCK -> fs <> TIE_BREAK ->
   chain (snd result) = chain w /\
   forall c, c ∈ calls (snd result) -> touchesChain c = true -> c ∈ calls w).
Proof.
  intros Hbp Hfs T prefix result.
  pose proof (process_publishing this block peerId w bp fs Hbp Hfs (fun _ => []))
    as H1.
  pose proof (process_identical this block peerId w bp fs Hbp Hfs) as H2.
  pose proof (process_publishing this block peerId w bp fs Hbp Hfs
                (fun json => [syncNotification json peerId])) as H3.
  pose proof (process_valid this block peerId w bp fs Hbp Hfs) as H4.
  cbn zeta in *. fold T in H1, H2, H3, H4. fold prefix in H1, H2, H3, H4.
  fold result in H1, H2, H3, H4. cbn [app] in H1, H3.
  split; [intros Hc; apply H1; naive_solver|].
  split; [exact H2|].
  split; [intros Hc; apply H3; naive_solver|].
  split; [exact H4|].
  split.
  - intros Hv. rewrite (H4 Hv).
    destruct (validate_run bp block T _) as [[]|e]; [|discriminate].
    destruct (_processValidated _ _ _ _ _ _ _ _) as [[b|e] w'] eqn:Hpv; [|discriminate].
    intros _. by apply processValidated_tip in Hpv as [_ ?].
  - intros Hnv Hnt.
    assert (Hshape : exists l pub,
      snd result = withPublished (withCalls w l) pub /\
      forall c', c' ∈ l -> touchesChain c' = false).
    { destruct (decide (fs ∈ forkStatusList)) as [Hin|Hnin].
      - apply in_forkStatusList in Hin
          as [Hc|[Hc|[Hc|[Hc|[Hc|Hc]]]]]; try done.
        + rewrite (H2 Hc). exists prefix, []. split.
          * unfold withPublished. cbn. by rewrite app_nil_r.
          * unfold prefix. intros c' Hc'. set_unfold. by destruct Hc' as [->|[->|[]]].
        + rewrite H1 by naive_solver. exists (prefix ++ [CSerialize block]).
          destruct (serialize_run bp block); eexists; (split;
            [try reflexivity|
             unfold prefix; intros c' Hc'; set_unfold; naive_solver]).
          unfold withPublished. cbn. by rewrite app_nil_r.
        + rewrite H3 by naive_solver. exists (prefix ++ [CSerialize block]).
          destruct (serialize_run bp block); eexists; (split;
            [try reflexivity|
             unfold prefix; intros c' Hc'; set_unfold; naive_solver]).
          unfold withPublished. cbn. by rewrite app_nil_r.
        + rewrite H1 by naive_solver. exists (prefix ++ [CSerialize block]).
          destruct (serialize_run bp block); eexists; (split;
            [try reflexivity|
             unfold prefix; intros c' Hc'; set_unfold; naive_solver]).
          unfold withPublished. cbn. by rewrite app_nil_r.
      - unfold result. rewrite (process_unknown this block peerId w bp fs Hbp Hfs Hnin).
        exists prefix, []. split.
        + unfold withPublished. cbn. by rewrite app_nil_r.
        + unfold prefix. intros c' Hc'. set_unfold. by destruct Hc' as [->|[->|[]]]. }
    destruct Hshape as (l & pub & -> & Hl). split; [reflexivity|].
    intros c Hc Ht. by apply (elem_of_withCalls w l c).
Qed.

(** C9. When the computed fork status is none of the six known ones,
    [process] throws 'Unknown fork status'; the chain and the published
    notifications are as before, and the only calls made are the opening of a
    state store and the fork-status pipeline. *)
Theorem process_unknown_fork_status this block (peerId : option string) w bp (fs : Z) :
  _getBlockProcessor this block = Ok bp ->
  forkStatus_run bp block (lastBlock (chain w)) = Ok fs ->
  fs ∉ forkStatusList ->
  process this block peerId w =
  (Throw UnknownForkStatus,
   withCalls w [CNewStateStore 0; CForkStatus block (lastBlock (chain w))]).
Proof. intros Hbp Hfs Hn. by apply (process_unknown this block peerId w bp fs). Qed.

(** C2 (as amended). For a candidate classified TIE_BREAK against the tip
    [T], [process] serializes the candidate, publishes 'app:chain:fork' and
    validates the candidate before anything is reverted: when serialization
    or validation throws, the error is propagated and the chain is as it
    was. Otherwise [process] reverts [T] (undo, then removal from the chain;
    an error of either is propagated) and applies the candidate on the
    reverted chain. If that application succeeds the candidate is the tip.
    If it throws, the chain is still the reverted one, [T] is applied again
    on it without broadcast and the error of the candidate is dropped: when
    the re-application succeeds [process] returns normally with [T] as the
    tip, and when it throws, its error is propagated and the chain stays the
    reverted one. *)
Theorem process_tie_break_replaces this block (peerId : option string) w bp :
  let T := lastBlock (chain w) in
  let prefix := [CNewStateStore 0; CForkStatus block T] in
  _getBlockProcessor this block = Ok bp ->
  forkStatus_run bp block T = Ok TIE_BREAK ->
  let result := process this block peerId w in
  (forall e, serialize_run bp block = Throw e ->
     result = (Throw e, withCalls w (prefix ++ [CSerialize block]))) /\
  (forall json, serialize_run bp block = Ok json ->
     let w0 :=
       withPublished (withCalls w (prefix ++ [CSerialize block; CValidate block T]))
         [forkNotification json] in
     (forall e, validate_run bp block T (storeAt 0 (chain w)) = Throw e ->
        result = (Throw e, w0)) /\
     (validate_run bp block T (storeAt 0 (chain w)) = Ok tt ->
      (forall e, undo_run bp T (storeAt 1 (chain w)) = Throw e ->
         result = (Throw e, withCalls w0 [CNewStateStore 1; CUndo T])) /\
      (forall stU, undo_run bp T (storeAt 1 (chain w)) = Ok stU ->
         let w0' := withCalls w0 [CNewStateStore 1; CUndo T; CRemove T false] in
         (List.find (fun b => String.eqb (id b) (previousBlockId T))
            (persisted (chain w)) = None ->
          result = (Throw (ChainError "PreviousBlock is null"), w0')) /\
         (forall P,
            List.find (fun b => String.eqb (id b) (previousBlockId T))
              (persisted (chain w)) = Some P ->
            let w1 :=
              {| chain := removed T P stU (chain w);
                 published := published w0'; calls := calls w0' |} in
            (forall b w2,
               _processValidated this block P bp None None false w1 = (Ok b, w2) ->
               result = (Ok tt, w2) /\ lastBlock (chain w2) = block) /\
            (forall e w2,
               _processValidated this block P bp None None false w1 = (Throw e, w2) ->
               chain w2 = removed T P stU (chain w) /\
               (forall b w3,
                  _processValidated this T P bp None (Some true) false w2 = (Ok b, w3) ->
                  result = (Ok tt, w3) /\ lastBlock (chain w3) = T) /\
               (forall e' w3,
                  _processValidated this T P bp None (Some true) false w2
                    = (Throw e', w3) ->
                  result = (Throw e', w3) /\
                  chain w3 = removed T P stU (chain w))))))).
Proof.
  intros T prefix Hbp Hfs result.
  pose proof (process_tie_break this block peerId w bp TIE_BREAK Hbp Hfs eq_refl) as Heq.
  fold T prefix result in Heq.
  split.
  { intros e Hs. by rewrite Hs in Heq. }
  intros json Hs w0. rewrite Hs in Heq. cbn zeta in Heq. fold w0 in Heq.
  split.
  { intros e Hv. by rewrite Hv in Heq. }
  intros Hv. rewrite Hv in Heq. split.
  { intros e Hu. by rewrite Hu in Heq. }
  intros stU Hu w0'. rewrite Hu in Heq. fold w0' in Heq. split.
  { intros HP. by rewrite HP in Heq. }
  intros P HP w1. rewrite HP in Heq. fold w1 in Heq. split.
  - intros b w2 Hrun. rewrite Hrun in Heq. split; [exact Heq|].
    by apply processValidated_tip in Hrun as [_ ?].
  - intros e w2 Hrun. rewrite Hrun in Heq.
    assert (Hc2 : chain w2 = removed T P stU (chain w))
      by by apply processValidated_throw in Hrun.
    split; [exact Hc2|]. split.
    + intros b w3 Hre. rewrite Hre in Heq. split; [exact Heq|].
      by apply processValidated_tip in Hre as [_ ?].
    + intros e' w3 Hre. rewrite Hre in Heq. split; [exact Heq|].
      apply processValidated_throw in Hre. by rewrite Hre.
Qed.

(** C8. [_processGenesis]: when the genesis block is persisted and no
    state-only application is asked for, the block is returned and neither
    [applyGenesis] nor [save] is called; when a state-only application is
    asked for and the block is not persisted, the call throws; in the two
    remaining cases [applyGenesis] runs and, when it succeeds, block and
    state are saved. A second application after a successful one returns the
    block without touching the chain. *)
Theorem processGenesis_cases block bp w :
  let probe := [CNewStateStore 0; CExists block] in
  (id block ∈ id <$> persisted (chain w) ->
   _processGenesis block bp false w = (Ok block, withCalls w probe)) /\
  (id block ∉ id <$> persisted (chain w) ->
   _processGenesis block bp true w = (Throw GenesisNotPersisted, withCalls w probe)) /\
  (forall saveOnlyState : bool,
     (id block ∈ id <$> persisted (chain w) <-> saveOnlyState = true) ->
     _processGenesis block bp saveOnlyState w =
     match applyGenesis_run bp block (storeAt 0 (chain w)) with
     | Ok stateStore =>
         (Ok block,
          {| chain := saved block stateStore saveOnlyState (chain w);
             published := published w;
             calls := calls w ++ probe ++
               [CApplyGenesis block; CSave block saveOnlyState false] |})
     | Throw e => (Throw e, withCalls w (probe ++ [CApplyGenesis block]))
     end) /\
  (forall b w1,
     _processGenesis block bp false w = (Ok b, w1) ->
     _processGenesis block bp false w1 = (Ok block, withCalls w1 probe)).
Proof.
  intros probe. split; [apply processGenesis_persisted|].
  split; [apply processGenesis_missing|].
  split; [intros sos; apply processGenesis_applies|].
  apply processGenesis_idempotent.
Qed.

End ProcessorProofs.

(** The theorem at a block classified DISCARD. *)
Lemma process_dispatch_witness :
  @process bftForkStatus _ _ (demo 6 []) nextBlock None world0 =
  (Ok tt,
   withPublished
     (withCalls world0
        [CNewStateStore 0; CForkStatus nextBlock tipBlock; CSerialize nextBlock])
     [forkNotification "N"%string]).
Proof.
  destruct (@process_dispatch bftForkStatus _ _ (demo 6 []) nextBlock None world0
              (demoProcessor 6 []) 6 eq_refl eq_refl) as [Hd _].
  exact (Hd (or_introl eq_refl)).
Defined.

(** C1 as stated fails: a candidate classified TIE_BREAK, which is not
    VALID_BLOCK, is validated and then applied, and becomes the tip. *)
Lemma process_tie_break_counterexample :
  forkStatus_run (demoProcessor 4 []) candidate tipBlock = Ok (@TIE_BREAK bftForkStatus) /\
  @TIE_BREAK bftForkStatus <> @VALID_BLOCK bftForkStatus /\
  fst (@process bftForkStatus _ _ (demo 4 []) candidate None world0) = Ok tt /\
  calls (snd (@process bftForkStatus _ _ (demo 4 []) candidate None world0)) =
    [CNewStateStore 0; CForkStatus candidate tipBlock; CSerialize candidate;
     CValidate candidate tipBlock; CNewStateStore 1; CUndo tipBlock;
     CRemove tipBlock false; CNewStateStore 0; CVerify candidate genesisBlock;
     CSerialize candidate; CApply candidate genesisBlock;
     CSave candidate false false] /\
  lastBlock (chain (snd (@process bftForkStatus _ _ (demo 4 []) candidate None world0)))
    = candidate.
Proof. repeat split; try (vm_compute; reflexivity). discriminate. Qed.

(** The theorem at a block classified with the unknown status 9. *)
Lemma process_unknown_fork_status_witness :
  @process bftForkStatus _ _ (demo 9 []) nextBlock None world0 =
  (Throw UnknownForkStatus,
   withCalls world0 [CNewStateStore 0; CForkStatus nextBlock tipBlock]).
Proof.
  apply (@process_unknown_fork_status bftForkStatus _ _ (demo 9 []) nextBlock None
           world0 (demoProcessor 9 []) 9).
  - vm_compute. reflexivity.
  - reflexivity.
  - apply (bool_decide_unpack _). exact I.
Defined.

(** The theorem at a tie-breaking candidate whose application is rejected:
    [process] returns normally and the tip is the previous one. *)
Lemma process_tie_break_replaces_witness :
  fst (@process bftForkStatus _ _ (demo 4 ["C"%string]) candidate None world0) = Ok tt /\
  lastBlock (chain (snd (@process bftForkStatus _ _ (demo 4 ["C"%string]) candidate
                           None world0))) = tipBlock.
Proof.
  destruct (@process_tie_break_replaces bftForkStatus _ _ (demo 4 ["C"%string])
              candidate None world0 (demoProcessor 4 ["C"%string]))
    as [_ Hser]; try (vm_compute; reflexivity).
  destruct (Hser "C"%string eq_refl) as [_ Hval].
  destruct (Hval eq_refl) as [_ Hundo].
  destruct (Hundo {| view := ["G"%string]; baseline := [genesisBlock] |} eq_refl)
    as [_ Hparent].
  destruct (Hparent genesisBlock eq_refl) as [_ Hfail].
  edestruct Hfail as (_ & Hre & _); [vm_compute; reflexivity|].
  edestruct Hre as [Hp Hl]; [vm_compute; reflexivity|].
  rewrite Hp. split; [reflexivity|exact Hl].
Defined.

(** C2 as stated fails. A tie-breaking candidate that does not pass
    validation is never applied and the tip is never reverted: [process]
    throws the error of the validation, having made no call that reverts or
    applies a block. And when the application of the candidate and the
    re-application of the old tip both throw, the error is propagated and the
    tip is the parent of the old tip, not the old tip. *)
Lemma process_tie_break_invalid_counterexample :
  forkStatus_run (validatingProcessor 4 ["C"%string]) candidate tipBlock =
    Ok (@TIE_BREAK bftForkStatus) /\
  @process bftForkStatus _ _ (demoValidating 4 ["C"%string]) candidate None world0 =
    (Throw (PipelineError "validate"),
     {| chain := chain world0;
        published := [forkNotification "C"%string];
        calls := [CNewStateStore 0; CForkStatus candidate tipBlock;
                  CSerialize candidate; CValidate candidate tipBlock] |}) /\
  forkStatus_run (demoProcessor 4 ["C"%string; "T"%string]) candidate tipBlock =
    Ok (@TIE_BREAK bftForkStatus) /\
  fst (@process bftForkStatus _ _ (demo 4 ["C"%string; "T"%string]) candidate None world0)
    = Throw (PipelineError "apply") /\
  lastBlock (chain (snd (@process bftForkStatus _ _ (demo 4 ["C"%string; "T"%string])
                           candidate None world0))) = genesisBlock /\
  genesisBlock <> tipBlock.
Proof. repeat split; try (vm_compute; reflexivity). discriminate. Qed.

(** The theorem at the first application of a genesis block. *)
Lemma processGenesis_cases_witness :
  _processGenesis genesisBlock (demoProcessor 2 []) false emptyWorld =
  (Ok genesisBlock,
   {| chain := {| lastBlock := genesisBlock; persisted := [genesisBlock];
                  committed := ["G"%string] |};
      published := [];
      calls := [CNewStateStore 0; CExists genesisBlock; CApplyGenesis genesisBlock;
                CSave genesisBlock false false] |}).
Proof.
  destruct (processGenesis_cases genesisBlock (demoProcessor 2 []) emptyWorld)
    as (_ & _ & Ha & _).
  rewrite (Ha false); [reflexivity|].
  split; [|discriminate]. intros Hin.
  apply (bool_decide_pack _) in Hin. destruct Hin.
Defined.

End ProcessorFacts.

Module InteropFacts.

Import Interop.

Ltac iunfold :=
  unfold isLive in *;
  unfold createTerminatedStateAccount, terminateChainInternal, recordCall,
    store_get, store_has in *;
  unfold bind, ret, throw, gets, modify, lift, tryCatch in *.

Section SidechainTerminatedFacts.

Variable mainchainKey : Buffer.
Variable decode : Buffer -> Result Error CCMSidechainTerminatedParams.
Variables (context : CCCommandExecuteContext) (m : CCMsg)
  (p : CCMSidechainTerminatedParams) (s : Stores).

Hypothesis Hccm : ccm context = Some m.
Hypothesis Hdec : decode (params m) = Ok p.

Lemma execute_already_terminated account :
  sendingChainID m = mainchainKey ->
  terminatedStates s !! p_chainID p = Some account ->
  execute mainchainKey decode context s = (Ok tt, s).
Proof.
  intros Hm Ht. unfold execute. rewrite Hccm. iunfold. rewrite Hdec.
  unfold Buffer_equals. rewrite bool_decide_eq_true_2 by done. by rewrite Ht.
Qed.

Lemma execute_not_terminated_throws :
  sendingChainID m = mainchainKey ->
  terminatedStates s !! p_chainID p = None ->
  execute mainchainKey decode context s = (Throw NotFoundError, s).
Proof.
  intros Hm Ht. unfold execute. rewrite Hccm. iunfold. rewrite Hdec.
  unfold Buffer_equals. rewrite bool_decide_eq_true_2 by done. by rewrite Ht.
Qed.

Lemma execute_other_sender :
  sendingChainID m <> mainchainKey ->
  execute mainchainKey decode context s = terminateChainInternal (sendingChainID m) s.
Proof.
  intros Hm. unfold execute. rewrite Hccm. unfold bind at 1, lift. rewrite Hdec.
  unfold Buffer_equals. by rewrite bool_decide_eq_false_2.
Qed.

End SidechainTerminatedFacts.

Lemma execute_never_creates mainchainKey decode context s :
  terminatedStates (snd (execute mainchainKey decode context s)) = terminatedStates s.
Proof.
  unfold execute. iunfold. repeat case_match; simplify_eq; done.
Qed.

(** C6 (the failing input). A sidechain-terminated message sent by the
    mainchain for a chain that has no terminated-state entry: the lookup in
    the terminated-state store throws [NotFoundError], so no account is
    created and the stores are left as they were. *)
Theorem sidechainTerminated_from_mainchain_throws :
  terminatedStates noStores !! sidechain3 = None /\
  execute mainKey demoDecode (contextFrom mainKey) noStores
  = (Throw NotFoundError, noStores).
Proof. split; [done|]. vm_compute. reflexivity. Qed.

Section LivenessFacts.

Variable LIVENESS_LIMIT : Z.
Variables (context : CommandContext) (s : Stores).

Let chainID := cmd_chainID context.

Lemma verify_no_account :
  chainAccounts s !! chainID = None ->
  verify LIVENESS_LIMIT context s = (Throw ChainAccountDoesNotExist, s).
Proof.
  intros Hc. unfold verify. iunfold. fold chainID. rewrite Hc.
  rewrite bool_decide_eq_false_2 by (by intros [? ?]). reflexivity.
Qed.

Lemma verify_account account :
  chainAccounts s !! chainID = Some account ->
  verify LIVENESS_LIMIT context s =
  if bool_decide (status account = TERMINATED)
  then (Throw SidechainAlreadyTerminated, s)
  else if cmd_timestamp context - lc_timestamp (lastCertificate account)
          <=? LIVENESS_LIMIT
       then (Throw LivenessNotViolated, s)
       else (Ok {| vr_status := VerifyOK |}, s).
Proof.
  intros Hc. unfold verify. iunfold. fold chainID. rewrite Hc.
  rewrite bool_decide_eq_true_2 by eauto. cbn. rewrite Hc.
  destruct (bool_decide (status account = TERMINATED)); [reflexivity|].
  rewrite Hc. by destruct (_ <=? _).
Qed.

Lemma executeLiveness_eq :
  executeLiveness context s =
  (Ok tt,
   {| chainAccounts := alter terminate chainID (chainAccounts s);
      terminatedStates := terminatedStates s;
      channels := delete chainID (channels s);
      internalCalls := internalCalls s ++ [TerminateChainInternal chainID] |}).
Proof. reflexivity. Qed.

End LivenessFacts.

(** C7. [verify] rejects when the chain account does not exist, when it is
    already TERMINATED and when the last certificate is within the liveness
    threshold, and returns OK otherwise; [execute] always succeeds, calls the
    internal terminate-chain routine for the chain of the parameters, and
    leaves the status of an existing chain account TERMINATED. *)
Theorem liveness_termination (LIVENESS_LIMIT : Z) (context : CommandContext) (s : Stores) :
  let chainID := cmd_chainID context in
  let age account := cmd_timestamp context - lc_timestamp (lastCertificate account) in
  (chainAccounts s !! chainID = None ->
   verify LIVENESS_LIMIT context s = (Throw ChainAccountDoesNotExist, s)) /\
  (forall account, chainAccounts s !! chainID = Some account ->
     (status account = TERMINATED ->
      verify LIVENESS_LIMIT context s = (Throw SidechainAlreadyTerminated, s)) /\
     (status account <> TERMINATED -> age account <= LIVENESS_LIMIT ->
      verify LIVENESS_LIMIT context s = (Throw LivenessNotViolated, s)) /\
     (status account <> TERMINATED -> LIVENESS_LIMIT < age account ->
      verify LIVENESS_LIMIT context s = (Ok {| vr_status := VerifyOK |}, s)) /\
     status <$> chainAccounts (snd (executeLiveness context s)) !! chainID
       = Some TERMINATED) /\
  fst (executeLiveness context s) = Ok tt /\
  internalCalls (snd (executeLiveness context s))
    = internalCalls s ++ [TerminateChainInternal chainID].
Proof.
  intros chainID age. split; [apply verify_no_account|]. split; [|by rewrite executeLiveness_eq].
  intros account Hc. rewrite (verify_account _ _ _ _ Hc). repeat split.
  - intros Ht. by rewrite bool_decide_eq_true_2.
  - intros Ht Hage. rewrite bool_decide_eq_false_2 by done.
    fold (age account). destruct (age account <=? LIVENESS_LIMIT) eqn:E; [done|lia].
  - intros Ht Hage. rewrite bool_decide_eq_false_2 by done.
    fold (age account). destruct (age account <=? LIVENESS_LIMIT) eqn:E; [lia|done].
  - rewrite executeLiveness_eq. cbn. fold chainID.
    rewrite lookup_alter_eq, Hc. done.
Qed.

(** The theorem at a chain certified 950 seconds ago and at one certified 50
    seconds ago, with a threshold of 100. *)
Lemma liveness_termination_witness :
  verify 100 {| cmd_chainID := sidechain3; cmd_timestamp := 1000 |}
    (storesWith (staleAccount ACTIVE 50))
  = (Ok {| vr_status := VerifyOK |}, storesWith (staleAccount ACTIVE 50)) /\
  status <$>
    chainAccounts
      (snd (executeLiveness {| cmd_chainID := sidechain3; cmd_timestamp := 1000 |}
              (storesWith (staleAccount ACTIVE 50)))) !! sidechain3
  = Some TERMINATED /\
  verify 100 {| cmd_chainID := sidechain3; cmd_timestamp := 1000 |}
    (storesWith (staleAccount ACTIVE 950))
  = (Throw LivenessNotViolated, storesWith (staleAccount ACTIVE 950)).
Proof.
  split; [|split].
  - destruct (liveness_termination 100
                {| cmd_chainID := sidechain3; cmd_timestamp := 1000 |}
                (storesWith (staleAccount ACTIVE 50))) as (_ & Hacc & _).
    destruct (Hacc (staleAccount ACTIVE 50)) as (_ & _ & Hok & _);
      [vm_compute; reflexivity|].
    apply Hok; [discriminate|vm_compute; reflexivity].
  - destruct (liveness_termination 100
                {| cmd_chainID := sidechain3; cmd_timestamp := 1000 |}
                (storesWith (staleAccount ACTIVE 50))) as (_ & Hacc & _).
    destruct (Hacc (staleAccount ACTIVE 50)) as (_ & _ & _ & Hterm);
      [vm_compute; reflexivity|].
    exact Hterm.
  - destruct (liveness_termination 100
                {| cmd_chainID := sidechain3; cmd_timestamp := 1000 |}
                (storesWith (staleAccount ACTIVE 950))) as (_ & Hacc & _).
    destruct (Hacc (staleAccount ACTIVE 950)) as (_ & Hlive & _);
      [vm_compute; reflexivity|].
    apply Hlive; [discriminate|vm_compute; discriminate].
Defined.

End InteropFacts.

Module CertificateFacts.

Import CertificateUtils.

(** C10. [verifySingleCertificateSignature] returns [true] whatever the public
    key, the signature, the network identifier and the certificate are. *)
Theorem verifySingleCertificateSignature_accepts_all
  (pk signature networkIdentifier : Buffer) (certificate : Certificate) :
  verifySingleCertificateSignature pk signature networkIdentifier certificate = true.
Proof. reflexivity. Qed.

End CertificateFacts.

Module TokenLocking.

Import Token TokenNotions TokenFacts.

(** ** The methods as functions of the stores *)

Lemma account_read s a c u :
  account s a c = Some u <-> readStore (userStore s) (getUserStoreKey a c) = Ok u.
Proof. apply readStore_lookup. Qed.

Lemma account_stored s a c u :
  account s a c = Some u ->
  userStore s !! getUserStoreKey a c = Some (encode u) /\ validates u = true.
Proof. intros Hu%account_read. by apply readStore_Ok. Qed.

Lemma account_insert s a c u :
  validates u = true ->
  account (set_userStore (insert (getUserStoreKey a c) (encode u)) s) a c = Some u.
Proof.
  intros Hu. apply account_read. cbn [userStore set_userStore].
  by rewrite readStore_insert_eq, Hu.
Qed.

Lemma readStoreOr_account s a c u dflt :
  account s a c = Some u -> readStoreOr (userStore s) (getUserStoreKey a c) dflt = Ok u.
Proof. intros Hu%account_read. by apply readStore_readStoreOr. Qed.

Lemma getAvailableBalance_run this a t s :
  getAvailableBalance this a t s =
  (match readStoreOr (userStore s) (getUserStoreKey a (canonicalOf this t)) emptyUser with
   | Ok user => Ok (availableBalance user)
   | Throw e => Throw e
   end, s).
Proof.
  unfold getAvailableBalance. unfold bind at 1.
  rewrite getCanonicalTokenID_run. munfold. unfold readStoreOr, readStore.
  destruct (userStore s !! _) as [bytes|]; [|by rewrite bool_decide_eq_true_2].
  destruct (decode bytes); [done|]. by rewrite bool_decide_eq_false_2.
Qed.

Lemma getLockedAmount_run this a t m s :
  getLockedAmount this a t m s =
  (match readStoreOr (userStore s) (getUserStoreKey a (canonicalOf this t)) emptyUser with
   | Ok user => Ok (lockedAmountOf m (lockedBalances user))
   | Throw e => Throw e
   end, s).
Proof.
  unfold getLockedAmount, lockedAmountOf. unfold bind at 1.
  rewrite getCanonicalTokenID_run. munfold. unfold readStoreOr, readStore.
  destruct (userStore s !! _) as [bytes|]; [|by rewrite bool_decide_eq_true_2].
  destruct (decode bytes); [done|]. by rewrite bool_decide_eq_false_2.
Qed.

(** ** Locked balances: lookup by module and order *)

Lemma find_app_split {A} (P : A -> bool) (l1 l2 : list A) :
  List.find P (l1 ++ l2) =
  match List.find P l1 with Some y => Some y | None => List.find P l2 end.
Proof. induction l1 as [|y l1 IH]; simpl; [done|]. by destruct (P y). Qed.

Lemma find_none_Forall {A} (P : A -> bool) (l : list A) :
  Forall (fun y => P y = false) l -> List.find P l = None.
Proof. induction 1 as [|y l Hy _ IH]; simpl; [done|]. by rewrite Hy. Qed.

(** What [findIndex] and the entry it points at say about the list. *)
Lemma list_find_module l m i b :
  list_find (fun b => lb_moduleID b = m) l = Some (i, b) ->
  exists l1 l2,
    l = l1 ++ b :: l2 /\ i = length l1 /\ lb_moduleID b = m /\
    Forall (fun y => (lb_moduleID y =? m) = false) l1.
Proof.
  intros (Hi & Hb & Hlt)%list_find_Some.
  apply list_elem_of_split_length in Hi as (l1 & l2 & -> & ->).
  exists l1, l2. repeat split; [done|].
  apply Forall_lookup. intros j y Hj.
  apply Z.eqb_neq, (Hlt j).
  - by rewrite lookup_app_l by (by eapply lookup_lt_Some).
  - by eapply lookup_lt_Some.
Qed.

Lemma list_find_module_None l m :
  list_find (fun b => lb_moduleID b = m) l = None ->
  Forall (fun y => (lb_moduleID y =? m) = false) l.
Proof.
  intros Hn%list_find_None. eapply Forall_impl; [exact Hn|].
  intros y Hy. by apply Z.eqb_neq.
Qed.

Lemma lockedAmountOf_app m l1 l2 :
  lockedAmountOf m (l1 ++ l2) =
  match List.find (fun lb => lb_moduleID lb =? m) l1 with
  | Some lb => lb_amount lb
  | None => lockedAmountOf m l2
  end.
Proof. unfold lockedAmountOf. rewrite find_app_split. by destruct (List.find _ l1). Qed.

Lemma lockedAmountOf_cons m x l :
  lockedAmountOf m (x :: l) =
  if lb_moduleID x =? m then lb_amount x else lockedAmountOf m l.
Proof. unfold lockedAmountOf. simpl. by destruct (lb_moduleID x =? m). Qed.

Lemma lockedAmountOf_absent m l :
  Forall (fun y => (lb_moduleID y =? m) = false) l -> lockedAmountOf m l = 0.
Proof. intros Hl. unfold lockedAmountOf. by rewrite find_none_Forall. Qed.

Lemma lockedAmountOf_insertByModuleID m x l :
  lockedAmountOf m (insertByModuleID x l) =
  if lb_moduleID x =? m then lb_amount x else lockedAmountOf m l.
Proof.
  induction l as [|y l IH]; cbn [insertByModuleID].
  - by rewrite lockedAmountOf_cons.
  - destruct (lb_moduleID x <=? lb_moduleID y) eqn:Hle.
    + by rewrite lockedAmountOf_cons.
    + rewrite !lockedAmountOf_cons, IH.
      destruct (lb_moduleID y =? m) eqn:Hy, (lb_moduleID x =? m) eqn:Hx; try done.
      lia.
Qed.

(** The sort is stable, so the first entry of a module stays the first. *)
Lemma lockedAmountOf_sort m l :
  lockedAmountOf m (sortByModuleID l) = lockedAmountOf m l.
Proof.
  unfold sortByModuleID. induction l as [|x l IH]; [done|].
  cbn [foldr]. by rewrite lockedAmountOf_insertByModuleID, IH, lockedAmountOf_cons.
Qed.

Lemma insertByModuleID_sorted x l :
  StronglySorted (fun a b => lb_moduleID a <= lb_moduleID b) l ->
  StronglySorted (fun a b => lb_moduleID a <= lb_moduleID b) (insertByModuleID x l).
Proof.
  intros Hs. induction Hs as [|y l' Hl IH Hy]; cbn [insertByModuleID].
  - repeat constructor.
  - destruct (lb_moduleID x <=? lb_moduleID y) eqn:Hle.
    + constructor; [by constructor|]. constructor; [lia|].
      eapply Forall_impl; [exact Hy|]. intros z Hz. simpl in Hz. lia.
    + constructor; [exact IH|]. rewrite insertByModuleID_perm.
      constructor; [lia|exact Hy].
Qed.

Lemma sortByModuleID_sorted l :
  StronglySorted (fun a b => lb_moduleID a <= lb_moduleID b) (sortByModuleID l).
Proof.
  unfold sortByModuleID. induction l as [|x l IH]; cbn [foldr]; [constructor|].
  by apply insertByModuleID_sorted.
Qed.

Lemma sortedByModule_NoDup l : sortedByModule l -> NoDup (lb_moduleID <$> l).
Proof.
  intros Hs. induction Hs as [|x l' Hl IH Hx]; simpl; constructor; [|done].
  intros (y & Hy & Hin)%list_elem_of_fmap.
  rewrite Forall_forall in Hx. specialize (Hx y Hin). lia.
Qed.

Lemma sorted_NoDup_strict l :
  StronglySorted (fun a b => lb_moduleID a <= lb_moduleID b) l ->
  NoDup (lb_moduleID <$> l) -> sortedByModule l.
Proof.
  intros Hs. induction Hs as [|x l' Hl IH Hx]; simpl; intros Hnd; [constructor|].
  apply NoDup_cons in Hnd as [Hx' Hnd]. constructor; [by apply IH|].
  rewrite Forall_forall in Hx |- *. intros y Hy. specialize (Hx y Hy).
  enough (lb_moduleID x ≠ lb_moduleID y) by lia.
  intros E. apply Hx'. rewrite E. by apply list_elem_of_fmap_2.
Qed.

Lemma sortByModuleID_strict l :
  NoDup (lb_moduleID <$> l) -> sortedByModule (sortByModuleID l).
Proof.
  intros Hnd. apply sorted_NoDup_strict; [apply sortByModuleID_sorted|].
  by rewrite sortByModuleID_perm.
Qed.

Lemma sortedByModule_unique l1 l2 :
  sortedByModule l1 -> sortedByModule l2 -> l1 ≡ₚ l2 -> l1 = l2.
Proof.
  apply StronglySorted_unique_strong. intros x1 x2 _ _ H1 H2. lia.
Qed.

(** Sorting a list that is in order leaves it as it is. *)
Lemma sortByModuleID_id l : sortedByModule l -> sortByModuleID l = l.
Proof.
  intros Hl. apply sortedByModule_unique; [|done|apply sortByModuleID_perm].
  by apply sortByModuleID_strict, sortedByModule_NoDup.
Qed.

Lemma sortedByModule_middle l1 b l2 x :
  lb_moduleID x = lb_moduleID b ->
  sortedByModule (l1 ++ b :: l2) -> sortedByModule (l1 ++ x :: l2).
Proof.
  unfold sortedByModule. intros Hx.
  rewrite !StronglySorted_app, !StronglySorted_cons.
  intros (H12 & H1 & Hb & H2). repeat split; try done.
  - intros y z Hy [->|Hz]%elem_of_cons.
    + rewrite Hx. apply (H12 y b Hy). left.
    + apply (H12 y z Hy). by right.
  - eapply Forall_impl; [exact Hb|]. intros z Hz. simpl in Hz. lia.
Qed.

Lemma sortedByModule_delete l1 b l2 :
  sortedByModule (l1 ++ b :: l2) -> sortedByModule (l1 ++ l2).
Proof.
  unfold sortedByModule. rewrite !StronglySorted_app, !StronglySorted_cons.
  intros (H12 & H1 & Hb & H2). repeat split; try done.
  intros y z Hy Hz. apply (H12 y z Hy). by right.
Qed.

Lemma sortedByModule_tail_absent l1 b l2 :
  sortedByModule (l1 ++ b :: l2) ->
  Forall (fun y => (lb_moduleID y =? lb_moduleID b) = false) l2.
Proof.
  unfold sortedByModule. rewrite StronglySorted_app, StronglySorted_cons.
  intros (_ & _ & Hb & _). eapply Forall_impl; [exact Hb|].
  intros z Hz. simpl in Hz. lia.
Qed.

Lemma insert_middle (l1 l2 : list LockedBalance) b x :
  <[length l1 := x]> (l1 ++ b :: l2) = l1 ++ x :: l2.
Proof. rewrite insert_app_r_alt by lia. by rewrite Nat.sub_diag. Qed.

(** The locked balances [lock] writes, read back per module. *)
Lemma lockedAmountOf_locked m v l m' :
  lockedAmountOf m'
    (sortByModuleID
       match list_find (fun b => lb_moduleID b = m) l with
       | Some (i, b) => <[i := {| lb_moduleID := m; lb_amount := lb_amount b + v |}]> l
       | None => l ++ [{| lb_moduleID := m; lb_amount := v |}]
       end) =
  if bool_decide (m' = m) then lockedAmountOf m' l + v else lockedAmountOf m' l.
Proof.
  rewrite lockedAmountOf_sort.
  destruct (list_find _ l) as [[i b]|] eqn:Hf.
  - apply list_find_module in Hf as (l1 & l2 & -> & -> & Hb & Hl1).
    rewrite insert_middle, !lockedAmountOf_app, !lockedAmountOf_cons. cbn.
    case_bool_decide as Hm.
    + subst m'. rewrite (find_none_Forall _ _ Hl1), Hb, Z.eqb_refl. done.
    + destruct (List.find _ l1); [done|].
      rewrite Hb. by rewrite (proj2 (Z.eqb_neq m m')) by done.
  - apply list_find_module_None in Hf.
    rewrite lockedAmountOf_app, lockedAmountOf_cons. cbn.
    case_bool_decide as Hm.
    + subst m'. rewrite (find_none_Forall _ _ Hf), Z.eqb_refl.
      by rewrite (lockedAmountOf_absent _ _ Hf).
    + rewrite (proj2 (Z.eqb_neq m m')) by done.
      unfold lockedAmountOf. by destruct (List.find _ l).
Qed.

(** The locked balances [unlock] writes, read back per module. *)
Lemma lockedAmountOf_unlocked m v l i b m' :
  sortedByModule l ->
  list_find (fun b => lb_moduleID b = m) l = Some (i, b) ->
  lockedAmountOf m'
    (if negb (lb_amount b - v =? 0)
     then <[i := {| lb_moduleID := lb_moduleID b; lb_amount := lb_amount b - v |}]> l
     else delete i l) =
  if bool_decide (m' = m) then lockedAmountOf m' l - v else lockedAmountOf m' l.
Proof.
  intros Hs (l1 & l2 & -> & -> & Hb & Hl1)%list_find_module.
  pose proof (sortedByModule_tail_absent _ _ _ Hs) as Hl2. rewrite Hb in Hl2.
  destruct (lb_amount b - v =? 0) eqn:Hz; cbn [negb].
  - rewrite delete_middle, !lockedAmountOf_app, !lockedAmountOf_cons.
    case_bool_decide as Hm.
    + subst m'. rewrite (find_none_Forall _ _ Hl1), Hb, Z.eqb_refl.
      rewrite (lockedAmountOf_absent _ _ Hl2). lia.
    + destruct (List.find _ l1); [done|].
      rewrite Hb. by rewrite (proj2 (Z.eqb_neq m m')) by done.
  - rewrite insert_middle, !lockedAmountOf_app, !lockedAmountOf_cons. cbn.
    case_bool_decide as Hm.
    + subst m'. rewrite (find_none_Forall _ _ Hl1), Hb, Z.eqb_refl. done.
    + destruct (List.find _ l1); [done|].
      rewrite Hb. by rewrite (proj2 (Z.eqb_neq m m')) by done.
Qed.

(** ** Locking and unlocking *)

(** [lock] followed by the readers. A successful [lock] of [v] for module
    [m] takes [v], which is between 0 and the available balance, off what
    [getAvailableBalance] returns and adds it to what [getLockedAmount]
    returns for [m]; what is locked for every other module reads as
    before. *)
Theorem lock_moves_available_to_locked this a m t v s s' :
  lock this a m t v s = (Ok tt, s') ->
  exists avail,
    getAvailableBalance this a t s = (Ok avail, s) /\
    0 <= v <= avail /\
    getAvailableBalance this a t s' = (Ok (avail - v), s') /\
    forall m', exists locked,
      getLockedAmount this a t m' s = (Ok locked, s) /\
      getLockedAmount this a t m' s' =
      (Ok (if bool_decide (m' = m) then locked + v else locked), s').
Proof.
  intros Hrun. rewrite lock_run in Hrun. cbn zeta in Hrun.
  destruct (v <? 0) eqn:Hv; [done|].
  destruct (readStore (userStore s) _) as [user|] eqn:Hu; [|done].
  destruct (availableBalance user <? v) eqn:Ha; [done|].
  injection Hrun as <-.
  pose proof (balanceOf_read _ _ _ Hu) as [_ Hval].
  destruct (lock_record user m v Hval) as [Hval' _]; [lia|].
  exists (availableBalance user).
  rewrite !getAvailableBalance_run.
  rewrite (readStore_readStoreOr _ _ _ _ Hu).
  rewrite (readStoreOr_account _ a (canonicalOf this t) _ _ (account_insert s a _ _ Hval')).
  repeat split; [lia|lia|].
  intros m'. eexists. rewrite !getLockedAmount_run.
  rewrite (readStore_readStoreOr _ _ _ _ Hu).
  rewrite (readStoreOr_account _ a (canonicalOf this t) _ _ (account_insert s a _ _ Hval')).
  split; [reflexivity|]. cbn. by rewrite lockedAmountOf_locked.
Qed.

(** The theorem at a lock of 30 for module 5 on an account holding 100
    available and 40 locked by that module. *)
Lemma lock_moves_available_to_locked_witness :
  exists avail,
    getAvailableBalance demoAPI alice T_native st2 = (Ok avail, st2) /\
    0 <= 30 <= avail /\
    getAvailableBalance demoAPI alice T_native
      (snd (lock demoAPI alice 5 T_native 30 st2)) =
    (Ok (avail - 30), snd (lock demoAPI alice 5 T_native 30 st2)) /\
    forall m', exists locked,
      getLockedAmount demoAPI alice T_native m' st2 = (Ok locked, st2) /\
      getLockedAmount demoAPI alice T_native m'
        (snd (lock demoAPI alice 5 T_native 30 st2)) =
      (Ok (if bool_decide (m' = 5) then locked + 30 else locked),
       snd (lock demoAPI alice 5 T_native 30 st2)).
Proof.
  apply (lock_moves_available_to_locked demoAPI alice 5 T_native 30 st2).
  vm_compute. reflexivity.
Defined.

(** [unlock] followed by the readers, on an account whose locked balances
    hold one entry per module in increasing order. A successful [unlock] of
    [v] for module [m] takes [v], which is between 0 and what was locked for
    [m], off what [getLockedAmount] returns for [m] and adds it to what
    [getAvailableBalance] returns; what is locked for every other module
    reads as before. *)
Theorem unlock_moves_locked_to_available this a m t v s s' user :
  account s a (canonicalOf this t) = Some user ->
  sortedByModule (lockedBalances user) ->
  unlock this a m t v s = (Ok tt, s') ->
  getAvailableBalance this a t s = (Ok (availableBalance user), s) /\
  getAvailableBalance this a t s' = (Ok (availableBalance user + v), s') /\
  0 <= v <= lockedAmountOf m (lockedBalances user) /\
  forall m',
    getLockedAmount this a t m' s = (Ok (lockedAmountOf m' (lockedBalances user)), s) /\
    getLockedAmount this a t m' s' =
    (Ok (if bool_decide (m' = m) then lockedAmountOf m' (lockedBalances user) - v
         else lockedAmountOf m' (lockedBalances user)), s').
Proof.
  intros Hu Hs Hrun. rewrite unlock_run in Hrun. cbn zeta in Hrun.
  pose proof (proj1 (account_read _ _ _ _) Hu) as Hr. rewrite Hr in Hrun.
  destruct (v <? 0) eqn:Hv; [done|].
  destruct (list_find _ _) as [[i b]|] eqn:Hf; [|done].
  destruct (lb_amount b <? v) eqn:Hb; [done|].
  injection Hrun as <-.
  pose proof (balanceOf_read _ _ _ Hr) as [_ Hval].
  destruct (unlock_record user m v i b Hval Hf) as [Hval' _]; [lia|].
  rewrite !getAvailableBalance_run.
  rewrite (readStore_readStoreOr _ _ _ _ Hr).
  rewrite (readStoreOr_account _ a (canonicalOf this t) _ _ (account_insert s a _ _ Hval')).
  repeat split; try lia.
  - pose proof Hf as (l1 & l2 & Hl & _ & Hm & Hl1)%list_find_module.
    rewrite Hl, lockedAmountOf_app, (find_none_Forall _ _ Hl1), lockedAmountOf_cons.
    rewrite Hm, Z.eqb_refl. lia.
  - rewrite getLockedAmount_run. by rewrite (readStore_readStoreOr _ _ _ _ Hr).
  - rewrite getLockedAmount_run.
    rewrite (readStoreOr_account _ a (canonicalOf this t) _ _
               (account_insert s a _ _ Hval')).
    cbn. by rewrite (lockedAmountOf_unlocked m v _ i b m' Hs Hf).
Qed.

(** The theorem at an unlock of 30 for module 5 on an account holding 100
    available and 40 locked by that module. *)
Lemma unlock_moves_locked_to_available_witness :
  getAvailableBalance demoAPI alice T_native
    (snd (unlock demoAPI alice 5 T_native 30 st2)) =
  (Ok 130, snd (unlock demoAPI alice 5 T_native 30 st2)) /\
  getLockedAmount demoAPI alice T_native 5
    (snd (unlock demoAPI alice 5 T_native 30 st2)) =
  (Ok 10, snd (unlock demoAPI alice 5 T_native 30 st2)).
Proof.
  destruct (unlock_moves_locked_to_available demoAPI alice 5 T_native 30 st2
              (snd (unlock demoAPI alice 5 T_native 30 st2))
              {| availableBalance := 100;
                 lockedBalances := [ {| lb_moduleID := 5; lb_amount := 40 |} ] |})
    as (_ & Ha & _ & Hl).
  - vm_compute. reflexivity.
  - repeat constructor.
  - vm_compute. reflexivity.
  - split; [exact Ha|]. exact (proj2 (Hl 5)).
Defined.

Lemma list_find_module_middle l1 x l2 m :
  Forall (fun y => (lb_moduleID y =? m) = false) l1 -> lb_moduleID x = m ->
  list_find (fun b => lb_moduleID b = m) (l1 ++ x :: l2) = Some (length l1, x).
Proof.
  intros Hl1 Hx. apply list_find_Some. repeat split; [|done|].
  - by rewrite list_lookup_middle.
  - intros j y Hj Hlt. rewrite lookup_app_l in Hj by done.
    rewrite Forall_lookup in Hl1. by apply Z.eqb_neq, (Hl1 j).
Qed.

Lemma list_find_module_absent l m :
  Forall (fun y => (lb_moduleID y =? m) = false) l ->
  list_find (fun b => lb_moduleID b = m) l = None.
Proof.
  intros Hl. apply list_find_None. eapply Forall_impl; [exact Hl|].
  intros y Hy. by apply Z.eqb_neq.
Qed.

Lemma absent_not_elem (l : list LockedBalance) m :
  Forall (fun y => (lb_moduleID y =? m) = false) l -> m ∉ lb_moduleID <$> l.
Proof.
  rewrite Forall_forall. intros Hl (y & -> & Hy)%list_elem_of_fmap.
  specialize (Hl y Hy). lia.
Qed.

Lemma NoDup_snoc_module (l : list LockedBalance) x :
  sortedByModule l ->
  Forall (fun y => (lb_moduleID y =? lb_moduleID x) = false) l ->
  NoDup (lb_moduleID <$> l ++ [x]).
Proof.
  intros Hs Hl. rewrite fmap_app. apply NoDup_app.
  split; [by apply sortedByModule_NoDup|]. split; [|apply NoDup_singleton].
  intros y Hy ->%list_elem_of_singleton. by apply (absent_not_elem l (lb_moduleID x)).
Qed.

(** The order [lock] and [unlock] keep. When the locked balances of the
    account hold one entry per module in increasing order of module
    identifier, they still do after a successful [lock] and after a successful
    [unlock]. *)
Theorem lock_unlock_keep_order this a m t v s s' user :
  account s a (canonicalOf this t) = Some user ->
  sortedByModule (lockedBalances user) ->
  lock this a m t v s = (Ok tt, s') \/ unlock this a m t v s = (Ok tt, s') ->
  exists user',
    account s' a (canonicalOf this t) = Some user' /\
    sortedByModule (lockedBalances user').
Proof.
  intros Hu Hs Hcall.
  pose proof (proj1 (account_read _ _ _ _) Hu) as Hr.
  pose proof (balanceOf_read _ _ _ Hr) as [_ Hval].
  destruct Hcall as [Hrun|Hrun].
  - rewrite lock_run in Hrun. cbn zeta in Hrun. rewrite Hr in Hrun.
    destruct (v <? 0) eqn:Hv; [done|].
    destruct (availableBalance user <? v) eqn:Ha; [done|].
    injection Hrun as <-.
    destruct (lock_record user m v Hval) as [Hval' _]; [lia|].
    eexists. split; [by apply account_insert|]. cbn [lockedBalances].
    apply sortByModuleID_strict.
    destruct (list_find _ _) as [[i b]|] eqn:Hf.
    + apply list_find_module in Hf as (l1 & l2 & Hl & -> & Hb & Hl1).
      rewrite Hl, insert_middle. apply sortedByModule_NoDup.
      rewrite Hl in Hs. by apply (sortedByModule_middle l1 b l2).
    + apply list_find_module_None in Hf. by apply NoDup_snoc_module.
  - rewrite unlock_run in Hrun. cbn zeta in Hrun. rewrite Hr in Hrun.
    destruct (v <? 0) eqn:Hv; [done|].
    destruct (list_find _ _) as [[i b]|] eqn:Hf; [|done].
    destruct (lb_amount b <? v) eqn:Hlb; [done|].
    injection Hrun as <-.
    destruct (unlock_record user m v i b Hval Hf) as [Hval' _]; [lia|].
    eexists. split; [by apply account_insert|]. cbn [lockedBalances].
    apply list_find_module in Hf as (l1 & l2 & Hl & -> & Hb & Hl1).
    rewrite Hl in Hs |- *.
    destruct (negb _).
    + rewrite insert_middle. by apply (sortedByModule_middle l1 b l2).
    + rewrite delete_middle. by apply (sortedByModule_delete l1 b l2).
Qed.

(** The theorem at a lock of 30 for a module without lock, 3, on the account
    that has 40 locked by module 5. *)
Lemma lock_unlock_keep_order_witness :
  exists user',
    account (snd (lock demoAPI alice 3 T_native 30 st2)) alice T_native = Some user' /\
    sortedByModule (lockedBalances user').
Proof.
  apply (lock_unlock_keep_order demoAPI alice 3 T_native 30 st2
           (snd (lock demoAPI alice 3 T_native 30 st2))
           {| availableBalance := 100;
              lockedBalances := [ {| lb_moduleID := 5; lb_amount := 40 |} ] |}).
  - vm_compute. reflexivity.
  - repeat constructor.
  - left. vm_compute. reflexivity.
Defined.

Lemma set_userStore_restore k (bytes bytes1 : Encoded UserStoreData) s :
  userStore s !! k = Some bytes ->
  set_userStore (insert k bytes) (set_userStore (insert k bytes1) s) = s.
Proof.
  intros Hu. destruct s as [us ss es ls]. unfold set_userStore. cbn in *.
  by rewrite insert_insert_eq, insert_id.
Qed.

(** [lock] and [unlock] undo each other. On an account whose locked
    balances hold one entry per module in increasing order, all of them
    positive: an [unlock] of the amount a successful [lock] has just locked,
    for the same module and token, succeeds and leaves every store as it was
    before the [lock]. And when the available balance is not negative, a
    [lock] of the amount a successful [unlock] has just released succeeds and
    leaves every store as it was before the [unlock]. *)
Theorem lock_unlock_inverse this a m t v s s1 user :
  account s a (canonicalOf this t) = Some user ->
  sortedByModule (lockedBalances user) ->
  (Forall (fun b => 0 < lb_amount b) (lockedBalances user) ->
   lock this a m t v s = (Ok tt, s1) ->
   unlock this a m t v s1 = (Ok tt, s)) /\
  (0 <= availableBalance user ->
   unlock this a m t v s = (Ok tt, s1) ->
   lock this a m t v s1 = (Ok tt, s)).
Proof.
  intros Hu Hs.
  pose proof (proj1 (account_read _ _ _ _) Hu) as Hr.
  pose proof (account_stored _ _ _ _ Hu) as [Hk Hval].
  split.
  - intros Hpos Hrun. rewrite lock_run in Hrun. cbn zeta in Hrun. rewrite Hr in Hrun.
    destruct (v <? 0) eqn:Hv; [done|].
    destruct (availableBalance user <? v) eqn:Ha; [done|].
    destruct (lock_record user m v Hval) as [Hval' _]; [lia|].
    injection Hrun as <-. rewrite unlock_run. cbn zeta.
    cbn [userStore set_userStore]. rewrite Hv, readStore_insert_eq, Hval'.
    cbn [availableBalance lockedBalances].
    destruct user as [avail l]. cbn [availableBalance lockedBalances] in *.
    destruct (list_find _ l) as [[i b]|] eqn:Hf.
    + apply list_find_module in Hf as (l1 & l2 & -> & -> & Hb & Hl1).
      assert (Hb0 : 0 < lb_amount b).
      { rewrite Forall_forall in Hpos. apply Hpos.
        apply elem_of_app. right. left. }
      rewrite insert_middle.
      rewrite sortByModuleID_id by by apply (sortedByModule_middle l1 b l2).
      rewrite (list_find_module_middle l1
                 {| lb_moduleID := m; lb_amount := lb_amount b + v |} l2 m Hl1 eq_refl).
      cbn [lb_amount lb_moduleID].
      destruct (lb_amount b + v <? v) eqn:E1; [lia|].
      destruct (lb_amount b + v - v =? 0) eqn:E2; [lia|]. cbn [negb].
      rewrite insert_middle.
      replace (lb_amount b + v - v) with (lb_amount b) by lia.
      replace (avail - v + v) with avail by lia.
      rewrite <- Hb. destruct b as [bm ba]. cbn [lb_moduleID lb_amount].
      by rewrite set_userStore_restore.
    + apply list_find_module_None in Hf.
      set (x := {| lb_moduleID := m; lb_amount := v |}).
      assert (Hnd : NoDup (lb_moduleID <$> l ++ [x])) by by apply NoDup_snoc_module.
      pose proof (sortByModuleID_strict _ Hnd) as Hs'.
      pose proof (sortByModuleID_perm (l ++ [x])) as Hp.
      assert (Hx : x ∈ sortByModuleID (l ++ [x])).
      { rewrite Hp. apply elem_of_app. right. left. }
      destruct (list_find_elem_of (fun b => lb_moduleID b = m) _ x Hx eq_refl)
        as [[i b] Hfind].
      rewrite Hfind.
      pose proof Hfind as (Hi & Hbm & _)%list_find_Some.
      assert (b = x) as ->.
      { apply list_elem_of_lookup_2 in Hi. rewrite Hp in Hi.
        apply elem_of_app in Hi as [Hi| ->%list_elem_of_singleton]; [|done].
        rewrite Forall_forall in Hf. specialize (Hf b Hi). lia. }
      cbn [lb_amount x]. rewrite Z.ltb_irrefl, Z.sub_diag. cbn [negb Z.eqb].
      assert (Hdel : delete i (sortByModuleID (l ++ [x])) = l).
      { apply sortedByModule_unique; [|done|].
        - apply list_find_module in Hfind as (l1 & l2 & El & -> & _ & _).
          rewrite El, delete_middle. rewrite El in Hs'.
          by apply (sortedByModule_delete l1 x l2).
        - apply (Permutation_cons_inv (a := x)).
          rewrite <- (delete_Permutation _ _ _ Hi), Hp.
          by rewrite Permutation_app_comm. }
      rewrite Hdel. replace (avail - v + v) with avail by lia.
      by rewrite set_userStore_restore.
  - intros Hav Hrun. rewrite unlock_run in Hrun. cbn zeta in Hrun. rewrite Hr in Hrun.
    destruct (v <? 0) eqn:Hv; [done|].
    destruct (list_find _ (lockedBalances user)) as [[i b]|] eqn:Hf; [|done].
    destruct (lb_amount b <? v) eqn:Hb; [done|].
    destruct (unlock_record user m v i b Hval Hf) as [Hval' _]; [lia|].
    injection Hrun as <-. rewrite lock_run. cbn zeta.
    cbn [userStore set_userStore]. rewrite Hv, readStore_insert_eq, Hval'.
    cbn [availableBalance lockedBalances].
    destruct user as [avail l]. cbn [availableBalance lockedBalances] in *.
    destruct (avail + v <? v) eqn:E0; [lia|].
    replace (avail + v - v) with avail by lia.
    apply list_find_module in Hf as (l1 & l2 & -> & -> & Hbm & Hl1).
    pose proof (sortedByModule_tail_absent _ _ _ Hs) as Hl2. rewrite Hbm in Hl2.
    destruct (lb_amount b - v =? 0) eqn:Hz; cbn [negb].
    + rewrite delete_middle.
      rewrite (list_find_module_absent (l1 ++ l2) m) by by apply Forall_app.
      assert (Hx : {| lb_moduleID := m; lb_amount := v |} = b).
      { destruct b as [bm ba]. cbn in *. f_equal; lia. }
      rewrite Hx.
      assert (Hp : (l1 ++ l2) ++ [b] ≡ₚ l1 ++ b :: l2).
      { rewrite <- app_assoc. apply Permutation_app_head.
        by rewrite Permutation_app_comm. }
      assert (Hsort : sortByModuleID ((l1 ++ l2) ++ [b]) = l1 ++ b :: l2).
      { apply sortedByModule_unique; [|done|by rewrite sortByModuleID_perm].
        apply sortByModuleID_strict. rewrite Hp. by apply sortedByModule_NoDup. }
      rewrite Hsort. by rewrite set_userStore_restore.
    + rewrite insert_middle.
      rewrite (list_find_module_middle l1
                 {| lb_moduleID := lb_moduleID b; lb_amount := lb_amount b - v |}
                 l2 m Hl1 Hbm).
      rewrite insert_middle. cbn [lb_amount].
      replace (lb_amount b - v + v) with (lb_amount b) by lia.
      rewrite <- Hbm. destruct b as [bm ba]. cbn [lb_moduleID lb_amount].
      rewrite sortByModuleID_id by done.
      by rewrite set_userStore_restore.
Qed.

(** The theorem at a lock of 30 for a module without lock, 3, and at an
    unlock of the 40 locked by module 5. *)
Lemma lock_unlock_inverse_witness :
  unlock demoAPI alice 3 T_native 30 (snd (lock demoAPI alice 3 T_native 30 st2)) =
  (Ok tt, st2) /\
  lock demoAPI alice 5 T_native 40 (snd (unlock demoAPI alice 5 T_native 40 st2)) =
  (Ok tt, st2).
Proof.
  split.
  - apply (lock_unlock_inverse demoAPI alice 3 T_native 30 st2
             (snd (lock demoAPI alice 3 T_native 30 st2))
             {| availableBalance := 100;
                lockedBalances := [ {| lb_moduleID := 5; lb_amount := 40 |} ] |}).
    + vm_compute. reflexivity.
    + repeat constructor.
    + repeat constructor.
    + vm_compute. reflexivity.
  - apply (lock_unlock_inverse demoAPI alice 5 T_native 40 st2
             (snd (unlock demoAPI alice 5 T_native 40 st2))
             {| availableBalance := 100;
                lockedBalances := [ {| lb_moduleID := 5; lb_amount := 40 |} ] |}).
    + vm_compute. reflexivity.
    + repeat constructor.
    + cbn. lia.
    + vm_compute. reflexivity.
Defined.

End TokenLocking.

Module TokenSupply.

Import Token TokenNotions TokenFacts TokenLocking.

(** ** Reading and failing *)

Lemma readOnly_call this op s : readOnly op = true -> snd (call this op s) = s.
Proof.
  destruct op; try discriminate; intros _;
    unfold call, getAvailableBalance, getLockedAmount, getEscrowedAmount,
      getNextAvailableLocalID;
    mrun; done.
Qed.

(** The methods that only read leave the four substores as they are, whether
    they return or throw. *)
Theorem read_only_methods_write_nothing this op s :
  readOnly op = true -> snd (call this op s) = s.
Proof. apply readOnly_call. Qed.

(** The theorem at a reading of the balance of an address without account. *)
Lemma read_only_methods_write_nothing_witness :
  snd (call demoAPI (OpGetAvailableBalance bob T_native) st2) = st2.
Proof. apply (read_only_methods_write_nothing demoAPI). reflexivity. Defined.

(** [mint], [lock] and [unlock] make all their checks before their first
    write: when one of them throws, and when a method that only reads throws,
    the four substores are as they were before the call. *)
Theorem failed_call_writes_nothing this op s e s' :
  checksBeforeWriting op = true ->
  call this op s = (Throw e, s') -> s' = s.
Proof.
  intros Hop Hrun.
  destruct (readOnly op) eqn:Hread.
  - pose proof (readOnly_call this op s Hread) as Hs.
    by rewrite Hrun in Hs.
  - destruct op; try discriminate; cbn [call] in Hrun.
    + rewrite mint_run in Hrun. cbn zeta in Hrun.
      repeat case_match; by simplify_eq.
    + rewrite lock_run in Hrun. cbn zeta in Hrun.
      repeat case_match; by simplify_eq.
    + rewrite unlock_run in Hrun. cbn zeta in Hrun.
      repeat case_match; by simplify_eq.
Qed.

(** The theorem at an unlock of 50 where 40 are locked. *)
Lemma failed_call_writes_nothing_witness :
  snd (call demoAPI (OpUnlock alice 5 T_native 50) st2) = st2.
Proof.
  apply (failed_call_writes_nothing demoAPI (OpUnlock alice 5 T_native 50) st2
           NotEnoughLocked).
  - reflexivity.
  - vm_compute. reflexivity.
Defined.

(** ** Supply *)

Lemma minBalance_nonneg this c :
  Forall (fun mb => 0 <= mb_amount mb) (_minBalances this) ->
  0 <= minBalance_value (_getMinBalance this c).
Proof.
  intros Hall. unfold _getMinBalance.
  destruct (List.find _ _) as [mb|] eqn:Hf; cbn; [|lia].
  apply find_some in Hf as [Hin _]. rewrite Forall_forall in Hall.
  by apply Hall, list_elem_of_In.
Qed.

(** What a successful [mint] credits, when no configured min balance is
    negative. The total supply of the token and the available balance of the
    address grow by the same amount, which is between 0 and the amount asked
    for; and the total supply stays within [MAX_UINT64]. *)
Theorem mint_credits_supply_and_balance this a t v s s' :
  Forall (fun mb => 0 <= mb_amount mb) (_minBalances this) ->
  mint this a t v s = (Ok tt, s') ->
  let c := canonicalOf this t in
  let localID := snd (splitTokenID c) in
  exists supply received,
    storedSupply s localID = Some supply /\
    0 <= received <= v /\
    storedSupply s' localID = Some (supply + received) /\
    supply + received <= MAX_UINT64 /\
    storedBalance s' a c = Some (default 0 (storedBalance s a c) + received).
Proof.
  intros Hmb Hrun c localID. rewrite mint_run in Hrun. cbn zeta in Hrun.
  fold c localID in Hrun.
  pose proof (minBalance_nonneg this c Hmb) as Hnn.
  destruct (nativeToken c); cbn [negb] in Hrun; [|done].
  destruct (v <? 0) eqn:Hv; [done|].
  destruct (supplyStore s !! localID) as [bytes|] eqn:Hsup; [|done].
  destruct (readStore (supplyStore s) localID) as [supply|e] eqn:Hsupply; [|done].
  destruct (totalSupply supply >? MAX_UINT64 - v) eqn:Hmax; [done|].
  pose proof (proj1 (readStore_Ok _ _ _) Hsupply) as [_ Hvs].
  unfold validates, supplyStoreSchema in Hvs. apply Z.leb_le in Hvs.
  exists (totalSupply supply).
  assert (Hcredited : forall received,
            0 <= received <= v ->
            match readStoreOr (userStore s) (getUserStoreKey a c) emptyUser with
            | Ok recipient =>
                (Ok tt,
                 set_supplyStore
                   (insert localID
                      (encode {| totalSupply := totalSupply supply + received |}))
                   (set_userStore
                      (insert (getUserStoreKey a c) (encode (credit recipient received)))
                      s))
            | Throw e => (Throw e, s)
            end = (Ok tt, s') ->
            storedSupply s localID = Some (totalSupply supply) /\
            0 <= received <= v /\
            storedSupply s' localID = Some (totalSupply supply + received) /\
            totalSupply supply + received <= MAX_UINT64 /\
            storedBalance s' a c = Some (default 0 (storedBalance s a c) + received)).
  { clear Hrun. intros received Hrec Hrun'.
    destruct (readStoreOr _ _ _) as [recipient|e] eqn:Hr; [|done].
    injection Hrun' as <-.
    pose proof (balanceOf_readOr _ _ _ Hr) as [_ Hval].
    apply validates_user in Hval as Hval'. destruct Hval' as [Hav _].
    split; [apply storedSupply_Some; eauto|]. split; [done|].
    split.
    { apply storedSupply_Some.
      exists {| totalSupply := totalSupply supply + received |}. split; [|done].
      cbn [supplyStore set_supplyStore]. rewrite readStore_insert_eq.
      unfold validates, supplyStoreSchema. cbn.
      destruct (0 <=? totalSupply supply + received) eqn:E; [done|lia]. }
    split; [lia|].
    apply storedBalance_Some. exists (credit recipient received). split.
    - cbn [userStore set_supplyStore set_userStore]. rewrite readStore_insert_eq.
      rewrite validates_credit; [done|done|lia].
    - cbn. f_equal. apply readStoreOr_Ok in Hr as [Hr|[Hk ->]].
      + assert (Hsb : storedBalance s a c = Some (availableBalance recipient))
          by (apply storedBalance_Some; eauto).
        by rewrite Hsb.
      + unfold storedBalance. by rewrite Hk. }
  destruct (_accountExist (userStore s) a).
  - exists v. apply Hcredited; [lia|done].
  - destruct (falsy _); [done|].
    destruct (minBalance_value (_getMinBalance this c) >? v) eqn:Hle; [done|].
    exists (v - minBalance_value (_getMinBalance this c)).
    apply Hcredited; [lia|done].
Qed.

(** The theorem at a mint of 30 to an address without account, the min
    balance being 5. *)
Lemma mint_credits_supply_and_balance_witness :
  exists supply received,
    storedSupply st2 localOne = Some supply /\
    0 <= received <= 30 /\
    storedSupply (snd (mint demoAPI bob T_native 30 st2)) localOne =
      Some (supply + received) /\
    supply + received <= MAX_UINT64 /\
    storedBalance (snd (mint demoAPI bob T_native 30 st2)) bob T_native =
      Some (default 0 (storedBalance st2 bob T_native) + received).
Proof.
  apply (mint_credits_supply_and_balance demoAPI bob T_native 30 st2).
  - repeat constructor; cbn; lia.
  - vm_compute. reflexivity.
Defined.



(** ** Transfers *)











(** ** Minting to an address without account *)



End TokenSupply.

Module TokenIdentifiers.

Import Token TokenNotions TokenFacts TokenSupply.

(** ** Big-endian local identifiers *)

Lemma byte_to_N_of_Z z : Byte.to_N (byte_of_Z z) = Z.to_N (z mod 256).
Proof.
  unfold byte_of_Z. destruct (Byte.of_N _) as [b|] eqn:E.
  - by apply Byte.to_of_N.
  - apply Byte.of_N_None_iff in E.
    pose proof (Z.mod_pos_bound z 256 ltac:(lia)). lia.
Qed.

Lemma readUInt32BE_write v y :
  writeUInt32BE v = Some y -> readUInt32BE y = Some v.
Proof.
  unfold writeUInt32BE. destruct (_ && _) eqn:Hr; [|done].
  intros [= <-]. cbn [readUInt32BE]. rewrite !byte_to_N_of_Z.
  apply andb_prop in Hr as [H0 H1].
  f_equal. rewrite !Z2N.id by (apply Z.mod_pos_bound; lia).
  Z.div_mod_to_equations. lia.
Qed.

Lemma Buffer_compare_uint32 a b x y :
  length a = 4%nat -> length b = 4%nat ->
  readUInt32BE a = Some x -> readUInt32BE b = Some y ->
  Buffer_compare a b = (x ?= y).
Proof.
  intros Ha Hb.
  destruct a as [|a0 [|a1 [|a2 [|a3 [|]]]]]; try done.
  destruct b as [|b0 [|b1 [|b2 [|b3 [|]]]]]; try done.
  cbn [readUInt32BE]. intros [= <-] [= <-]. cbn [Buffer_compare].
  pose proof (Byte.to_N_bounded a0). pose proof (Byte.to_N_bounded a1).
  pose proof (Byte.to_N_bounded a2). pose proof (Byte.to_N_bounded a3).
  pose proof (Byte.to_N_bounded b0). pose proof (Byte.to_N_bounded b1).
  pose proof (Byte.to_N_bounded b2). pose proof (Byte.to_N_bounded b3).
  symmetry.
  destruct (N.compare_spec (Byte.to_N a0) (Byte.to_N b0));
    [|apply Z.compare_lt_iff; lia|apply Z.compare_gt_iff; lia].
  destruct (N.compare_spec (Byte.to_N a1) (Byte.to_N b1));
    [|apply Z.compare_lt_iff; lia|apply Z.compare_gt_iff; lia].
  destruct (N.compare_spec (Byte.to_N a2) (Byte.to_N b2));
    [|apply Z.compare_lt_iff; lia|apply Z.compare_gt_iff; lia].
  destruct (N.compare_spec (Byte.to_N a3) (Byte.to_N b3));
    [apply Z.compare_eq_iff; lia|apply Z.compare_lt_iff; lia|apply Z.compare_gt_iff; lia].
Qed.

Lemma length_writeUInt32BE v y : writeUInt32BE v = Some y -> length y = 4%nat.
Proof. unfold writeUInt32BE. destruct (_ && _); [|done]. by intros [= <-]. Qed.

Lemma initializeToken_run localID s :
  initializeToken localID s =
  if bool_decide (is_Some (supplyStore s !! localID))
  then (Throw TokenAlreadyInitialized, s)
  else
    let s1 := set_supplyStore (insert localID (encode {| totalSupply := 0 |})) s in
    match readStore (availableLocalIDStore s) EMPTY_BYTES with
    | Throw e => (Throw e, s1)
    | Ok d =>
        match Buffer_compare localID (nextAvailableLocalID d) with
        | Lt => (Ok tt, s1)
        | _ =>
            match readUInt32BE localID with
            | None => (Throw RangeError, s1)
            | Some n =>
                match writeUInt32BE (n + 1) with
                | None => (Throw RangeError, s1)
                | Some newAvailableLocalID =>
                    (Ok tt,
                     set_availableLocalIDStore
                       (insert EMPTY_BYTES
                          (encode {| nextAvailableLocalID := newAvailableLocalID |})) s1)
                end
            end
        end
    end.
Proof.
  unfold initializeToken. munfold.
  destruct (bool_decide _); [done|]. cbn.
  destruct (readStore (availableLocalIDStore s) EMPTY_BYTES) as [d|]; [|done].
  destruct (Buffer_compare _ _); try done;
    destruct (readUInt32BE localID); try done;
    by destruct (writeUInt32BE _).
Qed.

Lemma getNextAvailableLocalID_run s :
  getNextAvailableLocalID s =
  (match readStore (availableLocalIDStore s) EMPTY_BYTES with
   | Ok d => Ok (nextAvailableLocalID d)
   | Throw e => Throw e
   end, s).
Proof.
  unfold getNextAvailableLocalID. munfold.
  by destruct (readStore (availableLocalIDStore s) EMPTY_BYTES).
Qed.

(** [initializeToken] and the next available local identifier. After a
    successful [initializeToken] of a four-byte local identifier, the token
    has a supply entry of zero, the next available local identifier is
    strictly above the one initialised, and a second [initializeToken] of
    the same identifier throws and changes nothing. *)
Theorem initializeToken_advances_next_id localID s s' :
  length localID = LOCAL_ID_LENGTH ->
  initializeToken localID s = (Ok tt, s') ->
  storedSupply s' localID = Some 0 /\
  (exists next,
     getNextAvailableLocalID s' = (Ok next, s') /\
     Buffer_compare localID next = Lt) /\
  initializeToken localID s' = (Throw TokenAlreadyInitialized, s').
Proof.
  intros Hl Hrun. rewrite initializeToken_run in Hrun. cbn zeta in Hrun.
  case_bool_decide as Hex; [done|].
  assert (Hagain : forall s2,
             supplyStore s2 !! localID = Some (encode {| totalSupply := 0 |}) ->
             initializeToken localID s2 = (Throw TokenAlreadyInitialized, s2)).
  { intros s2 Hs2. rewrite initializeToken_run, bool_decide_eq_true_2; [done|].
    rewrite Hs2. eauto. }
  assert (Hzero : forall s2,
             supplyStore s2 !! localID = Some (encode {| totalSupply := 0 |}) ->
             storedSupply s2 localID = Some 0).
  { intros s2 Hs2. unfold storedSupply. by rewrite Hs2. }
  rewrite getNextAvailableLocalID_run.
  destruct (readStore (availableLocalIDStore s) EMPTY_BYTES) as [d|] eqn:Hd; [|done].
  destruct (Buffer_compare localID (nextAvailableLocalID d)) eqn:Hcmp.
  2:{ injection Hrun as <-.
      assert (Hsup : supplyStore
                       (set_supplyStore
                          (insert localID (encode {| totalSupply := 0 |})) s)
                     !! localID = Some (encode {| totalSupply := 0 |}))
        by (cbn; by rewrite lookup_insert_eq).
      split; [by apply Hzero|]. split; [|by apply Hagain].
      exists (nextAvailableLocalID d).
      cbn [availableLocalIDStore set_supplyStore]. by rewrite Hd. }
  all: destruct (readUInt32BE localID) as [n|] eqn:Hn; [|done];
    destruct (writeUInt32BE (n + 1)) as [new|] eqn:Hw; [|done];
    injection Hrun as <-;
    (split; [apply Hzero; cbn; by rewrite lookup_insert_eq|]); split;
    [|apply Hagain; cbn; by rewrite lookup_insert_eq];
    exists new;
    cbn [availableLocalIDStore set_availableLocalIDStore];
    rewrite readStore_insert_eq; cbn; (split; [done|]);
    rewrite (Buffer_compare_uint32 localID new n (n + 1) Hl
               (length_writeUInt32BE _ _ Hw) Hn (readUInt32BE_write _ _ Hw));
    apply Z.compare_lt_iff; lia.
Qed.

(** The theorem at the initialisation of local identifier 7, the next
    available one being 1. *)
Lemma initializeToken_advances_next_id_witness :
  storedSupply (snd (initializeToken (drop 4 T_other) st2)) (drop 4 T_other) = Some 0 /\
  getNextAvailableLocalID (snd (initializeToken (drop 4 T_other) st2)) =
  (Ok [Byte.x00; Byte.x00; Byte.x00; Byte.x08],
   snd (initializeToken (drop 4 T_other) st2)).
Proof.
  destruct (initializeToken_advances_next_id (drop 4 T_other) st2
              (snd (initializeToken (drop 4 T_other) st2)))
    as (Hs & _ & _).
  - reflexivity.
  - vm_compute. reflexivity.
  - split; [exact Hs|]. vm_compute. reflexivity.
Defined.

(** ** Canonical token identifiers *)

(** [getCanonicalTokenID] returns a fixed point of itself: applied to its
    own result it returns that result again. And [isNative] holds of a token
    identifier exactly when its chain part is the native alias or the
    identifier of the own chain. Neither touches the stores. *)
Theorem canonical_token_id_is_fixed_point this t s :
  exists c,
    getCanonicalTokenID this t s = (Ok c, s) /\
    getCanonicalTokenID this c s = (Ok c, s) /\
    isNative this c s = isNative this t s /\
    isNative this t s =
    (Ok (bool_decide (fst (splitTokenID t) = CHAIN_ID_ALIAS_NATIVE \/
                      fst (splitTokenID t) = ownChainID this)), s).
Proof.
  exists (canonicalOf this t).
  rewrite !getCanonicalTokenID_run, !isNative_run, canonicalOf_idem.
  repeat split. do 2 f_equal.
  fold (nativeToken (canonicalOf this t)). unfold canonicalOf, Buffer_equals.
  case_bool_decide as E1.
  - unfold nativeToken, Buffer_equals. rewrite E1.
    rewrite bool_decide_eq_true_2 by done. symmetry.
    apply bool_decide_eq_true. by left.
  - case_bool_decide as E2.
    + rewrite nativeToken_getNativeTokenID. symmetry.
      apply bool_decide_eq_true. by right.
    + unfold nativeToken, Buffer_equals. rewrite bool_decide_eq_false_2 by done.
      symmetry. apply bool_decide_eq_false. tauto.
Qed.

End TokenIdentifiers.

Module TokenAccounts.

Import Token TokenNotions TokenFacts.

(** ** The range [_accountExist] scans *)

Lemma inRange_prefix address key :
  inRange address key -> (length address <= length key)%nat ->
  take (length address) key = address.
Proof.
  unfold inRange, Buffer_leb. revert key.
  induction address as [|a address IH]; intros key Hr Hlen; [done|].
  destruct key as [|k key]; [cbn in Hlen; lia|].
  cbn [app Buffer_compare length take] in *.
  apply andb_prop_elim in Hr as [H1 H2].
  destruct (N.compare_spec (Byte.to_N a) (Byte.to_N k)) as [E|L|G]; [| |done].
  - rewrite E, N.compare_refl in H2.
    assert (Hak : Some a = Some k) by (rewrite <- !Byte.of_to_N; by rewrite E).
    injection Hak as ->. f_equal. apply IH; [|lia].
    apply andb_prop_intro. by split.
  - destruct (N.compare_spec (Byte.to_N k) (Byte.to_N a)) as [E'|L'|G']; [lia|lia|done].
Qed.

(** When an address has an account. The keys of the user store being an
    address of the length of the given one followed by a token identifier,
    [accountExists] returns true exactly when the store holds an entry of the
    address for some token, whichever token that is; it never throws and
    changes nothing. *)
Theorem accountExists_iff_some_token address s :
  (forall key, is_Some (userStore s !! key) ->
               length key = (length address + TOKEN_ID_LENGTH)%nat) ->
  exists b,
    accountExists address s = (Ok b, s) /\
    (b = true <->
     exists tokenID,
       length tokenID = TOKEN_ID_LENGTH /\
       is_Some (userStore s !! getUserStoreKey address tokenID)).
Proof.
  intros Hkeys. exists (_accountExist (userStore s) address). split; [done|].
  rewrite accountExist_true. split.
  - intros (key & Hs & Hr). pose proof (Hkeys key Hs) as Hlen.
    exists (drop (length address) key). split.
    + rewrite length_drop. lia.
    + unfold getUserStoreKey.
      rewrite <- (inRange_prefix address key Hr) at 1 by lia.
      by rewrite take_drop.
  - intros (tokenID & Hl & Hs). exists (getUserStoreKey address tokenID).
    split; [done|]. by apply inRange_key.
Qed.

(** The theorem at the address that holds another token than the one it is
    about to receive. *)
Lemma accountExists_iff_some_token_witness :
  accountExists bob (st1 T_native) = (Ok true, st1 T_native) /\
  userStore (st1 T_native) !! getUserStoreKey bob T_native = None.
Proof.
  destruct (accountExists_iff_some_token bob (st1 T_native)) as (b & Hrun & Hb).
  - intros key [u Hu]. cbn in Hu.
    apply lookup_insert_Some in Hu as [[<- _]|[_ Hu]]; [reflexivity|].
    apply lookup_singleton_Some in Hu as [<- _]. reflexivity.
  - split; [|reflexivity]. rewrite Hrun. f_equal. f_equal. apply Hb.
    exists T_other. split; [reflexivity|]. vm_compute. eauto.
Defined.

End TokenAccounts.

Module ProcessorRegistry.

Import Processor ProcessorNotions ProcessorFacts.

(** ** The order of the keys *)

Lemma String_compare_refl s : String.compare s s = Eq.
Proof.
  induction s as [|a s IH]; cbn; [done|].
  unfold Ascii.compare. by rewrite N.compare_refl.
Qed.

Lemma Ascii_compare_N a b : Ascii.compare a b = N.compare (Ascii.N_of_ascii a) (Ascii.N_of_ascii b).
Proof. reflexivity. Qed.

Lemma String_compare_trans_not_Gt s1 s2 s3 :
  String.compare s1 s2 ≠ Gt -> String.compare s2 s3 ≠ Gt -> String.compare s1 s3 ≠ Gt.
Proof.
  revert s2 s3. induction s1 as [|a s1 IH]; intros [|b s2] [|c s3]; cbn; try done.
  rewrite !Ascii_compare_N.
  destruct (N.compare_spec (Ascii.N_of_ascii a) (Ascii.N_of_ascii b));
    destruct (N.compare_spec (Ascii.N_of_ascii b) (Ascii.N_of_ascii c));
    destruct (N.compare_spec (Ascii.N_of_ascii a) (Ascii.N_of_ascii c));
    try done; try lia.
  apply IH.
Qed.

Lemma keyLeq_total v1 v2 : ¬ keyLeq v1 v2 -> keyLeq v2 v1.
Proof.
  unfold keyLeq. intros Hn.
  rewrite (String.compare_antisym (versionKey v2) (versionKey v1)).
  destruct (String.compare (versionKey v1) (versionKey v2)); try done.
  by destruct Hn.
Qed.

Lemma insertKey_perm x l : insertKey x l ≡ₚ x :: l.
Proof.
  induction l as [|y l IH]; cbn [insertKey]; [done|].
  destruct (String.compare _ _); try done. by rewrite IH, Permutation_swap.
Qed.

Lemma insertKey_sorted x l :
  StronglySorted keyLeq l -> StronglySorted keyLeq (insertKey x l).
Proof.
  intros Hs. induction Hs as [|y l' Hl IH Hy]; cbn [insertKey].
  - repeat constructor.
  - destruct (String.compare (versionKey x) (versionKey y)) eqn:E.
    + constructor; [by constructor|]. constructor; [unfold keyLeq; by rewrite E|].
      eapply Forall_impl; [exact Hy|]. intros z Hz. cbn in Hz. unfold keyLeq in *.
      apply (String_compare_trans_not_Gt _ (versionKey y)); [by rewrite E|done].
    + constructor; [by constructor|]. constructor; [unfold keyLeq; by rewrite E|].
      eapply Forall_impl; [exact Hy|]. intros z Hz. cbn in Hz. unfold keyLeq in *.
      apply (String_compare_trans_not_Gt _ (versionKey y)); [by rewrite E|done].
    + constructor; [exact IH|]. rewrite insertKey_perm.
      constructor; [|exact Hy]. apply keyLeq_total. unfold keyLeq. rewrite E.
      intros Hc. by apply Hc.
Qed.

Section Registry.

Context {S BlockJSON : Type}.
Implicit Types (this : Processor S BlockJSON) (bp : BaseBlockProcessor S BlockJSON)
  (block : BlockInstance).

Lemma matcherVersions_perm this :
  matcherVersions this ≡ₚ (map_to_list (registry this)).*1.
Proof.
  unfold matcherVersions. induction (map_to_list (registry this)).*1 as [|x l IH];
    [done|].
  cbn [foldr]. by rewrite insertKey_perm, IH.
Qed.

Lemma matcherVersions_sorted this : StronglySorted keyLeq (matcherVersions this).
Proof.
  unfold matcherVersions. induction (map_to_list (registry this)).*1 as [|x l IH];
    cbn [foldr]; [constructor|]. by apply insertKey_sorted.
Qed.

Lemma elem_of_matcherVersions this v :
  v ∈ matcherVersions this <-> is_Some (registry this !! v).
Proof.
  rewrite matcherVersions_perm, list_elem_of_fmap. split.
  - intros ([k x] & -> & Hin). apply elem_of_map_to_list in Hin. eauto.
  - intros [x Hx]. exists (v, x). split; [done|]. by apply elem_of_map_to_list.
Qed.

Lemma find_first {A} (P : A -> bool) (l : list A) x :
  List.find P l = Some x ->
  exists l1 l2, l = l1 ++ x :: l2 /\ Forall (fun y => P y = false) l1 /\ P x = true.
Proof.
  induction l as [|y l IH]; cbn; [done|].
  destruct (P y) eqn:Hy.
  - intros [= ->]. exists [], l. by repeat split.
  - intros (l1 & l2 & -> & Hl1 & Hx)%IH. exists (y :: l1), l2.
    repeat split; [|done]. by constructor.
Qed.

Lemma find_none {A} (P : A -> bool) (l : list A) :
  List.find P l = None -> Forall (fun y => P y = false) l.
Proof.
  induction l as [|y l IH]; cbn; [by constructor|].
  destruct (P y) eqn:Hy; [done|]. intros Hn. constructor; [done|by apply IH].
Qed.

(** The outcomes of [_getBlockProcessor]. It throws that the version is not
    registered exactly when no processor is registered under the version of
    the block. Otherwise it returns a processor exactly when the matcher of
    some registered version accepts the block, and the processor returned is
    one registered with a matcher that accepts the block, under whichever
    version that is; when no matcher accepts the block it throws that no
    matching processor was found. *)
Theorem getBlockProcessor_outcomes this block :
  match _getBlockProcessor this block with
  | Ok bp =>
      is_Some (registry this !! version block) /\
      exists v matcher, registry this !! v = Some (bp, matcher) /\ matcher block = true
  | Throw VersionNotRegistered => registry this !! version block = None
  | Throw NoMatchingProcessor =>
      is_Some (registry this !! version block) /\
      forall v bp matcher, registry this !! v = Some (bp, matcher) -> matcher block = false
  | Throw _ => False
  end.
Proof.
  unfold _getBlockProcessor.
  destruct (registry this !! version block) as [own|] eqn:Hown; [|done].
  destruct (List.find _ (matcherVersions this)) as [v|] eqn:Hfind.
  - apply find_first in Hfind as (l1 & l2 & Hl & _ & Hv).
    destruct (registry this !! v) as [[bp matcher]|] eqn:Hreg; [|done].
    split; [eauto|]. by exists v, matcher.
  - apply find_none in Hfind. split; [eauto|].
    intros v bp matcher Hreg. rewrite Forall_forall in Hfind.
    assert (Hin : v ∈ matcherVersions this) by (apply elem_of_matcherVersions; eauto).
    specialize (Hfind v Hin). cbn in Hfind. by rewrite Hreg in Hfind.
Qed.

(** Which processor [_getBlockProcessor] returns, the versions being safe
    integers. Among the registered versions whose matcher accepts the block,
    it is the one whose key comes first in the order of the decimal strings
    of the versions; the version of the block plays no part in the choice. *)
Theorem getBlockProcessor_least_key this block bp :
  _getBlockProcessor this block = Ok bp ->
  exists v matcher,
    registry this !! v = Some (bp, matcher) /\ matcher block = true /\
    forall v' bp' matcher',
      registry this !! v' = Some (bp', matcher') -> matcher' block = true ->
      keyLeq v v'.
Proof.
  unfold _getBlockProcessor.
  destruct (registry this !! version block) as [own|] eqn:Hown; [|done].
  destruct (List.find _ (matcherVersions this)) as [v|] eqn:Hfind; [|done].
  apply find_first in Hfind as (l1 & l2 & Hl & Hl1 & Hv).
  destruct (registry this !! v) as [[bp0 matcher]|] eqn:Hreg; [|done].
  intros [= <-]. exists v, matcher. split; [done|]. split; [done|].
  intros v' bp' matcher' Hreg' Hacc.
  assert (Hin : v' ∈ matcherVersions this) by (apply elem_of_matcherVersions; eauto).
  pose proof (matcherVersions_sorted this) as Hs. rewrite Hl in Hin, Hs.
  apply StronglySorted_app in Hs as (_ & _ & Hs).
  apply StronglySorted_cons in Hs as [Hs _].
  apply elem_of_app in Hin as [Hin|Hin].
  - rewrite Forall_forall in Hl1. specialize (Hl1 v' Hin). cbn in Hl1.
    rewrite Hreg' in Hl1. congruence.
  - apply elem_of_cons in Hin as [->|Hin].
    + unfold keyLeq. by rewrite String_compare_refl.
    + rewrite Forall_forall in Hs. by apply Hs.
Qed.

End Registry.

(** The theorem at processors registered for versions 2 and 10 with the
    default matcher: a block of version 2 is given the processor of
    version 10. *)
Lemma getBlockProcessor_least_key_witness :
  version tipBlock = version2 /\
  exists v matcher,
    registry twoVersions !! v = Some (versionProcessor version10, matcher) /\
    matcher tipBlock = true /\
    forall v' bp' matcher',
      registry twoVersions !! v' = Some (bp', matcher') -> matcher' tipBlock = true ->
      keyLeq v v'.
Proof.
  split; [reflexivity|].
  apply (getBlockProcessor_least_key twoVersions tipBlock (versionProcessor version10)).
  vm_compute. reflexivity.
Defined.

End ProcessorRegistry.

Module ProcessorPipelines.

Import Processor ProcessorNotions ProcessorFacts.

Section Pipelines.

Context `{ForkStatusEnum} {S BlockJSON : Type}.
Implicit Types (this : Processor S BlockJSON) (bp : BaseBlockProcessor S BlockJSON)
  (w : World S BlockJSON) (block : BlockInstance).

(** What [_processValidated] publishes and saves, whatever its outcome. *)
Lemma processValidated_effects this block lb bp so sb rt w :
  let w' := snd (_processValidated this block lb bp so sb rt w) in
  (default false sb = true -> published w' = published w) /\
  exists added,
    calls w' = calls w ++ added /\
    (default false so = true -> Forall (fun c => savesBlock c = false) added).
Proof.
  unfold _processValidated. punfold. cbn zeta.
  destruct (verify_run _ _ _ _ _) as [st1|e]; cbn;
    [destruct (_getBlockProcessor this block) as [bp'|e]; cbn;
     [destruct (serialize_run bp' block) as [json|e]; cbn;
      [destruct (default false sb) eqn:Hsb; cbn;
       destruct (apply_run _ _ _ _ _) as [st2|e]; cbn|]|]|];
    (split; [done|]); eexists;
    (split; [rewrite <- ?app_assoc; reflexivity|]);
    intros Hso; rewrite ?Hso; by repeat constructor.
Qed.

(** The public [processValidated] and [apply] never broadcast. Whatever their
    outcome, what has been published on the channel is what had been
    published before the call; and no call that [apply] makes on the chain
    module saves the block itself, only its state. *)
Theorem processValidated_apply_never_broadcast this block removeFromTempTable w :
  published (snd (processValidated this block removeFromTempTable w)) = published w /\
  published (snd (apply this block w)) = published w /\
  exists added,
    calls (snd (apply this block w)) = calls w ++ added /\
    Forall (fun c => savesBlock c = false) added.
Proof.
  unfold processValidated, apply.
  unfold bind, chain_lastBlock, gets, lift.
  destruct (_getBlockProcessor this block) as [bp|e]; cbn [fst snd].
  2:{ repeat split. exists []. by rewrite app_nil_r. }
  destruct (processValidated_effects this block (lastBlock (chain w)) bp None
              (Some true) removeFromTempTable w) as [Hp _].
  destruct (processValidated_effects this block (lastBlock (chain w)) bp (Some true)
              (Some true) false w) as (Hp' & added & Hc & Hs).
  split; [by apply Hp|]. split; [by apply Hp'|].
  exists added. split; [done|]. by apply Hs.
Qed.

(** A block is broadcast before it is applied. When a block classified as
    [VALID_BLOCK] passes validation and verification and its [apply] pipeline
    then throws, [process] throws that error and leaves the chain as it was,
    with neither state nor block saved; but 'app:block:broadcast' has been
    published for the block by then. *)
Theorem process_broadcasts_before_apply this block (peerId : option string) w bp
  st1 json e :
  _getBlockProcessor this block = Ok bp ->
  forkStatus_run bp block (lastBlock (chain w)) = Ok VALID_BLOCK ->
  validate_run bp block (lastBlock (chain w)) (storeAt 0 (chain w)) = Ok tt ->
  verify_run bp block (lastBlock (chain w)) None (storeAt 0 (chain w)) = Ok st1 ->
  serialize_run bp block = Ok json ->
  apply_run bp block (lastBlock (chain w)) None st1 = Throw e ->
  exists w',
    process this block peerId w = (Throw e, w') /\
    chain w' = chain w /\
    published w' = published w ++ [broadcastNotification json].
Proof.
  intros Hbp Hfs Hval Hver Hser Happ.
  rewrite (process_valid this block peerId w bp VALID_BLOCK Hbp Hfs eq_refl).
  rewrite Hval. unfold _processValidated.
  unfold bind at 1. unfold chain_newStateStore, bind, record, modify, gets.
  cbn [chain withCalls]. unfold lift at 1. fold (storeAt 0 (chain w)). rewrite Hver.
  rewrite (serialize_eq _ _ bp) by done. rewrite Hser.
  cbn [negb default from_option id]. unfold publish, modify, lift. cbn. rewrite Happ.
  eexists. split; [reflexivity|]. cbn. by split.
Qed.

(** [deleteLastBlock] reverts before it removes. It runs the [undo] pipeline
    of the processor of the last block on a state store opened one block
    below the tip; when that pipeline throws, it throws the same error
    without calling the chain module to remove the block, so the chain and
    what has been published are as before. *)
Theorem deleteLastBlock_undo_failure this (saveTempBlock : bool) w bp e :
  _getBlockProcessor this (lastBlock (chain w)) = Ok bp ->
  undo_run bp (lastBlock (chain w)) (storeAt 1 (chain w)) = Throw e ->
  deleteLastBlock this saveTempBlock w =
  (Throw e, withCalls w [CNewStateStore 1; CUndo (lastBlock (chain w))]).
Proof.
  intros Hbp Hundo. unfold deleteLastBlock, _deleteBlock.
  unfold bind at 1, chain_lastBlock at 1, gets at 1.
  unfold bind at 1, lift at 1. rewrite Hbp.
  unfold bind at 1. unfold bind at 1.
  unfold chain_newStateStore, bind, record, modify, gets. cbn [chain].
  unfold lift. fold (storeAt 1 (chain w)). rewrite Hundo.
  unfold withCalls. cbn. by rewrite <- app_assoc.
Qed.

End Pipelines.

(** The theorem at a tip whose undo is rejected. *)
Lemma deleteLastBlock_undo_failure_witness :
  deleteLastBlock noUndo false world0 =
  (Throw (PipelineError "undo"),
   withCalls world0 [CNewStateStore 1; CUndo tipBlock]).
Proof.
  apply (deleteLastBlock_undo_failure noUndo false world0 noUndoProcessor
           (PipelineError "undo")).
  - vm_compute. reflexivity.
  - reflexivity.
Defined.

(** The theorem at a block that extends the tip and whose application is
    rejected. *)
Lemma process_broadcasts_before_apply_witness :
  exists w',
    process (H := bftForkStatus) (demo 2 ["N"%string]) nextBlock None world0 =
      (Throw (PipelineError "apply"), w') /\
    chain w' = chain world0 /\
    published w' = published world0 ++ [broadcastNotification "N"%string].
Proof.
  apply (process_broadcasts_before_apply (H := bftForkStatus) (demo 2 ["N"%string])
           nextBlock None world0 (demoProcessor 2 ["N"%string])
           (storeAt 0 (chain world0)) "N"%string (PipelineError "apply")).
  - vm_compute. reflexivity.
  - reflexivity.
  - reflexivity.
  - reflexivity.
  - reflexivity.
  - vm_compute. reflexivity.
Defined.

End ProcessorPipelines.

Module InteropBranches.

Import Interop InteropFacts.

(** The outcomes of [SidechainCCSidechainTerminatedCommand.execute]. Without
    a CCM it throws; when the parameters of the CCM do not decode it throws
    the error of the decoder; in both cases before it reads any store. For a
    CCM sent by the mainchain it returns without a change when the
    terminated-state store holds an entry for the chain of the parameters,
    and the lookup throws when it holds none. For a CCM sent by any other
    chain it reads no store and hands over to [terminateChainInternal] for
    the sending chain, whatever chain the parameters name: its outcome and
    its effect are those of that one call. *)
Theorem sidechainTerminated_execute_outcomes mainchainKey decode context s :
  match ccm context with
  | None => execute mainchainKey decode context s = (Throw MissingCCM, s)
  | Some m =>
      match decode (params m) with
      | Throw e => execute mainchainKey decode context s = (Throw e, s)
      | Ok p =>
          if bool_decide (sendingChainID m = mainchainKey) then
            match terminatedStates s !! p_chainID p with
            | Some _ => execute mainchainKey decode context s = (Ok tt, s)
            | None => execute mainchainKey decode context s = (Throw NotFoundError, s)
            end
          else
            execute mainchainKey decode context s =
            terminateChainInternal (sendingChainID m) s
      end
  end.
Proof.
  destruct (ccm context) as [m|] eqn:Hccm.
  2:{ unfold execute. by rewrite Hccm. }
  destruct (decode (params m)) as [p|e] eqn:Hdec.
  2:{ unfold execute. rewrite Hccm. unfold bind, lift. by rewrite Hdec. }
  case_bool_decide as Hm.
  - destruct (terminatedStates s !! p_chainID p) as [account|] eqn:Ht.
    + by apply (execute_already_terminated mainchainKey decode context m p s Hccm Hdec
                  account).
    + by apply (execute_not_terminated_throws mainchainKey decode context m p s).
  - by apply (execute_other_sender mainchainKey decode context m p s).
Qed.

End InteropBranches.

Module CertificateGenerationFacts.

Import CertificateUtils CertificateGeneration.

Section SignaturesFacts.

Variable MESSAGE_TAG_CERTIFICATE : string.
Variable encode : Certificate -> Buffer.
Variable signBLS : string -> Buffer -> Buffer -> Buffer -> Buffer.
Variable verifyWeightedAggSig :
  list Buffer -> Buffer -> Buffer -> string -> Buffer -> Buffer -> list Z -> Z -> bool.

(** A certificate computed from a block header is unsigned.
    [computeCertificateFromBlockHeader] throws when the state root of the
    header is undefined and, that one being defined, when the validators
    hash is; otherwise it returns a certificate that carries the identifier,
    height, timestamp, state root and validators hash of the header and
    neither aggregation bits nor signature. Such a certificate is rejected by
    [verifyAggregateCertificateSignature] whatever the keys, the weights and
    the threshold, and the signature [signCertificate] makes for it is over
    the very message that function verifies for a certificate with the same
    five fields. *)
Theorem computed_certificate_is_unsigned (blockHeader : BlockHeader) :
  match bh_stateRoot blockHeader, bh_validatorsHash blockHeader with
  | None, _ =>
      computeCertificateFromBlockHeader blockHeader = Throw StateRootNotDefined
  | Some _, None =>
      computeCertificateFromBlockHeader blockHeader = Throw ValidatorsHashNotDefined
  | Some headerStateRoot, Some headerValidatorsHash =>
      exists certificate,
        computeCertificateFromBlockHeader blockHeader = Ok certificate /\
        blockID certificate = bh_id blockHeader /\
        cert_height certificate = bh_height blockHeader /\
        cert_timestamp certificate = bh_timestamp blockHeader /\
        stateRoot certificate = headerStateRoot /\
        validatorsHash certificate = headerValidatorsHash /\
        (forall keysList weights threshold networkIdentifier,
           verifyAggregateCertificateSignature MESSAGE_TAG_CERTIFICATE encode
             verifyWeightedAggSig keysList weights threshold networkIdentifier
             certificate = false) /\
        (forall sk keysList weights threshold networkIdentifier bits sig,
           verifyAggregateCertificateSignature MESSAGE_TAG_CERTIFICATE encode
             verifyWeightedAggSig keysList weights threshold networkIdentifier
             {| blockID := blockID certificate;
                cert_height := cert_height certificate;
                cert_timestamp := cert_timestamp certificate;
                stateRoot := stateRoot certificate;
                validatorsHash := validatorsHash certificate;
                aggregationBits := Some bits;
                signature := Some sig |} =
           verifyWeightedAggSig keysList bits sig MESSAGE_TAG_CERTIFICATE
             networkIdentifier (encode certificate) weights threshold /\
           signCertificate MESSAGE_TAG_CERTIFICATE encode signBLS sk networkIdentifier
             certificate =
           signBLS MESSAGE_TAG_CERTIFICATE networkIdentifier (encode certificate) sk)
  end.
Proof.
  unfold computeCertificateFromBlockHeader.
  destruct (bh_stateRoot blockHeader) as [sr|]; [|done].
  destruct (bh_validatorsHash blockHeader) as [vh|]; [|done].
  eexists. split; [done|]. cbn. repeat split.
Qed.

End SignaturesFacts.

End CertificateGenerationFacts.

Module BufferOrder.

(** ** [Buffer.compare] is a total order *)

Lemma Buffer_compare_refl a : Buffer_compare a a = Eq.
Proof. induction a as [|x a IH]; cbn; [done|]. by rewrite N.compare_refl. Qed.

Lemma Buffer_compare_eq a b : Buffer_compare a b = Eq -> a = b.
Proof.
  revert b. induction a as [|x a IH]; intros [|y b]; cbn; try done.
  destruct (N.compare_spec (Byte.to_N x) (Byte.to_N y)) as [E|L|G]; try done.
  intros Hab.
  assert (Hxy : Some x = Some y) by (rewrite <- !Byte.of_to_N; by rewrite E).
  injection Hxy as ->. f_equal. by apply IH.
Qed.

Lemma Buffer_compare_antisym a b :
  Buffer_compare b a = CompOpp (Buffer_compare a b).
Proof.
  revert b. induction a as [|x a IH]; intros [|y b]; cbn; try done.
  rewrite (N.compare_antisym (Byte.to_N x) (Byte.to_N y)).
  destruct (Byte.to_N x ?= Byte.to_N y)%N; cbn; [apply IH|done|done].
Qed.

Lemma Buffer_compare_trans_not_Gt a b c :
  Buffer_compare a b ≠ Gt -> Buffer_compare b c ≠ Gt -> Buffer_compare a c ≠ Gt.
Proof.
  revert b c. induction a as [|x a IH]; intros [|y b] [|z c]; cbn; try done.
  destruct (N.compare_spec (Byte.to_N x) (Byte.to_N y)) as [E1|L1|G1];
    destruct (N.compare_spec (Byte.to_N y) (Byte.to_N z)) as [E2|L2|G2];
    destruct (N.compare_spec (Byte.to_N x) (Byte.to_N z)) as [E3|L3|G3];
    try done; try lia.
  apply IH.
Qed.

Lemma Buffer_compare_Lt_trans a b c :
  Buffer_compare a b = Lt -> Buffer_compare b c ≠ Gt -> Buffer_compare a c = Lt.
Proof.
  intros Hab Hbc.
  destruct (Buffer_compare a c) eqn:Hac; [|done|].
  - apply Buffer_compare_eq in Hac. subst c.
    rewrite (Buffer_compare_antisym a b), Hab in Hbc. done.
  - exfalso. apply (Buffer_compare_trans_not_Gt a b c); [by rewrite Hab|done|done].
Qed.

End BufferOrder.

Module DposFacts.

Import DposUtils BufferOrder.

(** ** [Array.prototype.sort] with a comparator that is a total preorder *)

Section Sorting.

Context {A : Type} (compareFn : A -> A -> Z).

Lemma Array_insert_perm x l : Array_insert compareFn x l ≡ₚ x :: l.
Proof.
  induction l as [|y l IH]; cbn [Array_insert]; [done|].
  destruct (compareFn x y <=? 0); [done|]. by rewrite IH, Permutation_swap.
Qed.

Lemma Array_sort_perm l : Array_sort compareFn l ≡ₚ l.
Proof.
  unfold Array_sort. induction l as [|x l IH]; [done|].
  cbn [foldr]. by rewrite Array_insert_perm, IH.
Qed.

Hypothesis compareFn_total : forall x y, 0 < compareFn x y -> compareFn y x <= 0.
Hypothesis compareFn_trans :
  forall x y z, compareFn x y <= 0 -> compareFn y z <= 0 -> compareFn x z <= 0.

Lemma Array_insert_sorted x l :
  StronglySorted (fun a b => compareFn a b <= 0) l ->
  StronglySorted (fun a b => compareFn a b <= 0) (Array_insert compareFn x l).
Proof.
  intros Hs. induction Hs as [|y l' Hl IH Hy]; cbn [Array_insert].
  - repeat constructor.
  - destruct (compareFn x y <=? 0) eqn:Hle.
    + constructor; [by constructor|]. constructor; [lia|].
      eapply Forall_impl; [exact Hy|]. intros z Hz. cbn in Hz.
      apply (compareFn_trans x y z); [lia|done].
    + constructor; [exact IH|]. rewrite Array_insert_perm.
      constructor; [|exact Hy]. apply compareFn_total. lia.
Qed.

Lemma Array_sort_sorted l :
  StronglySorted (fun a b => compareFn a b <= 0) (Array_sort compareFn l).
Proof.
  unfold Array_sort. induction l as [|x l IH]; cbn [foldr]; [constructor|].
  by apply Array_insert_sorted.
Qed.

Hypothesis compareFn_antisym :
  forall x y, compareFn x y <= 0 -> compareFn y x <= 0 -> x = y.

Lemma Array_sort_unique l1 l2 :
  l1 ≡ₚ l2 -> Array_sort compareFn l1 = Array_sort compareFn l2.
Proof.
  intros Hp.
  apply (StronglySorted_unique_strong (fun a b => compareFn a b <= 0)).
  - intros x y _ _. apply compareFn_antisym.
  - apply Array_sort_sorted.
  - apply Array_sort_sorted.
  - by rewrite !Array_sort_perm.
Qed.

End Sorting.

Lemma StronglySorted_weaken {A} (R1 R2 : relation A) (l : list A) :
  (forall x y, R1 x y -> R2 x y) -> StronglySorted R1 l -> StronglySorted R2 l.
Proof.
  intros Himp Hs. induction Hs as [|x l' Hl IH Hx]; constructor; [done|].
  eapply Forall_impl; [exact Hx|]. intros y. apply Himp.
Qed.

Lemma Buffer_compareZ_le a b : Buffer_compareZ a b <= 0 <-> Buffer_compare a b ≠ Gt.
Proof. unfold Buffer_compareZ. destruct (Buffer_compare a b); split; (done || lia). Qed.

Lemma Buffer_compareZ_zero a b : Buffer_compareZ a b = 0 <-> a = b.
Proof.
  unfold Buffer_compareZ. split.
  - destruct (Buffer_compare a b) eqn:E; try lia. intros _. by apply Buffer_compare_eq.
  - intros ->. by rewrite Buffer_compare_refl.
Qed.

Lemma Buffer_compare_not_Gt a b :
  Buffer_compare a b ≠ Gt <-> Buffer_compare a b = Lt \/ a = b.
Proof.
  split.
  - destruct (Buffer_compare a b) eqn:E; try done.
    + right. by apply Buffer_compare_eq.
    + by left.
  - intros [->| ->]; [done|]. by rewrite Buffer_compare_refl.
Qed.

Lemma Buffer_compare_total a b : Buffer_compare a b = Gt -> Buffer_compare b a = Lt.
Proof. intros H. by rewrite (Buffer_compare_antisym a b), H. Qed.

(** ** [sortUnlocking] *)

Lemma compareUnlocking_le a b : compareUnlocking a b <= 0 <-> unlockingOrder a b.
Proof.
  unfold compareUnlocking, unlockingOrder, Buffer_equals.
  case_bool_decide as Ha; cbn [negb].
  - rewrite Ha, Buffer_compare_refl.
    destruct (unvoteHeight a =? unvoteHeight b) eqn:Hh; cbn [negb].
    + destruct (amount b - amount a >? 0) eqn:E1;
        [|destruct (amount b - amount a <? 0) eqn:E2]; split; try lia;
        try (intros [?|[_ [?|[_ ?]]]]; (done || lia)); intros _; right; (split; [done|]);
        right; lia.
    + split; [intros; right; split; [done|]; left; lia|].
      intros [?|[_ [?|[? _]]]]; (done || lia).
  - rewrite Buffer_compareZ_le, Buffer_compare_not_Gt. split.
    + intros [?|?]; [by left|done].
    + intros [?|[? _]]; [by left|done].
Qed.

Lemma unlockingOrder_total a b : ¬ unlockingOrder a b -> unlockingOrder b a.
Proof.
  unfold unlockingOrder. intros Hn.
  destruct (Buffer_compare (delegateAddress a) (delegateAddress b)) eqn:E.
  - apply Buffer_compare_eq in E. right. split; [done|].
    destruct (Z.lt_trichotomy (unvoteHeight a) (unvoteHeight b)) as [?|[?|?]];
      [by left| |exfalso; apply Hn; right; split; [done|]; by left].
    right. split; [done|].
    destruct (Z.le_gt_cases (amount a) (amount b)); [done|].
    exfalso. apply Hn. right. split; [done|]. right. split; [done|lia].
  - exfalso. apply Hn. by left.
  - left. by apply Buffer_compare_total.
Qed.

Lemma unlockingOrder_trans a b c :
  unlockingOrder a b -> unlockingOrder b c -> unlockingOrder a c.
Proof.
  unfold unlockingOrder. intros [Hab|[Eab Hab]] [Hbc|[Ebc Hbc]].
  - left. apply (Buffer_compare_Lt_trans _ _ _ Hab). by rewrite Hbc.
  - left. by rewrite <- Ebc.
  - left. by rewrite Eab.
  - right. split; [congruence|]. lia.
Qed.

(** [sortUnlocking] returns the unlocking objects it was given, each as
    often as it was given, in order: by increasing delegate address; among
    those of one delegate by decreasing unvote height; among those of one
    delegate and one height by decreasing amount. *)
Theorem sortUnlocking_sorts unlocks :
  sortUnlocking unlocks ≡ₚ unlocks /\
  StronglySorted unlockingOrder (sortUnlocking unlocks).
Proof.
  split; [apply Array_sort_perm|].
  apply (StronglySorted_weaken (fun a b => compareUnlocking a b <= 0)).
  { intros x y. apply compareUnlocking_le. }
  apply (Array_sort_sorted compareUnlocking).
  - intros x y Hxy. apply compareUnlocking_le, unlockingOrder_total.
    rewrite <- compareUnlocking_le. lia.
  - intros x y z. rewrite !compareUnlocking_le. apply unlockingOrder_trans.
Qed.

(** ** [shuffleDelegateList] *)

Section ShuffleFacts.

Variable hash : Buffer -> Buffer.

Lemma compareRoundDelegates_le d1 d2 :
  compareRoundDelegates d1 d2 <= 0 <->
  Buffer_compare (roundHash d1) (roundHash d2) = Lt \/
  (roundHash d1 = roundHash d2 /\
   Buffer_compare (rd_address d1) (rd_address d2) ≠ Gt).
Proof.
  unfold compareRoundDelegates. cbn zeta.
  destruct (Buffer_compareZ (roundHash d1) (roundHash d2) =? 0) eqn:E; cbn [negb].
  - apply Z.eqb_eq in E. pose proof E as ->%Buffer_compareZ_zero.
    rewrite Buffer_compareZ_le, Buffer_compare_refl. naive_solver.
  - apply Z.eqb_neq in E. rewrite Buffer_compareZ_le, Buffer_compare_not_Gt.
    split; [intros [?|?%Buffer_compareZ_zero]; [by left|done]|].
    intros [?|[?%Buffer_compareZ_zero _]]; [by left|done].
Qed.

Lemma compareRoundDelegates_total d1 d2 :
  0 < compareRoundDelegates d1 d2 -> compareRoundDelegates d2 d1 <= 0.
Proof.
  intros Hgt. apply compareRoundDelegates_le.
  assert (Hn : ¬ compareRoundDelegates d1 d2 <= 0) by lia.
  rewrite compareRoundDelegates_le in Hn.
  destruct (Buffer_compare (roundHash d1) (roundHash d2)) eqn:E.
  - apply Buffer_compare_eq in E. right. split; [done|].
    destruct (Buffer_compare (rd_address d1) (rd_address d2)) eqn:E2.
    + apply Buffer_compare_eq in E2. by rewrite E2, Buffer_compare_refl.
    + exfalso. apply Hn. by right.
    + by rewrite (Buffer_compare_total _ _ E2).
  - exfalso. apply Hn. by left.
  - left. by apply Buffer_compare_total.
Qed.

Lemma compareRoundDelegates_trans d1 d2 d3 :
  compareRoundDelegates d1 d2 <= 0 -> compareRoundDelegates d2 d3 <= 0 ->
  compareRoundDelegates d1 d3 <= 0.
Proof.
  rewrite !compareRoundDelegates_le. intros [H12|[E12 H12]] [H23|[E23 H23]].
  - left. apply (Buffer_compare_Lt_trans _ _ _ H12). by rewrite H23.
  - left. by rewrite <- E23.
  - left. by rewrite E12.
  - right. split; [congruence|].
    by apply (Buffer_compare_trans_not_Gt _ (rd_address d2)).
Qed.

Lemma compareRoundDelegates_antisym d1 d2 :
  compareRoundDelegates d1 d2 <= 0 -> compareRoundDelegates d2 d1 <= 0 -> d1 = d2.
Proof.
  rewrite !compareRoundDelegates_le. intros [H12|[E12 H12]] [H21|[E21 H21]].
  - by rewrite (Buffer_compare_antisym _ _), H12 in H21.
  - by rewrite E21, Buffer_compare_refl in H12.
  - by rewrite E12, Buffer_compare_refl in H21.
  - destruct d1 as [a1 h1], d2 as [a2 h2]. cbn in *. subst h2. f_equal.
    destruct (Buffer_compare a1 a2) eqn:E; [by apply Buffer_compare_eq|..|done].
    by rewrite (Buffer_compare_antisym a1 a2), E in H21.
Qed.

(** [shuffleDelegateList] returns the addresses it was given, each as often
    as it was given, and the order it returns them in does not depend on the
    order it was given them in: two lists holding the same addresses are
    shuffled into the same list. *)
Theorem shuffleDelegateList_order_independent previousRoundSeed1 addresses1 addresses2 :
  addresses1 ≡ₚ addresses2 ->
  shuffleDelegateList hash previousRoundSeed1 addresses1 ≡ₚ addresses1 /\
  shuffleDelegateList hash previousRoundSeed1 addresses1 =
  shuffleDelegateList hash previousRoundSeed1 addresses2.
Proof.
  intros Hp. unfold shuffleDelegateList. cbn zeta. split.
  - rewrite Array_sort_perm.
    induction addresses1 as [|a l IH] in |- *; [done|]. cbn. by rewrite IH.
  - f_equal. apply Array_sort_unique.
    + apply compareRoundDelegates_total.
    + apply compareRoundDelegates_trans.
    + apply compareRoundDelegates_antisym.
    + by rewrite Hp.
Qed.

End ShuffleFacts.

(** The theorem at two addresses given in both orders, the hash being the
    reversal of the bytes. *)
Lemma shuffleDelegateList_order_independent_witness :
  shuffleDelegateList (@rev Byte.byte) seed3 [seed25; seed3] =
  shuffleDelegateList (@rev Byte.byte) seed3 [seed3; seed25].
Proof.
  apply (shuffleDelegateList_order_independent (@rev Byte.byte) seed3
           [seed25; seed3] [seed3; seed25]).
  apply Permutation_swap.
Defined.

(** ** Standby delegates *)

Lemma foldl_weight_acc acc l :
  foldl (fun prev current => prev + delegateWeight current) acc l =
  acc + totalVoteWeight l.
Proof.
  unfold totalVoteWeight. revert acc.
  induction l as [|d l IH]; intros acc; cbn [foldl]; [lia|].
  rewrite (IH (acc + delegateWeight d)), (IH (0 + delegateWeight d)). lia.
Qed.

Lemma totalVoteWeight_cons d l :
  totalVoteWeight (d :: l) = delegateWeight d + totalVoteWeight l.
Proof. unfold totalVoteWeight at 1. cbn [foldl]. rewrite foldl_weight_acc. lia. Qed.

Lemma totalVoteWeight_nonneg l :
  Forall (fun d => 0 <= delegateWeight d) l -> 0 <= totalVoteWeight l.
Proof.
  intros Hl. induction Hl as [|d l' Hd _ IH]; [done|].
  rewrite totalVoteWeight_cons. lia.
Qed.

Lemma totalVoteWeight_pos l :
  Forall (fun d => 0 < delegateWeight d) l -> l ≠ [] -> 0 < totalVoteWeight l.
Proof.
  intros Hl Hne. destruct Hl as [|d l' Hd Hl']; [done|].
  rewrite totalVoteWeight_cons.
  assert (0 <= totalVoteWeight l'); [|lia].
  apply totalVoteWeight_nonneg. eapply Forall_impl; [exact Hl'|]. cbn. lia.
Qed.

Lemma readBigUInt64BE_nonneg b n : readBigUInt64BE b = Some n -> 0 <= n.
Proof.
  unfold readBigUInt64BE. destruct (_ <? _)%nat; [done|]. intros [= <-].
  assert (H : forall l acc, 0 <= acc ->
            0 <= foldl (fun acc x => acc * 256 + Z.of_N (Byte.to_N x)) acc l).
  { induction l as [|x l IH]; intros acc Hacc; cbn [foldl]; [done|].
    apply IH. lia. }
  by apply H.
Qed.

Lemma pickLoop_spec l i threshold :
  Forall (fun d => 0 <= delegateWeight d) l ->
  0 <= threshold < totalVoteWeight l ->
  exists k d,
    pickLoop l i threshold = i + Z.of_nat k /\ l !! k = Some d /\
    totalVoteWeight (take k l) <= threshold
      < totalVoteWeight (take k l) + delegateWeight d.
Proof.
  intros Hl. revert i threshold.
  induction Hl as [|d l' Hd _ IH]; intros i threshold Hth.
  { unfold totalVoteWeight in Hth. cbn in Hth. lia. }
  rewrite totalVoteWeight_cons in Hth. cbn [pickLoop].
  destruct (delegateWeight d >? threshold) eqn:Hgt.
  - exists 0%nat, d. cbn [take lookup]. unfold totalVoteWeight at 1 2. cbn [foldl].
    split; [lia|]. split; [done|]. lia.
  - destruct (IH (i + 1) (threshold - delegateWeight d)) as (k & d' & Hk & Hd' & Hr);
      [lia|].
    exists (S k), d'. cbn [take lookup]. rewrite totalVoteWeight_cons.
    split; [lia|]. split; [done|]. lia.
Qed.

(** What [pickStandByDelegate] returns. Given weights none of which is
    negative and a seed of at least eight bytes reading [n]: when the weights
    add up to zero (as those of an empty list do) it throws on the division
    by zero; otherwise it returns an index of the list, never -1, namely the
    one index at which the running sum of the weights passes
    [n % totalVoteWeight], so the delegate picked has a positive weight. *)
Theorem pickStandByDelegate_spec delegateWeights randomSeed n :
  Forall (fun d => 0 <= delegateWeight d) delegateWeights ->
  readBigUInt64BE randomSeed = Some n ->
  if totalVoteWeight delegateWeights =? 0
  then pickStandByDelegate delegateWeights randomSeed = Throw DivisionByZero
  else exists k d,
    pickStandByDelegate delegateWeights randomSeed = Ok (Z.of_nat k) /\
    delegateWeights !! k = Some d /\
    0 < delegateWeight d /\
    totalVoteWeight (take k delegateWeights)
      <= n mod totalVoteWeight delegateWeights
      < totalVoteWeight (take k delegateWeights) + delegateWeight d.
Proof.
  intros Hl Hn. unfold pickStandByDelegate. rewrite Hn.
  destruct (totalVoteWeight delegateWeights =? 0) eqn:Ht; [done|].
  pose proof (totalVoteWeight_nonneg _ Hl) as Hnn.
  pose proof (readBigUInt64BE_nonneg _ _ Hn) as Hn0.
  rewrite Z.rem_mod_nonneg by lia.
  pose proof (Z.mod_pos_bound n (totalVoteWeight delegateWeights) ltac:(lia)) as Hm.
  destruct (pickLoop_spec delegateWeights 0 _ Hl Hm) as (k & d & Hk & Hd & Hr).
  exists k, d. rewrite Hk.
  assert (0 <= totalVoteWeight (take k delegateWeights))
    by apply totalVoteWeight_nonneg, Forall_take, Hl.
  split; [done|]. split; [done|]. split; lia.
Qed.

(** The theorem at weights 10, 0, 30 and a seed reading 25: the third
    delegate is picked. *)
Lemma pickStandByDelegate_spec_witness :
  exists k d,
    pickStandByDelegate candidates seed25 = Ok (Z.of_nat k) /\
    candidates !! k = Some d /\
    0 < delegateWeight d /\
    totalVoteWeight (take k candidates)
      <= 25 mod totalVoteWeight candidates
      < totalVoteWeight (take k candidates) + delegateWeight d.
Proof.
  apply (pickStandByDelegate_spec candidates seed25 25).
  - repeat constructor; cbn; lia.
  - reflexivity.
Defined.

Lemma splice1_lookup {A} (l : list A) k d :
  l !! k = Some d -> splice1 (Z.of_nat k) l = ([d], delete k l).
Proof.
  intros Hk. unfold splice1. cbn zeta.
  pose proof (lookup_lt_Some _ _ _ Hk) as Hlt.
  destruct (Z.of_nat k <? 0) eqn:E; [lia|].
  rewrite Z.min_l by lia. rewrite Nat2Z.id.
  rewrite (drop_S _ _ _ Hk). cbn [take]. by rewrite take_0, delete_take_drop.
Qed.

Lemma takeAt_lookup l k d :
  l !! k = Some d -> takeAt (Z.of_nat k) l = (Ok d, delete k l).
Proof. intros Hk. unfold takeAt. by rewrite (splice1_lookup _ _ _ Hk). Qed.

Lemma pick_positive l randomSeed :
  Forall (fun d => 0 < delegateWeight d) l -> l ≠ [] ->
  (8 <= length randomSeed)%nat ->
  exists k d, pickStandByDelegate l randomSeed = Ok (Z.of_nat k) /\ l !! k = Some d.
Proof.
  intros Hl Hne Hseed.
  assert (Hl' : Forall (fun d => 0 <= delegateWeight d) l).
  { eapply Forall_impl; [exact Hl|]. cbn. lia. }
  pose proof (totalVoteWeight_pos l Hl Hne) as Hpos.
  unfold pickStandByDelegate.
  destruct (readBigUInt64BE randomSeed) as [n|] eqn:Hn.
  2:{ unfold readBigUInt64BE in Hn. destruct (_ <? _)%nat eqn:E; [|done].
      apply Nat.ltb_lt in E. lia. }
  destruct (totalVoteWeight l =? 0) eqn:E; [lia|].
  pose proof (readBigUInt64BE_nonneg _ _ Hn) as Hn0.
  rewrite Z.rem_mod_nonneg by lia.
  pose proof (Z.mod_pos_bound n (totalVoteWeight l) ltac:(lia)) as Hm.
  destruct (pickLoop_spec l 0 _ Hl' Hm) as (k & d & Hk & Hd & _).
  exists k, d. by rewrite Hk.
Qed.

(** [selectStandbyDelegates] on candidates that all have a positive weight,
    with seeds of at least eight bytes. When there are no more candidates
    than delegates to select (one, or two when a second seed is given), it
    returns the addresses of all of them and leaves the array as it is.
    Otherwise it returns exactly that many addresses and removes the selected
    candidates from the array it was given: the addresses returned together
    with those left in the array are the ones the array held, each as often
    as before, so no candidate is selected twice. *)
Theorem selectStandbyDelegates_removes_selected delegateWeights randomSeed1 randomSeed2 :
  Forall (fun d => 0 < delegateWeight d) delegateWeights ->
  (8 <= length randomSeed1)%nat ->
  (forall seed, randomSeed2 = Some seed -> (8 <= length seed)%nat) ->
  let numberOfCandidates :=
    (1 + match randomSeed2 with Some _ => 1 | None => 0 end)%nat in
  if (length delegateWeights <=? numberOfCandidates)%nat
  then selectStandbyDelegates randomSeed1 randomSeed2 delegateWeights =
       (Ok (dw_delegateAddress <$> delegateWeights), delegateWeights)
  else exists result rest,
    selectStandbyDelegates randomSeed1 randomSeed2 delegateWeights = (Ok result, rest) /\
    length result = numberOfCandidates /\
    dw_delegateAddress <$> delegateWeights ≡ₚ result ++ (dw_delegateAddress <$> rest).
Proof.
  intros Hl Hs1 Hs2 numberOfCandidates. subst numberOfCandidates.
  unfold selectStandbyDelegates. cbv zeta.
  unfold bind, gets, pick, ret. cbv beta iota.
  destruct (length delegateWeights <=? _)%nat eqn:Hlen; [done|].
  apply Nat.leb_gt in Hlen.
  assert (Hne : delegateWeights ≠ []).
  { intros ->. cbn in Hlen. lia. }
  destruct (pick_positive _ randomSeed1 Hl Hne Hs1) as (k1 & d1 & Hp1 & Hd1).
  rewrite Hp1, (takeAt_lookup _ _ _ Hd1).
  pose proof (delete_Permutation _ _ _ Hd1) as Hperm1.
  destruct randomSeed2 as [seed2|].
  - assert (Hl2 : Forall (fun d => 0 < delegateWeight d) (delete k1 delegateWeights))
      by by apply Forall_delete.
    assert (Hne2 : delete k1 delegateWeights ≠ []).
    { intros E. apply (f_equal length) in E. rewrite length_delete in E by eauto.
      cbn in *. lia. }
    destruct (pick_positive _ seed2 Hl2 Hne2 (Hs2 _ eq_refl)) as (k2 & d2 & Hp2 & Hd2).
    rewrite Hp2, (takeAt_lookup _ _ _ Hd2).
    eexists _, _. split; [done|]. split; [done|].
    rewrite Hperm1 at 1. rewrite (delete_Permutation _ _ _ Hd2) at 1. done.
  - eexists _, _. split; [done|]. split; [done|].
    by rewrite Hperm1 at 1.
Qed.

(** The theorem at three candidates of weights 10, 5 and 30 and two seeds:
    two addresses are returned and one candidate is left in the array. *)
Lemma selectStandbyDelegates_removes_selected_witness :
  exists result rest,
    selectStandbyDelegates seed25 (Some seed3) positiveCandidates = (Ok result, rest) /\
    length result = 2%nat /\
    dw_delegateAddress <$> positiveCandidates ≡ₚ result ++ (dw_delegateAddress <$> rest).
Proof.
  refine (selectStandbyDelegates_removes_selected positiveCandidates seed25
            (Some seed3) _ _ _).
  - repeat constructor; cbn; lia.
  - cbn. lia.
  - intros seed [= <-]. cbn. lia.
Defined.

(** ** [validtorsEqual] *)

Section ValidatorsFacts.

Context {Validator : Type} (address : Validator -> Buffer) (bftWeight : Validator -> Z).

(** [validtorsEqual] holds of two lists of validators exactly when they have
    the same length and, position by position, the same address and the same
    BFT weight; whatever else a validator carries is not compared. *)
Theorem validtorsEqual_iff (v1 v2 : list Validator) :
  validtorsEqual Validator address bftWeight v1 v2 = true <->
  (fun v => (address v, bftWeight v)) <$> v1 = (fun v => (address v, bftWeight v)) <$> v2.
Proof.
  unfold validtorsEqual.
  destruct (Nat.eqb (length v1) (length v2)) eqn:Hlen; cbn [negb].
  - apply Nat.eqb_eq in Hlen. revert v2 Hlen.
    induction v1 as [|x v1 IH]; intros [|y v2] Hlen; try done.
    cbn [validtorsEqual_loop fmap list_fmap]. unfold Buffer_equals.
    case_bool_decide as Ha; cbn [negb].
    + destruct (bftWeight x =? bftWeight y) eqn:Hw; cbn [negb].
      * apply Z.eqb_eq in Hw. rewrite IH by (cbn in Hlen; lia).
        rewrite Ha, Hw. split; [by intros ->|]. by intros [= ->].
      * apply Z.eqb_neq in Hw. split; [done|]. intros [= _ ? _]. done.
    + split; [done|]. intros [= ? _ _]. done.
  - apply Nat.eqb_neq in Hlen. split; [done|].
    intros E. apply (f_equal length) in E. rewrite !length_fmap in E. done.
Qed.

End ValidatorsFacts.

(** ** Punishment *)

Lemma foldl_max_spec h rest :
  (h <= foldl Z.max h rest) /\
  Forall (fun x => x <= foldl Z.max h rest) rest /\
  (foldl Z.max h rest = h \/ foldl Z.max h rest ∈ rest).
Proof.
  revert h. induction rest as [|x rest IH]; intros h; cbn [foldl].
  - split; [lia|]. split; [constructor|]. by left.
  - destruct (IH (Z.max h x)) as (H1 & H2 & H3).
    split; [lia|]. split; [constructor; [lia|done]|].
    destruct H3 as [H3|H3]; [|right; by right].
    destruct (Z.max_spec h x) as [[_ E]|[_ E]]; rewrite E in *.
    + right. rewrite H3. left.
    + by left.
Qed.

(** [isCurrentlyPunished] holds exactly when some recorded proof-of-
    misbehaviour height lies less than [PUNISHMENT_PERIOD] below the given
    height; with no height recorded it does not hold. And an unlock of a
    self-vote that [isPunished] reports, which looks at the last recorded
    height only, is one whose delegate [isCurrentlyPunished]. *)
Theorem isCurrentlyPunished_iff
  (PUNISHMENT_PERIOD VOTER_PUNISH_TIME WAIT_TIME_SELF_VOTE WAIT_TIME_VOTE : Z)
  (height : Z) (pomHeights : list Z) :
  (isCurrentlyPunished PUNISHMENT_PERIOD height pomHeights = true <->
   exists h, h ∈ pomHeights /\ height - h < PUNISHMENT_PERIOD) /\
  (forall unlockingObject,
     isPunished PUNISHMENT_PERIOD VOTER_PUNISH_TIME WAIT_TIME_SELF_VOTE WAIT_TIME_VOTE
       unlockingObject pomHeights (delegateAddress unlockingObject) height = true ->
     isCurrentlyPunished PUNISHMENT_PERIOD height pomHeights = true).
Proof.
  assert (Hiff : isCurrentlyPunished PUNISHMENT_PERIOD height pomHeights = true <->
                 exists h, h ∈ pomHeights /\ height - h < PUNISHMENT_PERIOD).
  { unfold isCurrentlyPunished. destruct pomHeights as [|h rest].
    - split; [done|]. intros (h & Hin & _). by apply not_elem_of_nil in Hin.
    - cbn zeta. destruct (foldl_max_spec h rest) as (H1 & H2 & H3).
      destruct (height - foldl Z.max h rest <? PUNISHMENT_PERIOD) eqn:E.
      + split; [intros _|done]. exists (foldl Z.max h rest). split; [|lia].
        destruct H3 as [->|H3]; [left|by right].
      + split; [done|]. intros (x & Hin & Hx). exfalso.
        apply elem_of_cons in Hin as [->|Hin]; [lia|].
        rewrite Forall_forall in H2. specialize (H2 x Hin). lia. }
  split; [exact Hiff|].
  intros u Hp. apply Hiff. unfold isPunished in Hp.
  destruct (last pomHeights) as [lastPomHeight|] eqn:Hlast; [|done].
  unfold Buffer_equals in Hp. rewrite bool_decide_eq_true_2 in Hp by done.
  apply andb_prop in Hp as [Hp _].
  exists lastPomHeight. split; [|lia].
  apply last_Some in Hlast as [l' ->]. apply elem_of_app. right. left.
Qed.

End DposFacts.

Module DposNamesFacts.

Import DposNames.

Lemma includes_head p pattern s :
  includes (p :: pattern) s = true -> p ∈ s.
Proof.
  induction s as [|c s IH]; cbn; [done|].
  intros [Hs|Hi]%orb_prop.
  - apply andb_prop in Hs as [->%N.eqb_eq _]. left.
  - right. by apply IH.
Qed.

Lemma usernameChar_no_backslash s :
  forallb usernameChar s = true -> 92%N ∉ s.
Proof.
  intros Hall Hin. rewrite forallb_forall in Hall.
  apply list_elem_of_In in Hin. by specialize (Hall _ Hin).
Qed.

Lemma isNullCharacterIncluded_clean s :
  forallb usernameChar s = true -> isNullCharacterIncluded s = false.
Proof.
  intros Hall. pose proof (usernameChar_no_backslash s Hall) as Hn.
  unfold isNullCharacterIncluded.
  destruct (includes (codeUnits "\0") s) eqn:E1;
    [by apply includes_head in E1|].
  destruct (includes (codeUnits "\u0000") s) eqn:E2;
    [by apply includes_head in E2|].
  destruct (includes (codeUnits "\x00") s) eqn:E3;
    [by apply includes_head in E3|].
  done.
Qed.

(** The names [isUsername] accepts. A name it accepts is not empty and made
    of the characters [a-z], [0-9] and [!@$&_.] only. Conversely, [trim] and
    [toLowerCase] leaving a string of these characters as it is, it accepts
    every such name: the test for a null character and the comparison with
    the trimmed, lower-cased name reject nothing that the final pattern
    accepts. *)
Theorem isUsername_iff (trim toLowerCase : JSString -> JSString) (username : JSString) :
  (forall s, forallb usernameChar s = true -> toLowerCase (trim s) = s) ->
  isUsername trim toLowerCase username = true <->
  username ≠ [] /\ forallb usernameChar username = true.
Proof.
  intros Hfix. unfold isUsername. split.
  - destruct (isNullCharacterIncluded username); [done|].
    destruct (negb _); [done|].
    unfold matchesUsernamePattern. by destruct username.
  - intros [Hne Hall].
    rewrite (isNullCharacterIncluded_clean _ Hall), (Hfix _ Hall).
    rewrite bool_decide_eq_true_2 by done. cbn [negb].
    unfold matchesUsernamePattern. by destruct username.
Qed.

Lemma trimStart_clean s :
  forallb usernameChar s = true -> trimStart s = s.
Proof.
  destruct s as [|c s]; [done|]. cbn [forallb trimStart].
  intros [Hc _]%andb_prop.
  destruct (isSpace c) eqn:E; [|done].
  unfold isSpace, usernameChar in *. exfalso.
  apply orb_prop in E as [E|E].
  - apply N.eqb_eq in E. by subst c.
  - apply andb_prop in E as [E1 E2]. apply N.leb_le in E1, E2.
    assert (Hcases : (c = 9 \/ c = 10 \/ c = 11 \/ c = 12 \/ c = 13)%N) by lia.
    destruct Hcases as [->|[->|[->|[->| ->]]]]; done.
Qed.

Lemma forallb_rev {A} (P : A -> bool) (l : list A) :
  forallb P (rev l) = forallb P l.
Proof.
  induction l as [|x l IH]; [done|]. cbn [rev forallb].
  rewrite forallb_app, IH. cbn. destruct (P x), (forallb P l); done.
Qed.

Lemma ascii_functions_fix s :
  forallb usernameChar s = true -> asciiToLowerCase (asciiTrim s) = s.
Proof.
  intros Hall. unfold asciiTrim.
  rewrite (trimStart_clean s Hall).
  rewrite trimStart_clean by by rewrite forallb_rev.
  rewrite rev_involutive. unfold asciiToLowerCase.
  induction s as [|c s IH]; [done|].
  cbn [forallb] in Hall. apply andb_prop in Hall as [Hc Hall].
  cbn [fmap list_fmap]. rewrite <- (IH Hall) at 2. f_equal.
  destruct ((65 <=? c) && (c <=? 90))%N eqn:E; [|done].
  apply andb_prop in E as [E1 E2]. apply N.leb_le in E1, E2.
  unfold usernameChar in Hc. exfalso.
  apply orb_prop in Hc as [Hc|Hc]; [apply orb_prop in Hc as [Hc|Hc]|].
  - apply andb_prop in Hc as [H1%N.leb_le _]. lia.
  - apply andb_prop in Hc as [_ H2%N.leb_le]. lia.
  - apply bool_decide_eq_true in Hc.
    repeat (apply elem_of_cons in Hc as [->|Hc]; [lia|]).
    by apply not_elem_of_nil in Hc.
Qed.

(** The theorem at the name [genesis_1] and at the name [Genesis]. *)
Lemma isUsername_iff_witness :
  isUsername asciiTrim asciiToLowerCase (codeUnits "genesis_1") = true /\
  isUsername asciiTrim asciiToLowerCase (codeUnits "Genesis") = false.
Proof.
  split.
  - apply (isUsername_iff asciiTrim asciiToLowerCase (codeUnits "genesis_1")
             ascii_functions_fix).
    split; [discriminate|reflexivity].
  - apply not_true_is_false.
    intros [_ Hall]%(isUsername_iff asciiTrim asciiToLowerCase (codeUnits "Genesis")
                       ascii_functions_fix).
    discriminate Hall.
Defined.

End DposNamesFacts.

Module HelloFacts.

Import Hello.

Section ReactFacts.

Variable MAX_RESERVED_ERROR_STATUS : Z.
Variable decode : Buffer -> Result Error CCReactMessageParams.
Variable getAddressFromLisk32Address : string -> Result Error Buffer.

(** What [ReactCCCommand.execute] does to the reaction store. When the
    parameters decode and the message identifier is an address, [execute]
    succeeds and writes the entry of the creator of the message: for reaction
    type 0 the likes recorded so far (none when there was no entry) followed
    by the address of the sender, also when that address is among them
    already; for any other reaction type the likes recorded so far. Every
    other entry stays as it was, and no like is ever removed. *)
Theorem react_execute_appends_like ccm params messageCreatorAddress store :
  decode (ccm_params ccm) = Ok params ->
  getAddressFromLisk32Address (helloMessageID params) = Ok messageCreatorAddress ->
  let likes := default [] (like <$> store !! messageCreatorAddress) in
  execute decode getAddressFromLisk32Address ccm store =
  (Ok tt,
   <[messageCreatorAddress :=
       {| like := if reactionType params =? 0
                  then likes ++ [senderAddress params] else likes |}]> store).
Proof.
  intros Hd Ha likes. subst likes. unfold execute.
  unfold bind at 1, lift at 1. rewrite Hd.
  unfold bind at 1, lift at 1. rewrite Ha.
  unfold bind at 1, reaction_has, gets.
  destruct (store !! messageCreatorAddress) as [r|] eqn:Hs.
  - rewrite bool_decide_eq_true_2 by eauto.
    unfold bind, tryCatch, reaction_get, ret, reaction_set, modify. rewrite Hs.
    destruct r as [l]. cbn. by destruct (reactionType params =? 0).
  - rewrite bool_decide_eq_false_2 by (by intros [? ?]).
    unfold bind, ret, reaction_set, modify. cbn.
    by destruct (reactionType params =? 0).
Qed.

End ReactFacts.

(** The theorem at a like sent twice by the same address: it is recorded
    twice. *)
Lemma react_execute_appends_like_witness :
  snd (execute demoParams demoAddress (likeFrom (repeat Byte.x01 20))
         (snd (execute demoParams demoAddress (likeFrom (repeat Byte.x01 20)) ∅)))
  !! creator = Some {| like := [repeat Byte.x01 20; repeat Byte.x01 20] |}.
Proof.
  rewrite (react_execute_appends_like demoParams demoAddress
             (likeFrom (repeat Byte.x01 20))
             {| reactionType := 0; helloMessageID := "lskcreator";
                senderAddress := repeat Byte.x01 20 |} creator ∅ eq_refl eq_refl).
  cbn [snd].
  rewrite (react_execute_appends_like demoParams demoAddress
             (likeFrom (repeat Byte.x01 20))
             {| reactionType := 0; helloMessageID := "lskcreator";
                senderAddress := repeat Byte.x01 20 |} creator _ eq_refl eq_refl).
  cbn [snd]. rewrite lookup_insert_eq, lookup_insert_eq. reflexivity.
Defined.

End HelloFacts.
